(** * Highcharts Dashboards: DataTableCore, Sync and EditToolbar

    A shallow embedding of three classes of the repository,

    - [DataTableCore] (the columnar table of the data layer),
    - [Sync] (ts/Dashboards/Components/Sync/Sync.ts),
    - [EditToolbar] (ts/Dashboard/EditMode/Toolbar/EditToolbar.ts),

    and of [patchMobileCaps], the helper of the mobile test, together with
    the properties their specification states about them and further
    properties read off the code.  For the toolbar the document is the list
    of its elements in tree order, each with its class list.

    JavaScript objects that are used as dictionaries are association lists
    kept in property enumeration order; JavaScript arrays live in a store and
    are named by reference, so that [slice] really makes a copy and the
    in-place updates of [applyRowCount] and [setRow] really are in place.
    A property read also finds the members of [Object.prototype]: under a
    name that objects inherit a registry reads as registered, and [setRow]
    finds what it cannot [splice].  A function that can throw is given with
    the way it ends.
    Functions of Core/Utilities.js and the classes [SyncHandler] and
    [SyncEmitter] are not among the sources; what the code needs of them is
    modelled from the specification, and marked so.

    Conventions: a column is a JavaScript [Array], as the interface
    [DataTableCore.Column] declares it; a row index and a row count are
    natural numbers; an optional parameter is an [option]; no listener is
    attached to the table, so an event that is fired is only recorded. *)

From Stdlib Require Import ZArith Ascii String DecimalString DecimalZ.
From stdpp Require Import base option list strings.

Local Open Scope string_scope.
Local Open Scope list_scope.
Local Open Scope nat_scope.

(** ** Cells and arrays *)

(** [DataTableCore.CellType = boolean | number | null | string | undefined].
    The table never computes with a cell, so a number is carried as an
    integer. *)
Inductive CellType : Type :=
  | CBool (b : bool)
  | CNum (n : Z)
  | CNull
  | CStr (s : string)
  | CUndefined.

#[global] Instance CellType_eq_dec : EqDecision CellType.
Proof. solve_decision. Defined.

(** The content of a JavaScript [Array] of cells.  A hole (a slot that was
    never written, as [new Array(n)] and a grown [length] leave them) reads as
    [undefined] and is stored as [CUndefined]: the code only reads by index
    and by [length], which cannot tell the two apart. *)
Abbreviation Column := (list CellType).

Module JsArray.

(** [column[i]]: a read out of range gives [undefined]. *)
Definition at_index (c : Column) (i : nat) : CellType :=
  default CUndefined (c !! i).

(** [new Array(n)] *)
Definition new_Array (n : nat) : Column := replicate n CUndefined.

(** [column.length = n]: truncates a longer array, pads a shorter one. *)
Definition set_length (n : nat) (c : Column) : Column :=
  take n c ++ replicate (n - length c) CUndefined.

(** [column[i] = v]: a write at or after the end first grows the array to
    [i + 1] slots. *)
Definition store (i : nat) (v : CellType) (c : Column) : Column :=
  <[i := v]> (c ++ replicate (i + 1 - length c) CUndefined).

(** [column.splice(i, 0, v)]: the start index is clamped to the length. *)
Definition splice_insert (i : nat) (v : CellType) (c : Column) : Column :=
  let start := Nat.min i (length c) in
  take start c ++ v :: drop start c.

End JsArray.

(** ** How a call ends *)

(** A call ends normally, or by throwing a [TypeError]: the only exception
    that the code of these classes can raise, by calling what is no function
    or by reading a property of [undefined]. *)
Inductive Completion : Type :=
  | Normal
  | TypeError.

(** ** Objects used as dictionaries *)

(** A JavaScript object whose own enumerable properties all hold a [V], as
    [Record<string, V>]: the list of its entries in the order in which
    [for ... in] and [Object.keys] enumerate them.  Keys that are array
    indices come first, in ascending numeric order, then the other keys in
    the order of their creation.

    The list holds the own properties.  A property read also finds what the
    object inherits: [member] is the read on an object whose prototype is
    [Object.prototype], as it is for every object that the code makes with
    [{}].  An assignment under the name [__proto__] replaces the prototype;
    what a read of another name finds through a replaced prototype is not
    modelled, and the statements that depend on such a read are about
    objects whose prototype is [Object.prototype]. *)
Module JsObject.

(** The names of the properties that every object inherits from
    [Object.prototype].  Each is a function, except [__proto__], which reads
    as [Object.prototype] itself.  So each is an object, hence truthy; none
    is an array, none has a method [splice], and none has a property whose
    name is an array index, unless a program gives it one. *)
Definition Object_prototype : list string :=
  ["constructor"; "__defineGetter__"; "__defineSetter__"; "hasOwnProperty";
   "__lookupGetter__"; "__lookupSetter__"; "isPrototypeOf";
   "propertyIsEnumerable"; "toString"; "valueOf"; "__proto__";
   "toLocaleString"].

Definition inherited (k : string) : bool :=
  existsb (String.eqb k) Object_prototype.

(** What a property read [o[k]] gives: the value of the property of [o],
    the member of [Object.prototype] of that name, or [undefined]. *)
Inductive Member (V : Type) : Type :=
  | Own (v : V)
  | Inherited
  | Undefined.
Arguments Own {V} v.
Arguments Inherited {V}.
Arguments Undefined {V}.

Definition is_digit (a : ascii) : bool :=
  (48 <=? nat_of_ascii a) && (nat_of_ascii a <=? 57).

Fixpoint digits_value (s : string) (acc : N) : option N :=
  match s with
  | EmptyString => Some acc
  | String a s' =>
      if is_digit a
      then digits_value s' (10 * acc + (N_of_ascii a - 48))%N
      else None
  end.

(** A property name is an array index when it is the canonical decimal
    form of an integer below [2^32 - 1]. *)
Definition array_index (s : string) : option N :=
  match s with
  | EmptyString => None
  | String "0" EmptyString => Some 0%N
  | String "0" _ => None
  | _ =>
      match digits_value s 0 with
      | Some n => if (n <? 2 ^ 32 - 1)%N then Some n else None
      | None => None
      end
  end.

Abbreviation t V := (list (string * V)).

Section Dict.
Context {V : Type}.

(** [Object.keys(o)] *)
Definition keys (o : t V) : list string := map fst o.

(** The own property [k] of [o], if there is one. *)
Fixpoint get (o : t V) (k : string) : option V :=
  match o with
  | [] => None
  | (k', v) :: o' => if String.eqb k k' then Some v else get o' k
  end.

(** [o[k] = v] where [k] is already a property: its place is kept. *)
Fixpoint replace (k : string) (v : V) (o : t V) : t V :=
  match o with
  | [] => []
  | (k', v') :: o' =>
      if String.eqb k k' then (k, v) :: o' else (k', v') :: replace k v o'
  end.

(** A new array-index key goes before the first key that is a larger
    index or no index at all. *)
Fixpoint add_index (n : N) (k : string) (v : V) (o : t V) : t V :=
  match o with
  | [] => [(k, v)]
  | (k', v') :: o' =>
      match array_index k' with
      | Some m =>
          if (m <? n)%N then (k', v') :: add_index n k v o'
          else (k, v) :: o
      | None => (k, v) :: o
      end
  end.

(** [o[k] = v] where [k] is not yet a property. *)
Definition add (k : string) (v : V) (o : t V) : t V :=
  match array_index k with
  | Some n => add_index n k v o
  | None => o ++ [(k, v)]
  end.

(** [o[k] = v] for a name other than [__proto__]: the property is created
    when [o] does not have it, also under a name that [o] inherits.  Under
    [__proto__] the entry stands for the object that the assignment makes
    the prototype of [o]; it is no property of [o] then. *)
Definition set (k : string) (v : V) (o : t V) : t V :=
  match get o k with
  | Some _ => replace k v o
  | None => add k v o
  end.

(** [o[k]] *)
Definition member (o : t V) (k : string) : Member V :=
  match get o k with
  | Some v => Own v
  | None => if inherited k then Inherited else Undefined
  end.

(** [o[k] = v], as far as the properties of [o] go: an assignment under
    [__proto__] reaches the setter that [o] inherits and makes no property,
    unless [o] has one of that name. *)
Definition assign (k : string) (v : V) (o : t V) : t V :=
  match get o k with
  | Some _ => replace k v o
  | None => if String.eqb k "__proto__" then o else add k v o
  end.

(** [delete o[k]] *)
Definition delete (k : string) (o : t V) : t V :=
  List.filter (λ e, negb (String.eqb k e.1)) o.

End Dict.

End JsObject.

(** ** DataTableCore *)

Module DataTableCore.
Import JsArray.

(** A reference to an array object. *)
Abbreviation ref := nat.

(** What [uniqueKey()] returns.  The function is imported from
    Core/Utilities.js. *)
Abbreviation Key := nat.

(** The part of the JavaScript state the table works on: the array objects
    (the array of reference [l] is the [l]-th one), the counter behind
    [uniqueKey], and the events fired so far, oldest first. *)
Record World : Type := mkWorld {
  arrays : list Column;
  keyCounter : nat;
  fired : list string
}.

Definition with_arrays (a : list Column) (w : World) : World :=
  mkWorld a (keyCounter w) (fired w).

(** The content of the array behind a reference. *)
Definition deref (w : World) (l : ref) : Column :=
  default [] (arrays w !! l).

(** A new array object. *)
Definition alloc (c : Column) (w : World) : ref * World :=
  (length (arrays w), with_arrays (arrays w ++ [c]) w).

(** An update in place of the array behind [l]. *)
Definition update (l : ref) (f : Column → Column) (w : World) : World :=
  with_arrays (alter f l (arrays w)) w.

(** [column.slice()] *)
Definition slice (l : ref) (w : World) : ref * World :=
  alloc (deref w l) w.

(** Modelled from the spec: [uniqueKey] of Core/Utilities.js, which is not
    among the sources; the spec has the identifier generated and the
    version tag an opaque token that changes.  Every call returns a key
    that no earlier call returned: the key is the value of a counter, which
    the call increments. *)
Definition uniqueKey (w : World) : Key * World :=
  (keyCounter w, mkWorld (arrays w) (S (keyCounter w)) (fired w)).

(** Modelled from the spec: [fireEvent] of Core/Utilities.js, which is not
    among the sources; the spec has it emit a change notification.  The
    event type is appended to the log; listeners are not part of the
    table. *)
Definition fireEvent (type : string) (w : World) : World :=
  mkWorld (arrays w) (keyCounter w) (fired w ++ [type]).

(** [DataTable.ColumnCollection]: column name to array. *)
Abbreviation ColumnCollection := (JsObject.t ref).

(** [DataTable.RowObject]: column name to cell value. *)
Abbreviation RowObject := (JsObject.t CellType).

(** [DataTableOptions], as far as the constructor reads it. *)
Record DataTableOptions : Type := mkOptions {
  opt_id : option string;
  opt_columns : option ColumnCollection
}.

(** [DataEvent.Detail], as far as the table reads it. *)
Record Detail : Type := mkDetail { silent : bool }.

(** [eventDetail?.silent] *)
Definition is_silent (eventDetail : option Detail) : bool :=
  match eventDetail with
  | Some d => silent d
  | None => false
  end.

(** The table's identifier: the caller's string or a generated key. *)
Inductive Ident : Type :=
  | GivenId (s : string)
  | GeneratedId (k : Key).

(** The fields of a [DataTableCore].  [modified] always refers to the
    table itself and is left out.  [columns] holds the columns in the order
    of [Object.keys]; an array that was assigned under the name [__proto__]
    is kept as the entry of that name, where the code makes it the prototype
    of [columns]: [getColumn] finds it, [Object.keys] does not list it. *)
Record DataTableCore : Type := mkTable {
  autoId : bool;
  columns : JsObject.t ref;
  id : Ident;
  rowCount : nat;
  versionTag : Key
}.

Definition with_columns (cols : JsObject.t ref) (t : DataTableCore) :=
  mkTable (autoId t) cols (id t) (rowCount t) (versionTag t).

Definition with_rowCount (n : nat) (t : DataTableCore) :=
  mkTable (autoId t) (columns t) (id t) n (versionTag t).

Definition with_versionTag (k : Key) (t : DataTableCore) :=
  mkTable (autoId t) (columns t) (id t) (rowCount t) k.

(** [applyRowCount]: every column of the model is an [Array], so the
    [isArray] test of the source holds for each of them. *)
Definition applyRowCount (t : DataTableCore) (rowCount : nat) (w : World)
  : DataTableCore * World :=
  (with_rowCount rowCount t,
   fold_left (λ w '(_, column), update column (set_length rowCount) w)
             (columns t) w).

(** [this.columns[columnName]], where the prototype of [columns] is
    [Object.prototype]. *)
Definition column_member (t : DataTableCore) (columnName : string)
  : JsObject.Member ref :=
  JsObject.member (columns t) columnName.

(** [getColumn]: the column itself, not a copy; [None] when the table has
    no column of that name.  The code then returns what [column_member]
    gives: [undefined], or the member of [Object.prototype] for a name that
    objects inherit. *)
Definition getColumn (t : DataTableCore) (columnName : string) : option ref :=
  JsObject.get (columns t) columnName.

(** [Object.keys(this.columns)]: the names of the columns.  The entry that
    stands for the prototype is no property and is not listed. *)
Definition column_names (t : DataTableCore) : list string :=
  List.filter (λ k, negb (String.eqb k "__proto__")) (JsObject.keys (columns t)).

(** [columnNames || Object.keys(this.columns)] *)
Definition names_or_all (t : DataTableCore) (columnNames : option (list string))
  : list string :=
  match columnNames with
  | Some names => names
  | None => column_names t
  end.

(** [getColumns]: the result object is built by assignments of what the
    property reads give. *)
Definition getColumns (t : DataTableCore) (columnNames : option (list string))
  : JsObject.t (JsObject.Member ref) :=
  fold_left (λ columns columnName,
               JsObject.assign columnName (column_member t columnName) columns)
            (names_or_all t columnNames) [].

(** The value of [this.columns[key]?.[rowIndex]]. *)
Definition cellAt (t : DataTableCore) (w : World) (key : string)
    (rowIndex : nat) : CellType :=
  match getColumn t key with
  | Some column => at_index (deref w column) rowIndex
  | None => CUndefined
  end.

(** [getRow]: the row that it returns. *)
Definition getRow (t : DataTableCore) (w : World) (rowIndex : nat)
    (columnNames : option (list string)) : list CellType :=
  map (λ key, cellAt t w key rowIndex) (names_or_all t columnNames).

(** [v[rowIndex]] where [v] is what a property read gave, and [v?.[rowIndex]]
    when [chained] is set.  Reading a property of [undefined] throws a
    [TypeError]; the optional chain gives [undefined] instead.  A member of
    [Object.prototype] has no property under an array index. *)
Definition read_cell (chained : bool) (v : JsObject.Member ref) (w : World)
    (rowIndex : nat) : CellType * Completion :=
  match v with
  | JsObject.Own column => (at_index (deref w column) rowIndex, Normal)
  | JsObject.Inherited => (CUndefined, Normal)
  | JsObject.Undefined => (CUndefined, if chained then Normal else TypeError)
  end.

(** One call of the function that [getRow] passes to [map]; nothing more
    runs once an exception is on its way. *)
Definition getRow_step (t : DataTableCore) (w : World) (rowIndex : nat)
    (acc : list CellType * Completion) (key : string)
  : list CellType * Completion :=
  let '(cells, completion) := acc in
  match completion with
  | TypeError => acc
  | Normal =>
      let '(cell, completion') :=
        read_cell true (column_member t key) w rowIndex in
      (cells ++ [cell], completion')
  end.

(** [getRow], step by step: the cells that [map] has collected, and how the
    call ends. *)
Definition getRow_run (t : DataTableCore) (w : World) (rowIndex : nat)
    (columnNames : option (list string)) : list CellType * Completion :=
  fold_left (getRow_step t w rowIndex) (names_or_all t columnNames)
            ([], Normal).

(** One round of the loop of the constructor. *)
Definition constructor_step (acc : JsObject.t ref * nat * World)
    (entry : string * ref) : JsObject.t ref * nat * World :=
  let '(cols, rowCount, w) := acc in
  let '(columnName, column) := entry in
  let '(copy, w') := slice column w in
  (JsObject.set columnName copy cols,
   Nat.max rowCount (length (deref w column)),
   w').

(** [options.id] is used when it is truthy: present and not empty. *)
Definition truthy_id (o : option string) : option string :=
  match o with
  | Some s => if String.eqb s "" then None else Some s
  | None => None
  end.

(** [new DataTableCore(options)] *)
Definition constructor (options : DataTableOptions) (w : World)
  : DataTableCore * World :=
  let autoId := negb (bool_decide (is_Some (truthy_id (opt_id options)))) in
  let '(id, w1) :=
    match truthy_id (opt_id options) with
    | Some s => (GivenId s, w)
    | None => let '(k, w') := uniqueKey w in (GeneratedId k, w')
    end in
  let '(versionTag, w2) := uniqueKey w1 in
  let '(cols, rowCount, w3) :=
    fold_left constructor_step (default [] (opt_columns options))
              ([], 0, w2) in
  applyRowCount (mkTable autoId cols id 0 versionTag) rowCount w3.

(** One round of the loop of [setColumns]. *)
Definition setColumns_step (acc : JsObject.t ref * nat * World)
    (entry : string * ref) : JsObject.t ref * nat * World :=
  let '(cols, rowCount, w) := acc in
  let '(columnName, column) := entry in
  let '(copy, w') := slice column w in
  (JsObject.set columnName copy cols, length (deref w column), w').

(** What both setters do last: unless silenced, fire the event and take a
    new version tag. *)
Definition notify (type : string) (eventDetail : option Detail)
    (t : DataTableCore) (w : World) : DataTableCore * World :=
  if is_silent eventDetail then (t, w)
  else
    let w1 := fireEvent type w in
    let '(k, w2) := uniqueKey w1 in
    (with_versionTag k t, w2).

(** [setColumns]; [rowIndex] is not read. *)
Definition setColumns (t : DataTableCore) (cols : ColumnCollection)
    (rowIndex : option nat) (eventDetail : option Detail) (w : World)
  : DataTableCore * World :=
  let '(cols', rowCount, w1) :=
    fold_left setColumns_step cols (columns t, rowCount t, w) in
  let '(t1, w2) := applyRowCount (with_columns cols' t) rowCount w1 in
  notify "afterSetColumns" eventDetail t1 w2.

(** [setColumn]: the default value of [column] is a new empty array, that
    of [rowIndex] is 0. *)
Definition setColumn (t : DataTableCore) (columnNameOrAlias : string)
    (column : option ref) (rowIndex : option nat)
    (eventDetail : option Detail) (w : World) : DataTableCore * World :=
  let '(column, w0) :=
    match column with
    | Some c => (c, w)
    | None => alloc [] w
    end in
  setColumns t [(columnNameOrAlias, column)]
             (Some (default 0 rowIndex)) eventDetail w0.

(** One round of the loop of [setRow]; nothing more runs once an exception
    is on its way.  [columns[columnName]] finds the column of the table, or
    the member of [Object.prototype] when the name is one that objects
    inherit, and only what is left falls back on the new array.  With
    [insert], [splice] is called: a member of [Object.prototype] has no such
    method, and the call throws a [TypeError].  Without [insert] the cell
    becomes a property of what was found, which then is the column of that
    name; an inherited member that becomes a column in this way is carried
    as a new array that holds the cell. *)
Definition setRow_step (rowIndex indexRowCount : nat) (insert : bool)
    (acc : JsObject.t ref * World * Completion) (entry : string * CellType)
  : JsObject.t ref * World * Completion :=
  let '(cols, w, completion) := acc in
  let '(columnName, cellValue) := entry in
  match completion with
  | TypeError => acc
  | Normal =>
      match JsObject.member cols columnName, insert with
      | JsObject.Inherited, true => (cols, w, TypeError)
      | found, _ =>
          let '(column, w') :=
            match found with
            | JsObject.Own column => (column, w)
            | _ => alloc (new_Array indexRowCount) w
            end in
          let w'' :=
            if insert then update column (splice_insert rowIndex cellValue) w'
            else update column (store rowIndex cellValue) w' in
          (JsObject.set columnName column cols, w'', Normal)
      end
  end.

(** [setRow], with how it ends; an absent [insert] is falsy, the default
    [rowIndex] is the row count.  [columns] is the object of the table, so
    the columns that the loop has set before an exception stay set. *)
Definition setRow_run (t : DataTableCore) (row : RowObject)
    (rowIndex : option nat) (insert : option bool)
    (eventDetail : option Detail) (w : World)
  : DataTableCore * World * Completion :=
  let rowIndex := default (rowCount t) rowIndex in
  let insert := default false insert in
  let indexRowCount := if insert then rowCount t + 1 else rowIndex + 1 in
  let '(cols, w1, completion) :=
    fold_left (setRow_step rowIndex indexRowCount insert) row
              (columns t, w, Normal) in
  let t1 := with_columns cols t in
  match completion with
  | TypeError => (t1, w1, TypeError)
  | Normal =>
      let '(t2, w2) :=
        if rowCount t <? indexRowCount
        then applyRowCount t1 indexRowCount w1
        else (t1, w1) in
      (notify "afterSetRows" eventDetail t2 w2, Normal)
  end.

(** [setRow]: the table and the store after the call. *)
Definition setRow (t : DataTableCore) (row : RowObject)
    (rowIndex : option nat) (insert : option bool)
    (eventDetail : option Detail) (w : World) : DataTableCore * World :=
  (setRow_run t row rowIndex insert eventDetail w).1.

(** How [setRow] ends. *)
Definition setRow_completion (t : DataTableCore) (row : RowObject)
    (rowIndex : option nat) (insert : option bool)
    (eventDetail : option Detail) (w : World) : Completion :=
  (setRow_run t row rowIndex insert eventDetail w).2.

(** *** Well-formed tables *)

(** The arrays of the table's columns. *)
Definition table_refs (t : DataTableCore) : list ref := map snd (columns t).

(** Every column is an array of the store. *)
Definition refs_valid (t : DataTableCore) (w : World) : Prop :=
  Forall (λ l, l < length (arrays w)) (table_refs t).

(** No two columns are the same array. *)
Definition no_sharing (t : DataTableCore) : Prop := NoDup (table_refs t).

(** Every column is an array of [rowCount] slots. *)
Definition lengths_ok (t : DataTableCore) (w : World) : Prop :=
  Forall (λ l, length <$> arrays w !! l = Some (rowCount t)) (table_refs t).

(** The loop of [applyRowCount]. *)
Definition resize_all (n : nat) (cols : JsObject.t ref) (w : World) : World :=
  fold_left (λ w '(_, column), update column (set_length n) w) cols w.

(** The version tag is a key that [uniqueKey] has returned. *)
Definition tag_issued (t : DataTableCore) (w : World) : Prop :=
  versionTag t < keyCounter w.

(** *** The copying loop of the constructor and of setColumns *)

(** What the two loops do to the columns and to the store. *)
Definition copy_columns (cols : ColumnCollection)
    (acc : JsObject.t ref * World) : JsObject.t ref * World :=
  fold_left (λ '(tcols, w) '(columnName, column),
               let '(copy, w') := slice column w in
               (JsObject.set columnName copy tcols, w'))
            cols acc.

(** *** The loop of setRow *)

(** What [setRow] does to the array of a named cell. *)
Definition cell_write (rowIndex : nat) (insert : bool) (v : CellType)
  : Column → Column :=
  if insert then splice_insert rowIndex v else store rowIndex v.

(** A round of the loop that does not throw: the column of the table, or
    else a new array, takes the cell. *)
Definition setRow_write (rowIndex indexRowCount : nat) (insert : bool)
    (acc : JsObject.t ref * World) (entry : string * CellType)
  : JsObject.t ref * World :=
  let '(cols, w) := acc in
  let '(columnName, cellValue) := entry in
  let '(column, w') :=
    match JsObject.get cols columnName with
    | Some column => (column, w)
    | None => alloc (new_Array indexRowCount) w
    end in
  (JsObject.set columnName column cols,
   update column (cell_write rowIndex insert cellValue) w').

(** The loop of a [setRow] that does not throw. *)
Definition row_loop (i n : nat) (ins : bool) (row : RowObject)
    (acc : JsObject.t ref * World) : JsObject.t ref * World :=
  fold_left (setRow_write i n ins) row acc.

(** The keys of a row object that [setRow] can insert: none is a name that
    objects inherit. *)
Definition insertable (row : RowObject) : Prop :=
  Forall (λ k, JsObject.inherited k = false) (JsObject.keys row).

(** *** Examples *)

Definition num_column (l : list Z) : Column := map CNum l.

(** A world where the caller has made the arrays [[1,2]] and [[3,4]]. *)
Definition world_ab : World :=
  mkWorld [num_column [1; 2]; num_column [3; 4]]%Z 0 [].

(** [new DataTableCore({ columns: { a: [1,2], b: [3,4] } })] *)
Definition table_ab : DataTableCore * World :=
  constructor (mkOptions None (Some [("a", 0); ("b", 1)])) world_ab.

(** [new DataTableCore({ columns: { a: [1,2,3] } })] *)
Definition table_a : DataTableCore * World :=
  constructor (mkOptions None (Some [("a", 0)]))
              (mkWorld [num_column [1; 2; 3]]%Z 0 []).

End DataTableCore.

(** ** Sync *)

Module Sync.

(** A function value and the host component are opaque to [Sync]; each is
    named by a token. *)
Abbreviation Func := nat.
Abbreviation ComponentTypes := nat.

(** [Sync.EmitterConfig = [id, func]] *)
Abbreviation EmitterConfig := (string * Func)%type.

(** [Sync.HandlerConfig = [id, presentationStateTrigger, func]] *)
Abbreviation HandlerConfig := (string * string * Func)%type.

(** A configuration value of type [C | null | boolean | undefined]. *)
Inductive ConfigValue (C : Type) : Type :=
  | Absent                 (* undefined or null *)
  | Flag (b : bool)
  | Tuple (c : C).
Arguments Absent {C}.
Arguments Flag {C} b.
Arguments Tuple {C} c.

(** [Sync.OptionsEntry] *)
Record OptionsEntry : Type := mkEntry {
  emitter : ConfigValue EmitterConfig;
  handler : ConfigValue HandlerConfig
}.

(** An instance of [SyncHandler].  Two instances made by two [new]
    expressions are two objects, also when they are made from the same
    configuration: [h_serial] tells them apart. *)
Record SyncHandler : Type := mkHandler {
  h_serial : nat;
  h_id : string;
  presentationStateTrigger : string;
  h_func : Func
}.

(** An instance of [SyncEmitter]. *)
Record SyncEmitter : Type := mkEmitter {
  e_serial : nat;
  e_id : string;
  e_func : Func
}.

(** What [start] does that can be seen from outside [Sync]: the instances
    it makes and the [create] hooks it calls. *)
Inductive Event : Type :=
  | NewHandler (h : SyncHandler)
  | HandlerCreate (h : SyncHandler) (component : ComponentTypes)
  | NewEmitter (e : SyncEmitter)
  | EmitterCreate (e : SyncEmitter) (component : ComponentTypes).

(** The state outside the [Sync] object: the static [Sync.defaultHandlers],
    the number of objects made so far, and the events so far, oldest first. *)
Record World : Type := mkWorld {
  defaultHandlers : JsObject.t OptionsEntry;
  nextSerial : nat;
  trace : list Event
}.

Definition log (e : Event) (w : World) : World :=
  mkWorld (defaultHandlers w) (nextSerial w) (trace w ++ [e]).

(** The fields of a [Sync]. *)
Record Sync : Type := mkSync {
  registeredSyncHandlers : JsObject.t SyncHandler;
  registeredSyncEmitters : JsObject.t SyncEmitter;
  component : ComponentTypes;
  syncConfig : JsObject.t OptionsEntry;
  isSyncing : bool
}.

(** [new Sync(component, syncHandlers)], the default of [syncHandlers]
    being [Sync.defaultHandlers]. *)
Definition constructor (component : ComponentTypes)
    (syncHandlers : option (JsObject.t OptionsEntry)) (w : World) : Sync :=
  mkSync [] [] component (default (defaultHandlers w) syncHandlers) false.

Definition registerSyncEmitter (emitter : SyncEmitter) (s : Sync) : Sync :=
  mkSync (registeredSyncHandlers s)
         (JsObject.assign (e_id emitter) emitter (registeredSyncEmitters s))
         (component s) (syncConfig s) (isSyncing s).

(** [Boolean(this.registeredSyncEmitters[id])]: an instance is an object,
    and so is a member of [Object.prototype]; both are truthy.  So an
    identifier that objects inherit reads as registered on an empty
    registry. *)
Definition isRegisteredEmitter (s : Sync) (id : string) : bool :=
  match JsObject.member (registeredSyncEmitters s) id with
  | JsObject.Undefined => false
  | _ => true
  end.

Definition registerSyncHandler (handler : SyncHandler) (s : Sync) : Sync :=
  mkSync (JsObject.assign (h_id handler) handler (registeredSyncHandlers s))
         (registeredSyncEmitters s)
         (component s) (syncConfig s) (isSyncing s).

Definition isRegisteredHandler (s : Sync) (handlerID : string) : bool :=
  match JsObject.member (registeredSyncHandlers s) handlerID with
  | JsObject.Undefined => false
  | _ => true
  end.

(** Modelled from the spec: the constructor of [SyncHandler] (Handler.js is
    not among the sources), which makes an instance from the positional
    configuration tuple. *)
Definition new_SyncHandler (c : HandlerConfig) (w : World)
  : SyncHandler * World :=
  let h := mkHandler (nextSerial w) c.1.1 c.1.2 c.2 in
  (h, mkWorld (defaultHandlers w) (S (nextSerial w)) (trace w ++ [NewHandler h])).

(** Modelled from the spec: the constructor of [SyncEmitter] (Emitter.js is
    not among the sources). *)
Definition new_SyncEmitter (c : EmitterConfig) (w : World)
  : SyncEmitter * World :=
  let e := mkEmitter (nextSerial w) c.1 c.2 in
  (e, mkWorld (defaultHandlers w) (S (nextSerial w)) (trace w ++ [NewEmitter e])).

(** [new SyncHandler(...handlerConfig)] and the guarded registration that
    follows it. *)
Definition attach_handler (c : HandlerConfig) (s : Sync) (w : World)
  : Sync * World * Completion :=
  let '(handler, w1) := new_SyncHandler c w in
  if negb (isRegisteredHandler s (h_id handler))
  then (registerSyncHandler handler s,
        log (HandlerCreate handler (component s)) w1, Normal)
  else (s, w1, Normal).

(** The [if (handlerConfig)] statement of [start].  With [true], the
    configuration is [Sync.defaultHandlers[id].handler]: reading it throws
    when [id] has no default entry, and spreading it throws when it is no
    tuple. *)
Definition start_handler (id : string)
    (handlerConfig : ConfigValue HandlerConfig) (s : Sync) (w : World)
  : Sync * World * Completion :=
  match handlerConfig with
  | Absent | Flag false => (s, w, Normal)
  | Tuple c => attach_handler c s w
  | Flag true =>
      match JsObject.get (defaultHandlers w) id with
      | Some {| handler := Tuple c |} => attach_handler c s w
      | _ => (s, w, TypeError)
      end
  end.

(** [new SyncEmitter(...emitterConfig)] and the guarded registration that
    follows it. *)
Definition attach_emitter (c : EmitterConfig) (s : Sync) (w : World)
  : Sync * World * Completion :=
  let '(emitter, w1) := new_SyncEmitter c w in
  if negb (isRegisteredEmitter s (e_id emitter))
  then (registerSyncEmitter emitter s,
        log (EmitterCreate emitter (component s)) w1, Normal)
  else (s, w1, Normal).

(** The [if (emitterConfig)] statement of [start]. *)
Definition start_emitter (id : string)
    (emitterConfig : ConfigValue EmitterConfig) (s : Sync) (w : World)
  : Sync * World * Completion :=
  match emitterConfig with
  | Absent | Flag false => (s, w, Normal)
  | Tuple c => attach_emitter c s w
  | Flag true =>
      match JsObject.get (defaultHandlers w) id with
      | Some {| emitter := Tuple c |} => attach_emitter c s w
      | _ => (s, w, TypeError)
      end
  end.

(** One call of the function that [start] passes to [forEach]; nothing more
    runs once an exception is on its way. *)
Definition start_entry (acc : Sync * World * Completion) (id : string)
  : Sync * World * Completion :=
  let '(s, w, completion) := acc in
  match completion with
  | TypeError => acc
  | Normal =>
      match JsObject.get (syncConfig s) id with
      | None => (s, w, TypeError)
      | Some entry =>
          let '(s1, w1, completion1) := start_handler id (handler entry) s w in
          match completion1 with
          | TypeError => (s1, w1, TypeError)
          | Normal => start_emitter id (emitter entry) s1 w1
          end
      end
  end.

(** [start] *)
Definition start (s : Sync) (w : World) : Sync * World * Completion :=
  let '(s1, w1, completion) :=
    fold_left start_entry (JsObject.keys (syncConfig s)) (s, w, Normal) in
  match completion with
  | TypeError => (s1, w1, TypeError)
  | Normal =>
      (mkSync (registeredSyncHandlers s1) (registeredSyncEmitters s1)
              (component s1) (syncConfig s1) true,
       w1, Normal)
  end.

(** The events that follow those of [w] in [w']. *)
Definition events_since (w w' : World) : list Event :=
  drop (length (trace w)) (trace w').

(** How many handler instances of identifier [id] were made. *)
Definition handlers_made (id : string) (evs : list Event) : nat :=
  length (List.filter (λ ev, match ev with
                             | NewHandler h => String.eqb (h_id h) id
                             | _ => false
                             end) evs).

(** How many times [create] was called on a handler of identifier [id]. *)
Definition handler_creates (id : string) (evs : list Event) : nat :=
  length (List.filter (λ ev, match ev with
                             | HandlerCreate h _ => String.eqb (h_id h) id
                             | _ => false
                             end) evs).

Definition emitters_made (id : string) (evs : list Event) : nat :=
  length (List.filter (λ ev, match ev with
                             | NewEmitter e => String.eqb (e_id e) id
                             | _ => false
                             end) evs).

Definition emitter_creates (id : string) (evs : list Event) : nat :=
  length (List.filter (λ ev, match ev with
                             | EmitterCreate e _ => String.eqb (e_id e) id
                             | _ => false
                             end) evs).

(** *** Guarded registration

    Handlers and emitters are registered alike.  For either kind, [reg] is
    the registry, [iid] the identifier of an instance and [created] tells
    on which instance, if any, an event is a call of [create]. *)
Section Registration.
Context {I : Type}.
Variable reg : Sync → JsObject.t I.
Variable iid : I → string.
Variable created : Event → option I.

Definition creates (id : string) (evs : list Event) : nat :=
  length (List.filter (λ ev, match created ev with
                             | Some i => String.eqb (iid i) id
                             | None => false
                             end) evs).

(** From [(s, w)] to [(s', w')], [create] is called at most once per
    identifier and never for an identifier that is registered in [s]; what
    is registered in [s] stays, and an instance whose [create] is called is
    the registered one in [s']. *)
Definition attaches_once (s : Sync) (w : World) (s' : Sync) (w' : World)
  : Prop :=
  ∃ evs, trace w' = trace w ++ evs
    ∧ (∀ id, creates id evs ≤ 1)
    ∧ (∀ id, is_Some (JsObject.get (reg s) id) →
         creates id evs = 0
         ∧ JsObject.get (reg s') id = JsObject.get (reg s) id)
    ∧ (∀ ev i, In ev evs → created ev = Some i →
         JsObject.get (reg s') (iid i) = Some i).

End Registration.

(** Each registry has one entry per identifier. *)
Definition registries_ok (s : Sync) : Prop :=
  NoDup (JsObject.keys (registeredSyncHandlers s))
  ∧ NoDup (JsObject.keys (registeredSyncEmitters s)).

Definition handler_created (ev : Event) : option SyncHandler :=
  match ev with
  | HandlerCreate h _ => Some h
  | _ => None
  end.

Definition emitter_created (ev : Event) : option SyncEmitter :=
  match ev with
  | EmitterCreate e _ => Some e
  | _ => None
  end.

Abbreviation once_h :=
  (attaches_once registeredSyncHandlers h_id handler_created).
Abbreviation once_e :=
  (attaches_once registeredSyncEmitters e_id emitter_created).

(** *** Which instances are made, and which are attached *)

Definition handler_made (ev : Event) : option SyncHandler :=
  match ev with
  | NewHandler h => Some h
  | _ => None
  end.

Definition emitter_made (ev : Event) : option SyncEmitter :=
  match ev with
  | NewEmitter e => Some e
  | _ => None
  end.

(** The configuration tuple that an instance was made from. *)
Definition handler_config (h : SyncHandler) : HandlerConfig :=
  (h_id h, presentationStateTrigger h, h_func h).

Definition emitter_config (e : SyncEmitter) : EmitterConfig :=
  (e_id e, e_func e).

(** The configuration tuples of the handlers, and of the emitters, that
    were made, in the order in which they were made. *)
Definition handlers_built (evs : list Event) : list HandlerConfig :=
  omap (λ ev, handler_config <$> handler_made ev) evs.

Definition emitters_built (evs : list Event) : list EmitterConfig :=
  omap (λ ev, emitter_config <$> emitter_made ev) evs.

Section Attachment.
Context {I : Type}.
Variable reg : Sync → JsObject.t I.
Variable iid : I → string.
Variable created made : Event → option I.

(** How many instances of identifier [id] were made. *)
Definition makes (id : string) (evs : list Event) : nat :=
  length (List.filter (λ ev, match made ev with
                             | Some i => String.eqb (iid i) id
                             | None => false
                             end) evs).

(** What [isRegisteredHandler] and [isRegisteredEmitter] answer. *)
Definition registered (s : Sync) (id : string) : bool :=
  match JsObject.member (reg s) id with
  | JsObject.Undefined => false
  | _ => true
  end.

(** From [(s, w)] to [(s', w')], [create] is called for an identifier
    exactly when an instance of that identifier is made and the identifier
    did not read as registered in [s], and then once; what reads as
    registered in [s'] is what did in [s], and the identifiers of the
    instances that were made. *)
Definition attaches_fresh (s : Sync) (w : World) (s' : Sync) (w' : World)
  : Prop :=
  ∃ evs, trace w' = trace w ++ evs
    ∧ ∀ id,
        creates iid created id evs
        = (if (0 <? makes id evs) && negb (registered s id) then 1 else 0)
        ∧ registered s' id = registered s id || (0 <? makes id evs).

End Attachment.

Abbreviation fresh_h :=
  (attaches_fresh registeredSyncHandlers h_id handler_created handler_made).
Abbreviation fresh_e :=
  (attaches_fresh registeredSyncEmitters e_id emitter_created emitter_made).

(** *** Example: two events that share a handler

    The source notes that panning and selection use the same handler. *)
Definition shared_config : JsObject.t OptionsEntry :=
  [("selection", mkEntry Absent (Tuple ("extremesHandler", "selection", 7)));
   ("panning", mkEntry Absent (Tuple ("extremesHandler", "panning", 7)))].

Definition world0 : World := mkWorld [] 0 [].

(** A [Sync] of that configuration, after [start]. *)
Definition started : Sync * World * Completion :=
  start (constructor 1 (Some shared_config) world0) world0.

(** *** stop *)

(** A call of the [remove] hook of an instance. *)
Inductive Removed : Type :=
  | HandlerRemove (h : SyncHandler)
  | EmitterRemove (e : SyncEmitter).

(** One call of the function that [stop] passes to the first [forEach]:
    [registeredSyncHandlers[id].remove()], which throws when the registry
    has no such property, then [delete registeredSyncHandlers[id]].  The
    calls of [remove] are collected in order. *)
Definition stop_handler
    (acc : JsObject.t SyncHandler * list Removed * Completion) (id : string)
  : JsObject.t SyncHandler * list Removed * Completion :=
  let '(reg, removed, completion) := acc in
  match completion with
  | TypeError => acc
  | Normal =>
      match JsObject.get reg id with
      | Some h => (JsObject.delete id reg, removed ++ [HandlerRemove h], Normal)
      | None => (reg, removed, TypeError)
      end
  end.

(** The same for the second [forEach], over the emitters. *)
Definition stop_emitter
    (acc : JsObject.t SyncEmitter * list Removed * Completion) (id : string)
  : JsObject.t SyncEmitter * list Removed * Completion :=
  let '(reg, removed, completion) := acc in
  match completion with
  | TypeError => acc
  | Normal =>
      match JsObject.get reg id with
      | Some e => (JsObject.delete id reg, removed ++ [EmitterRemove e], Normal)
      | None => (reg, removed, TypeError)
      end
  end.

(** [stop]: the [Sync] afterwards, the calls of [remove] it made, and how it
    ended. *)
Definition stop (s : Sync) : Sync * list Removed * Completion :=
  let '(handlers, removed1, completion1) :=
    fold_left stop_handler (JsObject.keys (registeredSyncHandlers s))
              (registeredSyncHandlers s, [], Normal) in
  match completion1 with
  | TypeError =>
      (mkSync handlers (registeredSyncEmitters s) (component s) (syncConfig s)
              (isSyncing s),
       removed1, TypeError)
  | Normal =>
      let '(emitters, removed2, completion2) :=
        fold_left stop_emitter (JsObject.keys (registeredSyncEmitters s))
                  (registeredSyncEmitters s, removed1, Normal) in
      match completion2 with
      | TypeError =>
          (mkSync handlers emitters (component s) (syncConfig s) (isSyncing s),
           removed2, TypeError)
      | Normal =>
          (mkSync handlers emitters (component s) (syncConfig s) false,
           removed2, Normal)
      end
  end.

(** *** What a configuration asks for *)

(** What [start] makes of a configuration value of identifier [id]: nothing,
    an instance of a configuration tuple, or a [TypeError]. *)
Inductive Resolved (C : Type) : Type :=
  | Disabled
  | Enabled (c : C)
  | Unresolvable.
Arguments Disabled {C}.
Arguments Enabled {C} c.
Arguments Unresolvable {C}.

Definition resolve_handler (w : World) (id : string)
    (handlerConfig : ConfigValue HandlerConfig) : Resolved HandlerConfig :=
  match handlerConfig with
  | Absent | Flag false => Disabled
  | Tuple c => Enabled c
  | Flag true =>
      match JsObject.get (defaultHandlers w) id with
      | Some {| handler := Tuple c |} => Enabled c
      | _ => Unresolvable
      end
  end.

Definition resolve_emitter (w : World) (id : string)
    (emitterConfig : ConfigValue EmitterConfig) : Resolved EmitterConfig :=
  match emitterConfig with
  | Absent | Flag false => Disabled
  | Tuple c => Enabled c
  | Flag true =>
      match JsObject.get (defaultHandlers w) id with
      | Some {| emitter := Tuple c |} => Enabled c
      | _ => Unresolvable
      end
  end.

(** The handler, and the emitter, that the entry of identifier [id] of the
    configuration asks for, if it asks for one that [start] can make. *)
Definition wanted_handler (s : Sync) (w : World) (id : string)
  : option HandlerConfig :=
  match JsObject.get (syncConfig s) id with
  | Some entry =>
      match resolve_handler w id (handler entry) with
      | Enabled c => Some c
      | _ => None
      end
  | None => None
  end.

Definition wanted_emitter (s : Sync) (w : World) (id : string)
  : option EmitterConfig :=
  match JsObject.get (syncConfig s) id with
  | Some entry =>
      match resolve_emitter w id (emitter entry) with
      | Enabled c => Some c
      | _ => None
      end
  | None => None
  end.

Definition is_resolvable {C : Type} (r : Resolved C) : bool :=
  match r with
  | Unresolvable => false
  | _ => true
  end.

(** The entry of identifier [id] can be started: it exists, and neither
    half of it is [true] without a default tuple. *)
Definition entry_startable (s : Sync) (w : World) (id : string) : bool :=
  match JsObject.get (syncConfig s) id with
  | Some entry =>
      is_resolvable (resolve_handler w id (handler entry))
      && is_resolvable (resolve_emitter w id (emitter entry))
  | None => false
  end.

(** Every instance that the entry of identifier [id] asks for is
    registered. *)
Definition entry_attached (s : Sync) (w : World) (id : string) : Prop :=
  ∀ entry, JsObject.get (syncConfig s) id = Some entry →
    (∀ c, resolve_handler w id (handler entry) = Enabled c →
       isRegisteredHandler s c.1.1 = true)
    ∧ (∀ c, resolve_emitter w id (emitter entry) = Enabled c →
         isRegisteredEmitter s c.1 = true).

(** The configuration, the component, the syncing mark and the defaults
    are the same. *)
Definition same_setup (s : Sync) (w : World) (s' : Sync) (w' : World) : Prop :=
  syncConfig s' = syncConfig s ∧ component s' = component s
  ∧ isSyncing s' = isSyncing s ∧ defaultHandlers w' = defaultHandlers w.

(** From [w] to [w'] the defaults are the same and no [create] was
    called. *)
Definition quiet (w w' : World) : Prop :=
  defaultHandlers w' = defaultHandlers w
  ∧ ∃ evs, trace w' = trace w ++ evs
      ∧ ∀ ev, In ev evs →
          handler_created ev = None ∧ emitter_created ev = None.

(** *** Where the entries of a registry come from *)

Section Provenance.
Context {I : Type}.
Variable reg : Sync → JsObject.t I.
Variable iid : I → string.
Variable created : Event → option I.

(** From [(s, w)] to [(s', w')], an entry of the registry is an entry from
    before or an instance under its own identifier whose [create] was
    called. *)
Definition entries_from (s : Sync) (w : World) (s' : Sync) (w' : World)
  : Prop :=
  ∃ evs, trace w' = trace w ++ evs
    ∧ ∀ id i, In (id, i) (reg s') →
        In (id, i) (reg s)
        ∨ (id = iid i ∧ ∃ ev, In ev evs ∧ created ev = Some i).

End Provenance.

Abbreviation from_h :=
  (entries_from registeredSyncHandlers h_id handler_created).
Abbreviation from_e :=
  (entries_from registeredSyncEmitters e_id emitter_created).

(** A world with a default handler for [selection] only. *)
Definition world_defaults : World :=
  mkWorld [("selection", mkEntry (Tuple ("selectionEmitter", 3))
                                 (Tuple ("extremesHandler", "selection", 7)))]
          0 [].

(** A configuration that relies on the defaults. *)
Definition default_config : JsObject.t OptionsEntry :=
  [("selection", mkEntry (Flag true) (Flag true))].

(** A configuration that asks for a default that does not exist. *)
Definition broken_config : JsObject.t OptionsEntry :=
  [("selection", mkEntry (Flag true) (Flag true));
   ("tooltip", mkEntry Absent (Flag true))].

End Sync.

(** ** EditToolbar *)

Module EditToolbar.

(** The two style properties of the container that the toolbar sets. *)
Record Style : Type := mkStyle {
  left : string;
  top : string
}.

(** The fields of an [EditToolbar] that [setPosition] reads and writes.
    Coordinates are pixel offsets, carried as integers. *)
Record EditToolbar : Type := mkToolbar {
  container : option Style;
  isVisible : bool
}.

(** Modelled from the spec: [defined] of Core/Utilities.js, which is not
    among the sources: a value is defined when it is present. *)
Definition defined {A : Type} (x : option A) : bool :=
  match x with
  | Some _ => true
  | None => false
  end.

(** The decimal form of an integer, as [String(n)] gives it for a whole
    number below [10^21] in absolute value; from there on [String(n)] is in
    exponent notation. *)
Definition number_to_string (n : Z) : string :=
  NilZero.string_of_int (Z.to_int n).

(** [(x || '-9999') + 'px']: an absent coordinate is falsy, and so is 0. *)
Definition px (x : option Z) : string :=
  match x with
  | Some n => if Z.eqb n 0 then "-9999px" else number_to_string n +:+ "px"
  | None => "-9999px"
  end.

(** [setPosition] *)
Definition setPosition (x y : option Z) (toolbar : EditToolbar)
  : EditToolbar :=
  mkToolbar
    (match container toolbar with
     | Some _ => Some (mkStyle (px x) (px y))
     | None => None
     end)
    (defined x && defined y).

(** [hide] *)
Definition hide (toolbar : EditToolbar) : EditToolbar :=
  setPosition None None toolbar.

(** The four class names of [EditGlobals.classNames] that the toolbar
    reads. *)
Record ClassNames : Type := mkClassNames {
  disabledNotEditedCells : string;
  disabledNotEditedRows : string;
  currentEditedCell : string;
  currentEditedRow : string
}.

(** An element, as far as the toolbar goes: its class list. *)
Abbreviation Element := (list string).

(** The elements of the document in tree order.  An element is referred to
    by its place in that order. *)
Abbreviation Document := (list Element).

(** [classList.contains] *)
Definition contains (c : string) (e : Element) : bool :=
  existsb (String.eqb c) e.

(** [classList.add]: a class that is there already is not added again. *)
Definition classList_add (c : string) (e : Element) : Element :=
  if contains c e then e else e ++ [c].

(** [classList.remove] *)
Definition classList_remove (c : string) (e : Element) : Element :=
  List.filter (λ c', negb (String.eqb c c')) e.

(** The elements that carry class [c], in tree order, the first element of
    [doc] being the [i]-th of the document. *)
Fixpoint elements_from (i : nat) (c : string) (doc : Document) : list nat :=
  match doc with
  | [] => []
  | e :: rest =>
      if contains c e then i :: elements_from (S i) c rest
      else elements_from (S i) c rest
  end.

(** [document.getElementsByClassName] *)
Definition getElementsByClassName (c : string) (doc : Document) : list nat :=
  elements_from 0 c doc.

(** One round of the loop of [resetCurrentElements]: the class is removed
    from [currentClass[0]] when the collection is not empty. *)
Definition reset_class (doc : Document) (c : string) : Document :=
  match getElementsByClassName c doc with
  | first :: _ => alter (classList_remove c) first doc
  | [] => doc
  end.

Definition classesToRemove (names : ClassNames) : list string :=
  [disabledNotEditedCells names; disabledNotEditedRows names;
   currentEditedCell names; currentEditedRow names].

(** [resetCurrentElements] *)
Definition resetCurrentElements (names : ClassNames) (doc : Document)
  : Document :=
  fold_left reset_class (classesToRemove names) doc.

(** What [maskNotEditedElements] reads of the [Cell] or [Row] it is given:
    its own container, and the container of the dashboard of its layout.
    Both are elements of the document. *)
Record Target : Type := mkTarget {
  target_container : nat;
  dashboard_container : nat
}.

(** [maskNotEditedElements]; an [isRow] left out is falsy. *)
Definition maskNotEditedElements (names : ClassNames) (element : Target)
    (isRow : option bool) (doc : Document) : Document :=
  let doc1 := resetCurrentElements names doc in
  let doc2 :=
    alter (classList_add (if default false isRow then currentEditedRow names
                          else currentEditedCell names))
          (target_container element) doc1 in
  if negb (default false isRow) then
    alter (classList_add (disabledNotEditedCells names))
          (dashboard_container element) doc2
  else
    alter (classList_add (disabledNotEditedRows names))
          (dashboard_container element) doc2.

(** Class names and a document with two dashboards, in each of which a cell
    is marked as the one being edited. *)
Definition names0 : ClassNames :=
  mkClassNames "cells-disabled" "rows-disabled" "current-cell" "current-row".

Definition two_dashboards : Document :=
  [["dashboard"; "cells-disabled"]; ["cell"; "current-cell"]; ["cell"];
   ["dashboard"; "cells-disabled"]; ["cell"; "current-cell"]].

End EditToolbar.

(** ** The capabilities of the mobile test *)

Module MobileCaps.

(** The fields of [caps] that are literals.  The four [browserstack.*]
    fields come from the environment; [patchMobileCaps] neither reads nor
    writes them. *)
Record Caps : Type := mkCaps {
  osVersion : string;
  deviceName : string;
  browserName : string;
  realMobile : string;
  name : string;
  build : string
}.

Definition caps : Caps :=
  mkCaps "12.0" "Samsung Galaxy S22" "chrome" "true"
         "My android playwright test" "playwright-build-1".

(** [s.split(c)] for a separator of one character. *)
Fixpoint split (c : ascii) (s : string) : list string :=
  match s with
  | EmptyString => [""]
  | String a s' =>
      if Ascii.eqb a c then "" :: split c s'
      else match split c s' with
           | piece :: pieces => String a piece :: pieces
           | [] => [String a ""]
           end
  end.

(** [s.split(sep)[0]]: the text before the first [sep], all of [s] when
    there is none. *)
Fixpoint before (sep s : string) : string :=
  if String.prefix sep s then ""
  else match s with
       | EmptyString => ""
       | String a s' => String a (before sep s')
       end.

(** Whether the character occurs in the string. *)
Fixpoint has (c : ascii) (s : string) : bool :=
  match s with
  | EmptyString => false
  | String a s' => Ascii.eqb a c || has c s'
  end.

(** A piece of a project name: free of the separators [@] and [:]. *)
Definition plain (s : string) : bool :=
  negb (has "@" s) && negb (has ":" s).

(** [patchMobileCaps]: the capabilities afterwards, [None] when it throws
    (a [split] called on [undefined]).  An empty string is falsy, as
    [undefined] is. *)
Definition patchMobileCaps (name title : string) (caps : Caps)
  : option Caps :=
  let combination := before "@browserstack" name in
  match split ":" combination with
  | [] => None
  | browerCaps :: rest =>
      let deviceName := split "@" browerCaps !! 1 in
      match rest with
      | [] => None
      | osCaps :: _ =>
          let osCapsSplit := split " " osCaps in
          let osVersion := String.concat " " (tail osCapsSplit) in
          Some (mkCaps
                  (if String.eqb osVersion "" then "12.0" else osVersion)
                  (match deviceName with
                   | Some d =>
                       if String.eqb d "" then "Samsung Galaxy S22 Ultra"
                       else d
                   | None => "Samsung Galaxy S22 Ultra"
                   end)
                  (browserName caps) "true" title (build caps))
      end
  end.

(** What a name gives when it is not empty, and the fallback otherwise. *)
Definition or_else (s fallback : string) : string :=
  if String.eqb s "" then fallback else s.

End MobileCaps.

(** * Properties *)

Module JsArrayFacts.
Import JsArray.

Lemma length_new_Array n : length (new_Array n) = n.
Proof. apply length_replicate. Qed.

Lemma at_index_new_Array n j : at_index (new_Array n) j = CUndefined.
Proof.
  unfold at_index, new_Array.
  destruct (replicate n CUndefined !! j) as [x|] eqn:E; [|done].
  by apply lookup_replicate_1 in E as [-> _].
Qed.

Lemma at_index_ge c j : length c ≤ j → at_index c j = CUndefined.
Proof. intros H. unfold at_index. by rewrite lookup_ge_None_2. Qed.

Lemma length_set_length n c : length (set_length n c) = n.
Proof.
  unfold set_length. rewrite length_app, length_take, length_replicate. lia.
Qed.

Lemma at_index_set_length n c j :
  j < n → at_index (set_length n c) j = at_index c j.
Proof.
  intros Hj. unfold at_index, set_length.
  destruct (decide (j < length c)) as [Hlt|Hge].
  - rewrite lookup_app_l by (rewrite length_take; lia).
    by rewrite lookup_take_lt.
  - rewrite lookup_app_r by (rewrite length_take; lia).
    rewrite length_take.
    rewrite lookup_replicate_2 by lia.
    by rewrite (lookup_ge_None_2 c j) by lia.
Qed.

Lemma set_length_idemp n c : set_length n (set_length n c) = set_length n c.
Proof.
  unfold set_length at 1. rewrite length_set_length, Nat.sub_diag. simpl.
  rewrite app_nil_r. apply take_ge. by rewrite length_set_length.
Qed.

Lemma set_length_same c : set_length (length c) c = c.
Proof.
  unfold set_length. rewrite Nat.sub_diag, firstn_all. apply app_nil_r.
Qed.

Lemma length_store i v c : length (store i v c) = Nat.max (length c) (i + 1).
Proof.
  unfold store. rewrite length_insert, length_app, length_replicate. lia.
Qed.

Lemma at_index_store_eq i v c : at_index (store i v c) i = v.
Proof.
  unfold at_index, store. rewrite list_lookup_insert_eq; [done|].
  rewrite length_app, length_replicate. lia.
Qed.

Lemma at_index_store_ne i v c j :
  j ≠ i → at_index (store i v c) j = at_index c j.
Proof.
  intros Hne. unfold at_index, store.
  rewrite list_lookup_insert_ne by done.
  destruct (decide (j < length c)) as [Hlt|Hge].
  - by rewrite lookup_app_l.
  - rewrite lookup_app_r by lia.
    rewrite (lookup_ge_None_2 c j) by lia.
    destruct (replicate _ _ !! _) as [x|] eqn:E; [|done].
    by apply lookup_replicate_1 in E as [-> _].
Qed.

Lemma length_splice_insert i v c :
  length (splice_insert i v c) = length c + 1.
Proof.
  unfold splice_insert. cbn zeta.
  rewrite length_app, length_take. simpl. rewrite length_drop. lia.
Qed.

Lemma at_index_splice_insert_lt i v c j :
  i ≤ length c → j < i → at_index (splice_insert i v c) j = at_index c j.
Proof.
  intros Hi Hj. unfold at_index, splice_insert. cbn zeta.
  rewrite Nat.min_l by done.
  rewrite lookup_app_l by (rewrite length_take; lia).
  by rewrite lookup_take_lt.
Qed.

Lemma at_index_splice_insert_eq i v c :
  i ≤ length c → at_index (splice_insert i v c) i = v.
Proof.
  intros Hi. unfold at_index, splice_insert. cbn zeta.
  rewrite Nat.min_l by done.
  rewrite lookup_app_r by (rewrite length_take; lia).
  rewrite length_take, Nat.min_l by done. by rewrite Nat.sub_diag.
Qed.

Lemma at_index_splice_insert_gt i v c j :
  i ≤ length c → i ≤ j →
  at_index (splice_insert i v c) (j + 1) = at_index c j.
Proof.
  intros Hi Hj. unfold at_index, splice_insert. cbn zeta.
  rewrite Nat.min_l by done.
  rewrite lookup_app_r by (rewrite length_take; lia).
  rewrite length_take, Nat.min_l by done.
  replace (j + 1 - i) with (S (j - i)) by lia. simpl.
  rewrite lookup_drop. by replace (i + (j - i)) with j by lia.
Qed.

(** With a start index past the end, [splice] appends. *)
Lemma splice_insert_past_end i v c :
  length c ≤ i → splice_insert i v c = c ++ [v].
Proof.
  intros Hi. unfold splice_insert. cbn zeta.
  rewrite Nat.min_r by done. by rewrite firstn_all, drop_all.
Qed.

End JsArrayFacts.

Module JsObjectFacts.
Import JsObject.

Section DictFacts.
Context {V : Type}.
Implicit Types (o : JsObject.t V) (k : string) (v : V) (e : string * V).

Lemma eqb_refl' k : String.eqb k k = true.
Proof. apply String.eqb_refl. Qed.

Lemma get_Some_In o k v : get o k = Some v → In (k, v) o.
Proof.
  induction o as [|[k' v'] o IH]; simpl; [done|].
  destruct (String.eqb_spec k k') as [->|Hne].
  - intros [= ->]. by left.
  - intros H. right. by apply IH.
Qed.

Lemma get_None_keys o k : get o k = None → ¬ In k (keys o).
Proof.
  induction o as [|[k' v'] o IH]; simpl; [tauto|].
  destruct (String.eqb_spec k k') as [->|Hne]; [done|].
  intros H [Heq|Hin]; [congruence|]. by apply IH.
Qed.

Lemma In_keys_get o k : In k (keys o) → is_Some (get o k).
Proof.
  intros Hin. destruct (get o k) eqn:E; [by eexists|].
  by apply get_None_keys in E.
Qed.

Lemma NoDup_In_get o k v : NoDup (keys o) → In (k, v) o → get o k = Some v.
Proof.
  induction o as [|[k' v'] o IH]; simpl; [done|].
  intros Hnd [Heq|Hin].
  - injection Heq as -> ->. by rewrite eqb_refl'.
  - apply NoDup_cons in Hnd as [Hk Hnd].
    destruct (String.eqb_spec k k') as [->|Hne].
    + exfalso. apply Hk. apply list_elem_of_In.
      change (In k' (map fst o)). apply in_map_iff. by exists (k', v).
    + by apply IH.
Qed.

(** The entries after an assignment, up to their order. *)
Lemma replace_In k v o e :
  In e (replace k v o) → e = (k, v) ∨ In e o.
Proof.
  induction o as [|[k' v'] o IH]; simpl; [tauto|].
  destruct (String.eqb k k'); simpl; intros [H|H]; auto.
  destruct (IH H); auto.
Qed.

Lemma add_index_Permutation n k v o : add_index n k v o ≡ₚ (k, v) :: o.
Proof.
  induction o as [|[k' v'] o IH]; simpl; [done|].
  destruct (array_index k') as [m|]; [|done].
  destruct (m <? n)%N; [|done].
  rewrite IH. apply Permutation_swap.
Qed.

Lemma add_Permutation k v o : add k v o ≡ₚ (k, v) :: o.
Proof.
  unfold add. destruct (array_index k).
  - apply add_index_Permutation.
  - symmetry. apply Permutation_cons_append.
Qed.

Lemma set_In k v o e : In e (set k v o) → e = (k, v) ∨ In e o.
Proof.
  unfold set. destruct (get o k).
  - apply replace_In.
  - intros H. apply list_elem_of_In in H. rewrite add_Permutation in H.
    apply list_elem_of_In in H. destruct H as [<-|H]; auto.
Qed.

Lemma get_replace_eq k v o : is_Some (get o k) → get (replace k v o) k = Some v.
Proof.
  induction o as [|[k' v'] o IH]; simpl; [by intros [? ?]|].
  destruct (String.eqb k k') eqn:E; simpl.
  - by rewrite eqb_refl'.
  - rewrite E. apply IH.
Qed.

Lemma get_replace_ne k v o k0 : k0 ≠ k → get (replace k v o) k0 = get o k0.
Proof.
  intros Hne. induction o as [|[k' v'] o IH]; simpl; [done|].
  destruct (String.eqb_spec k k') as [->|Hkk']; simpl.
  - by destruct (String.eqb_spec k0 k').
  - destruct (String.eqb k0 k'); [done|apply IH].
Qed.

Lemma get_add_index_eq n k v o :
  get o k = None → get (add_index n k v o) k = Some v.
Proof.
  induction o as [|[k' v'] o IH]; simpl.
  - by rewrite eqb_refl'.
  - destruct (String.eqb k k') eqn:E; [done|]. intros Hnone.
    destruct (array_index k') as [m|]; simpl.
    + destruct (m <? n)%N; simpl; [rewrite E; by apply IH|].
      by rewrite eqb_refl'.
    + by rewrite eqb_refl'.
Qed.

Lemma get_add_index_ne n k v o k0 :
  k0 ≠ k → get (add_index n k v o) k0 = get o k0.
Proof.
  intros Hne. induction o as [|[k' v'] o IH]; simpl.
  - by destruct (String.eqb_spec k0 k).
  - destruct (array_index k') as [m|]; simpl.
    + destruct (m <? n)%N; simpl.
      * destruct (String.eqb k0 k'); [done|apply IH].
      * by destruct (String.eqb_spec k0 k).
    + by destruct (String.eqb_spec k0 k).
Qed.

Lemma get_app o1 o2 k :
  get (o1 ++ o2) k = match get o1 k with Some v => Some v | None => get o2 k end.
Proof.
  induction o1 as [|[k' v'] o1 IH]; simpl; [done|].
  by destruct (String.eqb k k').
Qed.

Theorem get_set_eq k v o : get (set k v o) k = Some v.
Proof.
  unfold set. destruct (get o k) eqn:E.
  - apply get_replace_eq. by rewrite E.
  - unfold add. destruct (array_index k).
    + by apply get_add_index_eq.
    + rewrite get_app, E. simpl. by rewrite eqb_refl'.
Qed.

Theorem get_set_ne k v o k0 : k0 ≠ k → get (set k v o) k0 = get o k0.
Proof.
  intros Hne. unfold set. destruct (get o k) eqn:E.
  - by apply get_replace_ne.
  - unfold add. destruct (array_index k).
    + by apply get_add_index_ne.
    + rewrite get_app. destruct (get o k0); [done|]. simpl.
      by destruct (String.eqb_spec k0 k).
Qed.

(** Assigning to a property the value it already has changes nothing. *)
Lemma replace_same k v o : get o k = Some v → replace k v o = o.
Proof.
  induction o as [|[k' v'] o IH]; simpl; [done|].
  destruct (String.eqb_spec k k') as [->|Hne].
  - by intros [= ->].
  - intros H. by rewrite IH.
Qed.

Lemma set_same k v o : get o k = Some v → set k v o = o.
Proof. intros H. unfold set. rewrite H. by apply replace_same. Qed.

Lemma keys_replace k v o : keys (replace k v o) = keys o.
Proof.
  induction o as [|[k' v'] o IH]; simpl; [done|].
  destruct (String.eqb_spec k k') as [->|Hne]; simpl; [done|].
  by rewrite IH.
Qed.

Lemma set_new_Permutation k v o :
  get o k = None → set k v o ≡ₚ (k, v) :: o.
Proof. intros H. unfold set. rewrite H. apply add_Permutation. Qed.

Lemma keys_In o k v : In (k, v) o → In k (keys o).
Proof. intros H. apply in_map_iff. by exists (k, v). Qed.

Lemma NoDup_keys_set k v o : NoDup (keys o) → NoDup (keys (set k v o)).
Proof.
  intros Hnd. unfold set. destruct (get o k) eqn:E.
  - by rewrite keys_replace.
  - unfold keys. rewrite add_Permutation. simpl. apply NoDup_cons.
    split; [|done]. rewrite list_elem_of_In. by apply get_None_keys.
Qed.

(** An assignment under a name other than [__proto__] makes or replaces
    the property. *)
Lemma assign_set k v o : k ≠ "__proto__" → assign k v o = set k v o.
Proof.
  intros Hk. unfold assign, set. destruct (get o k); [done|].
  by destruct (String.eqb_spec k "__proto__").
Qed.

Lemma assign_proto v o :
  get o "__proto__" = None → assign "__proto__" v o = o.
Proof. intros H. unfold assign. by rewrite H. Qed.

Lemma NoDup_keys_assign k v o :
  NoDup (keys o) → NoDup (keys (assign k v o)).
Proof.
  intros H. unfold assign. pose proof (NoDup_keys_set k v o H) as Hset.
  unfold set in Hset. destruct (get o k); [done|].
  by destruct (String.eqb k "__proto__").
Qed.

Lemma inherited_proto : inherited "__proto__" = true.
Proof. done. Qed.

Lemma not_inherited_proto k : inherited k = false → k ≠ "__proto__".
Proof. by intros H ->. Qed.

End DictFacts.

End JsObjectFacts.

Module DataTableCoreFacts.
Import JsArray JsArrayFacts DataTableCore.

(** *** The store *)

Lemma alloc_fst c w : (alloc c w).1 = length (arrays w).
Proof. done. Qed.

Lemma length_arrays_alloc c w :
  length (arrays (alloc c w).2) = S (length (arrays w)).
Proof. simpl. rewrite length_app. simpl. lia. Qed.

Lemma deref_alloc_old c w l :
  l < length (arrays w) → deref (alloc c w).2 l = deref w l.
Proof. intros H. unfold deref. simpl. by rewrite lookup_app_l. Qed.

Lemma deref_alloc_new c w : deref (alloc c w).2 (alloc c w).1 = c.
Proof.
  unfold deref. simpl. rewrite lookup_app_r by done.
  by rewrite Nat.sub_diag.
Qed.

Lemma length_arrays_update l f w :
  length (arrays (update l f w)) = length (arrays w).
Proof. simpl. apply length_alter. Qed.

Lemma deref_update_eq l f w :
  l < length (arrays w) → deref (update l f w) l = f (deref w l).
Proof.
  intros H. unfold deref. simpl. rewrite list_lookup_alter_eq.
  apply lookup_lt_is_Some_2 in H as [c Hc]. by rewrite Hc.
Qed.

Lemma deref_update_ne l f w l' :
  l ≠ l' → deref (update l f w) l' = deref w l'.
Proof.
  intros H. unfold deref. simpl. by rewrite list_lookup_alter_ne.
Qed.

Lemma update_invalid l f w : length (arrays w) ≤ l → update l f w = w.
Proof.
  intros H. unfold update, with_arrays. destruct w as [a k e]. simpl in *.
  f_equal. apply list_eq. intros i. destruct (decide (l = i)) as [->|Hne].
  - rewrite list_lookup_alter_eq. by rewrite lookup_ge_None_2.
  - by rewrite list_lookup_alter_ne.
Qed.

Lemma deref_invalid w l : length (arrays w) ≤ l → deref w l = [].
Proof. intros H. unfold deref. by rewrite lookup_ge_None_2. Qed.

Lemma lookup_deref w l c : arrays w !! l = Some c → deref w l = c.
Proof. intros H. unfold deref. by rewrite H. Qed.

Lemma deref_lookup w l : l < length (arrays w) → arrays w !! l = Some (deref w l).
Proof.
  intros H. unfold deref. apply lookup_lt_is_Some_2 in H as [c Hc].
  by rewrite Hc.
Qed.

(** *** Well-formed tables *)

Lemma lengths_ok_valid t w : lengths_ok t w → refs_valid t w.
Proof.
  unfold lengths_ok, refs_valid. intros Hok.
  eapply Forall_impl; [exact Hok|]. intros l H. simpl in H.
  apply lookup_lt_is_Some. destruct (arrays w !! l); [by eexists|done].
Qed.

Lemma Forall_refs_set (P : ref → Prop) k v (o : JsObject.t ref) :
  P v → Forall P (map snd o) → Forall P (map snd (JsObject.set k v o)).
Proof.
  intros Hv Ho. apply List.Forall_forall. intros l Hin.
  apply in_map_iff in Hin as [[k' l'] [<- Hin]]. simpl.
  apply JsObjectFacts.set_In in Hin as [[= -> ->]|Hin]; [done|].
  rewrite List.Forall_forall in Ho. apply Ho.
  apply in_map_iff. by exists (k', l').
Qed.

Lemma getColumn_In_refs t name l :
  getColumn t name = Some l → In l (table_refs t).
Proof.
  intros H. apply JsObjectFacts.get_Some_In in H.
  apply in_map_iff. by exists (name, l).
Qed.

(** *** applyRowCount *)

Lemma applyRowCount_eq t n w :
  applyRowCount t n w = (with_rowCount n t, resize_all n (columns t) w).
Proof. done. Qed.

Lemma resize_all_frame n cols w :
  length (arrays (resize_all n cols w)) = length (arrays w)
  ∧ keyCounter (resize_all n cols w) = keyCounter w
  ∧ fired (resize_all n cols w) = fired w.
Proof.
  revert w. induction cols as [|[k l] cols IH]; intros w; simpl; [done|].
  destruct (IH (update l (set_length n) w)) as (-> & -> & ->).
  by rewrite length_arrays_update.
Qed.

Lemma resize_all_other n cols w l :
  ¬ In l (map snd cols) → deref (resize_all n cols w) l = deref w l.
Proof.
  revert w. induction cols as [|[k l0] cols IH]; intros w Hin; simpl; [done|].
  simpl in Hin. rewrite IH by tauto. apply deref_update_ne. tauto.
Qed.

Lemma resize_all_cases n cols w l :
  deref (resize_all n cols w) l = deref w l
  ∨ deref (resize_all n cols w) l = set_length n (deref w l).
Proof.
  revert w. induction cols as [|[k l0] cols IH]; intros w; simpl; [by left|].
  destruct (decide (l0 = l)) as [->|Hne].
  - destruct (decide (l < length (arrays w))) as [Hlt|Hge].
    + destruct (IH (update l (set_length n) w)) as [->| ->];
        rewrite deref_update_eq by done; [by right|].
      right. apply set_length_idemp.
    + rewrite update_invalid by lia. apply IH.
  - destruct (IH (update l0 (set_length n) w)) as [->| ->];
      rewrite deref_update_ne by done; auto.
Qed.

Lemma resize_all_member n cols w l :
  In l (map snd cols) → l < length (arrays w) →
  deref (resize_all n cols w) l = set_length n (deref w l).
Proof.
  revert w. induction cols as [|[k l0] cols IH]; intros w Hin Hlt; simpl;
    [done|].
  destruct (decide (l0 = l)) as [->|Hne].
  - destruct (resize_all_cases n cols (update l (set_length n) w) l)
      as [->| ->]; rewrite deref_update_eq by done; [done|].
    apply set_length_idemp.
  - destruct Hin as [Heq|Hin]; [done|].
    rewrite IH; [|done|by rewrite length_arrays_update].
    by rewrite deref_update_ne.
Qed.

Lemma resize_all_at_index n cols w l j :
  j < n → at_index (deref (resize_all n cols w) l) j = at_index (deref w l) j.
Proof.
  intros Hj. destruct (resize_all_cases n cols w l) as [->| ->]; [done|].
  by apply at_index_set_length.
Qed.

Lemma applyRowCount_lengths_ok t n w :
  refs_valid t w → lengths_ok (applyRowCount t n w).1 (applyRowCount t n w).2.
Proof.
  intros Hval. rewrite applyRowCount_eq. unfold lengths_ok. simpl.
  unfold refs_valid, table_refs in Hval.
  apply List.Forall_forall. intros l Hin.
  rewrite List.Forall_forall in Hval. specialize (Hval l Hin).
  rewrite deref_lookup
    by (by destruct (resize_all_frame n (columns t) w) as (-> & _)).
  simpl. f_equal. rewrite resize_all_member by done.
  apply length_set_length.
Qed.

(** *** notify *)

Lemma notify_frame type ed t w :
  columns (notify type ed t w).1 = columns t
  ∧ rowCount (notify type ed t w).1 = rowCount t
  ∧ arrays (notify type ed t w).2 = arrays w.
Proof. unfold notify. by destruct (is_silent ed). Qed.

Lemma notify_lengths_ok type ed t w :
  lengths_ok t w → lengths_ok (notify type ed t w).1 (notify type ed t w).2.
Proof.
  unfold lengths_ok, table_refs.
  by destruct (notify_frame type ed t w) as (-> & -> & ->).
Qed.

Lemma notify_deref type ed t w l :
  deref (notify type ed t w).2 l = deref w l.
Proof.
  unfold deref. by destruct (notify_frame type ed t w) as (_ & _ & ->).
Qed.

Lemma notify_cellAt type ed t w name j :
  cellAt (notify type ed t w).1 (notify type ed t w).2 name j
  = cellAt t w name j.
Proof.
  unfold cellAt, getColumn.
  destruct (notify_frame type ed t w) as (-> & _ & _).
  destruct (JsObject.get (columns t) name); [|done].
  by rewrite notify_deref.
Qed.

(** *** The copying loop of the constructor and of setColumns *)

Lemma constructor_fold_cols cols tcols rc w :
  let r := fold_left constructor_step cols (tcols, rc, w) in
  (r.1.1, r.2) = copy_columns cols (tcols, w).
Proof.
  revert tcols rc w. induction cols as [|[k l] cols IH]; intros; [done|].
  apply IH.
Qed.

Lemma setColumns_fold_cols cols tcols rc w :
  let r := fold_left setColumns_step cols (tcols, rc, w) in
  (r.1.1, r.2) = copy_columns cols (tcols, w).
Proof.
  revert tcols rc w. induction cols as [|[k l] cols IH]; intros; [done|].
  apply IH.
Qed.

Lemma copy_columns_cons k l cols tcols w :
  copy_columns ((k, l) :: cols) (tcols, w)
  = copy_columns cols (JsObject.set k (alloc (deref w l) w).1 tcols,
                       (alloc (deref w l) w).2).
Proof. done. Qed.

Lemma copy_columns_store cols tcols w :
  let r := copy_columns cols (tcols, w) in
  length (arrays r.2) = length (arrays w) + length cols
  ∧ keyCounter r.2 = keyCounter w
  ∧ fired r.2 = fired w
  ∧ ∀ l, l < length (arrays w) → deref r.2 l = deref w l.
Proof.
  revert tcols w. induction cols as [|[k l] cols IH]; intros tcols w.
  - simpl. split_and!; [lia|done..].
  - cbv zeta. rewrite copy_columns_cons.
    destruct (IH (JsObject.set k (alloc (deref w l) w).1 tcols)
                 (alloc (deref w l) w).2) as (-> & -> & -> & IH').
    rewrite length_arrays_alloc.
    split_and!; [simpl; lia|done..|]. intros l' Hl'.
    rewrite IH' by (rewrite length_arrays_alloc; lia).
    by apply deref_alloc_old.
Qed.

Lemma copy_columns_refs cols tcols w :
  let r := copy_columns cols (tcols, w) in
  Forall (λ l, In l (map snd tcols)
               ∨ length (arrays w) ≤ l < length (arrays r.2))
         (map snd r.1).
Proof.
  revert tcols w. induction cols as [|[k l] cols IH]; intros tcols w.
  - simpl. apply List.Forall_forall. auto.
  - cbv zeta. rewrite copy_columns_cons.
    pose proof (copy_columns_store cols
                  (JsObject.set k (alloc (deref w l) w).1 tcols)
                  (alloc (deref w l) w).2) as (Hlen & _).
    rewrite length_arrays_alloc in Hlen.
    eapply Forall_impl; [apply IH|]. cbv beta.
    rewrite length_arrays_alloc.
    intros l' [Hin|Hfresh]; [|right; lia].
    apply in_map_iff in Hin as [[k' l''] [<- Hin]].
    apply JsObjectFacts.set_In in Hin as [[= -> ->]|Hin].
    + right. rewrite Hlen. cbn [snd]. lia.
    + left. apply in_map_iff. by exists (k', l'').
Qed.

Lemma copy_columns_valid cols tcols w :
  let r := copy_columns cols (tcols, w) in
  Forall (λ l, l < length (arrays w)) (map snd tcols) →
  Forall (λ l, l < length (arrays r.2)) (map snd r.1).
Proof.
  intros r Hval.
  pose proof (copy_columns_store cols tcols w) as (Hlen & _).
  eapply Forall_impl; [apply copy_columns_refs|]. simpl.
  rewrite List.Forall_forall in Hval. fold r in Hlen |- *.
  intros l [Hin|Hfresh]; [|lia]. apply Hval in Hin. lia.
Qed.

(** *** Column lengths after construction and after setColumns *)

Lemma constructor_eq options w :
  constructor options w =
  let autoId := negb (bool_decide (is_Some (truthy_id (opt_id options)))) in
  let idw :=
    match truthy_id (opt_id options) with
    | Some s => (GivenId s, w)
    | None => (GeneratedId (keyCounter w), (uniqueKey w).2)
    end in
  let w2 := (uniqueKey idw.2).2 in
  let r := fold_left constructor_step (default [] (opt_columns options))
                     ([], 0, w2) in
  applyRowCount (mkTable autoId r.1.1 idw.1 0 (keyCounter idw.2)) r.1.2 r.2.
Proof.
  unfold constructor.
  destruct (truthy_id (opt_id options)); simpl;
    by destruct (fold_left _ _ _) as [[? ?] ?].
Qed.

Lemma setColumns_eq t cols ri ed w :
  setColumns t cols ri ed w =
  let r := fold_left setColumns_step cols (columns t, rowCount t, w) in
  let a := applyRowCount (with_columns r.1.1 t) r.1.2 r.2 in
  notify "afterSetColumns" ed a.1 a.2.
Proof.
  unfold setColumns. by destruct (fold_left _ _ _) as [[? ?] ?].
Qed.

Lemma constructor_lengths_ok options w :
  lengths_ok (constructor options w).1 (constructor options w).2.
Proof.
  rewrite constructor_eq. cbv zeta.
  set (w2 := (uniqueKey _).2).
  set (r := fold_left _ _ _).
  apply applyRowCount_lengths_ok. unfold refs_valid, table_refs. simpl.
  pose proof (constructor_fold_cols (default [] (opt_columns options))
                [] 0 w2) as Heq.
  cbv zeta in Heq. fold r in Heq.
  pose proof (copy_columns_valid (default [] (opt_columns options)) [] w2)
    as Hval.
  cbv zeta in Hval. rewrite <- Heq in Hval. simpl in Hval.
  apply Hval. constructor.
Qed.

Lemma setColumns_lengths_ok t cols ri ed w :
  refs_valid t w →
  lengths_ok (setColumns t cols ri ed w).1 (setColumns t cols ri ed w).2.
Proof.
  intros Hval. rewrite setColumns_eq. cbv zeta.
  set (r := fold_left _ _ _).
  apply notify_lengths_ok, applyRowCount_lengths_ok.
  unfold refs_valid, table_refs. simpl.
  pose proof (setColumns_fold_cols cols (columns t) (rowCount t) w) as Heq.
  cbv zeta in Heq. fold r in Heq.
  pose proof (copy_columns_valid cols (columns t) w) as Hv.
  cbv zeta in Hv. rewrite <- Heq in Hv. simpl in Hv. by apply Hv.
Qed.

Lemma setColumn_lengths_ok t name column ri ed w :
  refs_valid t w →
  lengths_ok (setColumn t name column ri ed w).1
             (setColumn t name column ri ed w).2.
Proof.
  intros Hval. unfold setColumn. destruct column as [c|].
  - by apply setColumns_lengths_ok.
  - apply setColumns_lengths_ok. unfold refs_valid in *.
    eapply Forall_impl; [exact Hval|]. simpl. intros l Hl.
    rewrite length_app. simpl. lia.
Qed.

(** *** The loop of setRow *)

Lemma setRow_write_existing i n ins cols w k v l :
  JsObject.get cols k = Some l →
  setRow_write i n ins (cols, w) (k, v)
  = (cols, update l (cell_write i ins v) w).
Proof.
  intros H. unfold setRow_write, cell_write. rewrite H.
  rewrite JsObjectFacts.set_same by done. by destruct ins.
Qed.

Lemma setRow_write_new i n ins cols w k v :
  JsObject.get cols k = None →
  setRow_write i n ins (cols, w) (k, v)
  = (JsObject.set k (length (arrays w)) cols,
     update (length (arrays w)) (cell_write i ins v)
            (alloc (new_Array n) w).2).
Proof.
  intros H. unfold setRow_write, cell_write. rewrite H. by destruct ins.
Qed.

Lemma row_loop_cons i n ins k v row cols w :
  row_loop i n ins ((k, v) :: row) (cols, w)
  = row_loop i n ins row (setRow_write i n ins (cols, w) (k, v)).
Proof. done. Qed.

(** *** When setRow throws *)

Lemma member_get {V} (o : JsObject.t V) k :
  JsObject.member o k
  = match JsObject.get o k with
    | Some v => JsObject.Own v
    | None =>
        if JsObject.inherited k then JsObject.Inherited
        else JsObject.Undefined
    end.
Proof. done. Qed.

Lemma setRow_step_thrown i n ins row cols w :
  fold_left (setRow_step i n ins) row (cols, w, TypeError)
  = (cols, w, TypeError).
Proof. induction row as [|[k v] row IH]; [done|]. simpl. apply IH. Qed.

(** A round in which [splice] is there to call, or is not called, does what
    [setRow_write] does. *)
Lemma setRow_step_write i n ins cols w k v :
  (ins = true → JsObject.inherited k = true → is_Some (JsObject.get cols k)) →
  setRow_step i n ins (cols, w, Normal) (k, v)
  = (setRow_write i n ins (cols, w) (k, v), Normal).
Proof.
  intros Hk. unfold setRow_step, setRow_write, cell_write.
  rewrite member_get.
  destruct (JsObject.get cols k) as [l|] eqn:Hget.
  - by destruct ins.
  - destruct (JsObject.inherited k) eqn:Hinh; [|by destruct ins].
    destruct ins; [|done]. destruct (Hk eq_refl eq_refl) as [? [=]].
Qed.

(** A round that inserts under a name that the table only inherits
    throws. *)
Lemma setRow_step_throw i n cols w k v :
  JsObject.inherited k = true → JsObject.get cols k = None →
  setRow_step i n true (cols, w, Normal) (k, v) = (cols, w, TypeError).
Proof.
  intros Hinh Hget. unfold setRow_step. by rewrite member_get, Hget, Hinh.
Qed.

Lemma get_setRow_write_None i n ins cols w k v k' :
  JsObject.get (setRow_write i n ins (cols, w) (k, v)).1 k' = None
  ↔ k' ≠ k ∧ JsObject.get cols k' = None.
Proof.
  unfold setRow_write.
  destruct (match JsObject.get cols k with
            | Some column => (column, w)
            | None => alloc (new_Array n) w
            end) as [column w'].
  cbn [fst]. destruct (decide (k' = k)) as [->|Hne].
  - rewrite JsObjectFacts.get_set_eq. split; [done|]. by intros [? _].
  - rewrite JsObjectFacts.get_set_ne by done. tauto.
Qed.

(** The loop of [setRow] throws exactly when it inserts and the row object
    has a key that objects inherit and that is no column; otherwise it is
    [row_loop]. *)
Lemma setRow_loop_cases i n ins row :
  ∀ cols w,
  let r := fold_left (setRow_step i n ins) row (cols, w, Normal) in
  (r.2 = TypeError
   ↔ ins = true
     ∧ ∃ k, In k (JsObject.keys row) ∧ JsObject.inherited k = true
            ∧ JsObject.get cols k = None)
  ∧ (r.2 = Normal → r.1 = row_loop i n ins row (cols, w)).
Proof.
  induction row as [|[k v] row IH]; intros cols w; cbv zeta.
  { simpl. split; [|done]. split; [done|]. by intros (_ & k & [] & _). }
  change (fold_left (setRow_step i n ins) ((k, v) :: row) (cols, w, Normal))
    with (fold_left (setRow_step i n ins) row
            (setRow_step i n ins (cols, w, Normal) (k, v))).
  destruct (decide (ins = true ∧ JsObject.inherited k = true
                    ∧ JsObject.get cols k = None)) as [(-> & Hinh & Hget)|Hno].
  - rewrite setRow_step_throw, setRow_step_thrown by done. cbn [fst snd].
    split; [|done]. split; [|done]. intros _. split; [done|].
    exists k. split_and!; [by left|done..].
  - rewrite setRow_step_write.
    2:{ intros Hins Hinh. destruct (JsObject.get cols k); [by eexists|].
        destruct Hno. done. }
    destruct (setRow_write i n ins (cols, w) (k, v)) as [cols1 w1] eqn:Hstep.
    destruct (IH cols1 w1) as [Hthrow Hnormal]. cbv zeta in Hthrow, Hnormal.
    split.
    + rewrite Hthrow. split.
      * intros (Hins & k' & Hin & Hinh & Hget). split; [done|].
        assert (cols1 = (setRow_write i n ins (cols, w) (k, v)).1) as Hc
          by (by rewrite Hstep).
        rewrite Hc in Hget. apply get_setRow_write_None in Hget as [_ Hget].
        exists k'. split_and!; [by right|done..].
      * intros (Hins & k' & Hin & Hinh & Hget). split; [done|].
        assert (k' ≠ k) as Hne by (intros ->; by destruct Hno).
        exists k'. split_and!; [|done|].
        -- destruct Hin as [Heq|Hin]; [|done]. simpl in Heq. congruence.
        -- assert (cols1 = (setRow_write i n ins (cols, w) (k, v)).1) as ->
             by (by rewrite Hstep).
           by apply get_setRow_write_None.
    + intros Hn. rewrite (Hnormal Hn). rewrite row_loop_cons.
      by rewrite Hstep.
Qed.

(** A [setRow] that does not insert, and one whose row object has no key
    that objects inherit, runs [row_loop] and ends normally. *)
Lemma setRow_loop_normal i n ins row cols w :
  ins = false ∨ insertable row →
  fold_left (setRow_step i n ins) row (cols, w, Normal)
  = (row_loop i n ins row (cols, w), Normal).
Proof.
  intros Hok.
  destruct (setRow_loop_cases i n ins row cols w) as [Hthrow Hnormal].
  cbv zeta in Hthrow, Hnormal.
  destruct (fold_left _ _ _) as [r [|]] eqn:Hr; cbn [fst snd] in *.
  - by rewrite Hnormal.
  - destruct (proj1 Hthrow eq_refl) as (Hins & k & Hin & Hinh & _).
    destruct Hok as [?|Hall]; [congruence|].
    unfold insertable in Hall. rewrite List.Forall_forall in Hall.
    rewrite (Hall k Hin) in Hinh. done.
Qed.

(** However the loop ends, what it has done is [row_loop] on the entries
    before the one that threw. *)
Lemma setRow_loop_prefix i n ins row :
  ∀ cols w, ∃ row',
    (fold_left (setRow_step i n ins) row (cols, w, Normal)).1
    = row_loop i n ins row' (cols, w).
Proof.
  induction row as [|[k v] row IH]; intros cols w; [by exists []|].
  change (fold_left (setRow_step i n ins) ((k, v) :: row) (cols, w, Normal))
    with (fold_left (setRow_step i n ins) row
            (setRow_step i n ins (cols, w, Normal) (k, v))).
  destruct (decide (ins = true ∧ JsObject.inherited k = true
                    ∧ JsObject.get cols k = None)) as [(-> & Hinh & Hget)|Hno].
  - rewrite setRow_step_throw, setRow_step_thrown by done. by exists [].
  - rewrite setRow_step_write.
    2:{ intros Hins Hinh. destruct (JsObject.get cols k); [by eexists|].
        destruct Hno. done. }
    destruct (setRow_write i n ins (cols, w) (k, v)) as [cols1 w1] eqn:Hstep.
    destruct (IH cols1 w1) as [row' Hrow']. exists ((k, v) :: row').
    by rewrite row_loop_cons, Hstep.
Qed.

(** [setRow], whether it throws or not, in terms of [row_loop]. *)
Lemma setRow_prefix t row ri ins ed w :
  let rowIndex := default (rowCount t) ri in
  let insert := default false ins in
  let indexRowCount := if insert then rowCount t + 1 else rowIndex + 1 in
  ∃ row',
    let r := row_loop rowIndex indexRowCount insert row' (columns t, w) in
    setRow t row ri ins ed w = (with_columns r.1 t, r.2)
    ∨ setRow t row ri ins ed w
      = (let a := if rowCount t <? indexRowCount
                  then applyRowCount (with_columns r.1 t) indexRowCount r.2
                  else (with_columns r.1 t, r.2) in
         notify "afterSetRows" ed a.1 a.2).
Proof.
  cbv zeta. unfold setRow, setRow_run. cbv zeta.
  set (i := default (rowCount t) ri). set (insert := default false ins).
  set (n := if insert then rowCount t + 1 else i + 1).
  destruct (setRow_loop_prefix i n insert row (columns t) w) as [row' Hrow'].
  exists row'. rewrite <- Hrow'.
  destruct (fold_left _ _ _) as [[cols w1] [|]]; cbn [fst snd]; [right|by left].
  by destruct (rowCount t <? n).
Qed.

Lemma setRow_run_eq t row ri ins ed w :
  default false ins = false ∨ insertable row →
  setRow_run t row ri ins ed w =
  (let rowIndex := default (rowCount t) ri in
   let insert := default false ins in
   let indexRowCount := if insert then rowCount t + 1 else rowIndex + 1 in
   let r := row_loop rowIndex indexRowCount insert row (columns t, w) in
   let a := if rowCount t <? indexRowCount
            then applyRowCount (with_columns r.1 t) indexRowCount r.2
            else (with_columns r.1 t, r.2) in
   notify "afterSetRows" ed a.1 a.2, Normal).
Proof.
  intros Hok. unfold setRow_run. cbv zeta.
  rewrite setRow_loop_normal by done.
  destruct (row_loop _ _ _ _ _) as [cols w1]. cbn [fst snd].
  by destruct (rowCount t <? _).
Qed.

Lemma setRow_eq t row ri ins ed w :
  default false ins = false ∨ insertable row →
  setRow t row ri ins ed w =
  let rowIndex := default (rowCount t) ri in
  let insert := default false ins in
  let indexRowCount := if insert then rowCount t + 1 else rowIndex + 1 in
  let r := row_loop rowIndex indexRowCount insert row (columns t, w) in
  let a := if rowCount t <? indexRowCount
           then applyRowCount (with_columns r.1 t) indexRowCount r.2
           else (with_columns r.1 t, r.2) in
  notify "afterSetRows" ed a.1 a.2.
Proof. intros Hok. unfold setRow. by rewrite setRow_run_eq. Qed.

(** [setRow] throws exactly when it inserts and the row object has a key
    that objects inherit and that is no column of the table. *)
Lemma setRow_completion_cases t row ri ins ed w :
  setRow_completion t row ri ins ed w = TypeError
  ↔ default false ins = true
    ∧ ∃ k, In k (JsObject.keys row) ∧ JsObject.inherited k = true
           ∧ getColumn t k = None.
Proof.
  unfold setRow_completion, setRow_run, getColumn. cbv zeta.
  set (i := default (rowCount t) ri). set (insert := default false ins).
  set (n := if insert then rowCount t + 1 else i + 1).
  destruct (setRow_loop_cases i n insert row (columns t) w) as [Hthrow _].
  cbv zeta in Hthrow. rewrite <- Hthrow.
  destruct (fold_left _ _ _) as [[cols w1] [|]]; cbn [fst snd]; [|done].
  destruct (rowCount t <? n); [destruct (applyRowCount _ _ _)|]; done.
Qed.

(** A [setRow] that ends normally has run [row_loop]. *)
Lemma setRow_normal_eq t row ri ins ed w :
  setRow_completion t row ri ins ed w = Normal →
  setRow t row ri ins ed w =
  let rowIndex := default (rowCount t) ri in
  let insert := default false ins in
  let indexRowCount := if insert then rowCount t + 1 else rowIndex + 1 in
  let r := row_loop rowIndex indexRowCount insert row (columns t, w) in
  let a := if rowCount t <? indexRowCount
           then applyRowCount (with_columns r.1 t) indexRowCount r.2
           else (with_columns r.1 t, r.2) in
  notify "afterSetRows" ed a.1 a.2.
Proof.
  unfold setRow_completion, setRow, setRow_run. cbv zeta.
  set (i := default (rowCount t) ri). set (insert := default false ins).
  set (n := if insert then rowCount t + 1 else i + 1).
  destruct (setRow_loop_cases i n insert row (columns t) w) as [_ Hnormal].
  cbv zeta in Hnormal.
  destruct (fold_left _ _ _) as [[cols w1] [|]]; cbn [fst snd] in *;
    [|done].
  intros _. rewrite <- (Hnormal eq_refl). cbn [fst snd].
  by destruct (rowCount t <? n).
Qed.

(** What a [setRow] that throws leaves behind: the row count, the version
    tag, the counter of [uniqueKey] and the events are as before. *)
Lemma setRow_run_thrown t row ri ins ed w :
  (setRow_run t row ri ins ed w).2 = TypeError →
  let r := (setRow_run t row ri ins ed w).1 in
  rowCount r.1 = rowCount t ∧ versionTag r.1 = versionTag t
  ∧ keyCounter r.2 = keyCounter w ∧ fired r.2 = fired w.
Proof.
  unfold setRow_run. cbv zeta.
  set (i := default (rowCount t) ri). set (insert := default false ins).
  set (n := if insert then rowCount t + 1 else i + 1).
  assert (∀ row cols w0 c,
            keyCounter (fold_left (setRow_step i n insert) row
                                  (cols, w0, c)).1.2 = keyCounter w0
            ∧ fired (fold_left (setRow_step i n insert) row
                               (cols, w0, c)).1.2 = fired w0) as Hframe.
  { clear. induction row as [|[k v] row IH]; intros cols w0 c; [done|].
    change (fold_left (setRow_step i n insert) ((k, v) :: row) (cols, w0, c))
      with (fold_left (setRow_step i n insert) row
              (setRow_step i n insert (cols, w0, c) (k, v))).
    destruct (setRow_step i n insert (cols, w0, c) (k, v))
      as [[cols1 w1] c1] eqn:Hstep.
    destruct (IH cols1 w1 c1) as [-> ->].
    unfold setRow_step in Hstep. destruct c; [|by injection Hstep as <- <- <-].
    destruct (JsObject.member cols k) as [l| |];
      destruct insert; injection Hstep as <- <- <-; done. }
  specialize (Hframe row (columns t) w Normal).
  destruct (fold_left _ _ _) as [[cols w1] [|]]; [|done].
  destruct (rowCount t <? n); [destruct (applyRowCount _ _ _)|];
    by intros [=].
Qed.

Lemma valid_get (cols : JsObject.t ref) w name l :
  Forall (λ l, l < length (arrays w)) (map snd cols) →
  JsObject.get cols name = Some l → l < length (arrays w).
Proof.
  intros Hval Hget. rewrite List.Forall_forall in Hval. apply Hval.
  apply JsObjectFacts.get_Some_In in Hget. apply in_map_iff. by exists (name, l).
Qed.

Lemma row_loop_store i n ins row cols w :
  let r := row_loop i n ins row (cols, w) in
  length (arrays w) ≤ length (arrays r.2)
  ∧ keyCounter r.2 = keyCounter w
  ∧ fired r.2 = fired w.
Proof.
  revert cols w. induction row as [|[k v] row IH]; intros cols w; [done|].
  cbv zeta. rewrite row_loop_cons.
  destruct (JsObject.get cols k) as [l|] eqn:E.
  - rewrite (setRow_write_existing _ _ _ _ _ _ _ l) by done.
    destruct (IH cols (update l (cell_write i ins v) w)) as (H & -> & ->).
    by rewrite length_arrays_update in H.
  - rewrite setRow_write_new by done.
    match goal with |- context [row_loop _ _ _ _ (?c, ?w1)] =>
      destruct (IH c w1) as (H & -> & ->) end.
    rewrite length_arrays_update, length_arrays_alloc in H.
    split_and!; [lia|done..].
Qed.

Lemma row_loop_valid i n ins row cols w :
  let r := row_loop i n ins row (cols, w) in
  Forall (λ l, l < length (arrays w)) (map snd cols) →
  Forall (λ l, l < length (arrays r.2)) (map snd r.1).
Proof.
  revert cols w. induction row as [|[k v] row IH]; intros cols w; [done|].
  cbv zeta. rewrite row_loop_cons. intros Hval.
  destruct (JsObject.get cols k) as [l|] eqn:E.
  - rewrite (setRow_write_existing _ _ _ _ _ _ _ l) by done.
    apply IH. by rewrite length_arrays_update.
  - rewrite setRow_write_new by done.
    apply IH. rewrite length_arrays_update, length_arrays_alloc.
    apply Forall_refs_set; [lia|].
    eapply Forall_impl; [exact Hval|]. simpl. lia.
Qed.

(** A column that exists before the loop is the same array after it. *)
Lemma row_loop_get_existing i n ins row cols w name l :
  JsObject.get cols name = Some l →
  JsObject.get (row_loop i n ins row (cols, w)).1 name = Some l.
Proof.
  revert cols w. induction row as [|[k v] row IH]; intros cols w Hget;
    [done|].
  rewrite row_loop_cons.
  destruct (JsObject.get cols k) as [l0|] eqn:E.
  - rewrite (setRow_write_existing _ _ _ _ _ _ _ l0) by done. by apply IH.
  - rewrite setRow_write_new by done. apply IH.
    rewrite JsObjectFacts.get_set_ne; [done|]. congruence.
Qed.

(** Without [insert], the loop writes at row [i] only. *)
Lemma row_loop_store_other_rows i n row cols w l j :
  Forall (λ l, l < length (arrays w)) (map snd cols) →
  l < length (arrays w) → j ≠ i →
  at_index (deref (row_loop i n false row (cols, w)).2 l) j
  = at_index (deref w l) j.
Proof.
  revert cols w. induction row as [|[k v] row IH]; intros cols w Hval Hl Hj;
    [done|].
  rewrite row_loop_cons.
  destruct (JsObject.get cols k) as [l0|] eqn:E.
  - rewrite (setRow_write_existing _ _ _ _ _ _ _ l0) by done.
    rewrite IH by (rewrite ?length_arrays_update; done).
    destruct (decide (l0 = l)) as [->|Hne].
    + rewrite deref_update_eq by done. by apply at_index_store_ne.
    + by rewrite deref_update_ne.
  - rewrite setRow_write_new by done.
    rewrite IH; [| |rewrite length_arrays_update, length_arrays_alloc; lia
                 |done].
    + rewrite deref_update_ne by lia. by rewrite deref_alloc_old.
    + rewrite length_arrays_update, length_arrays_alloc.
      apply Forall_refs_set; [lia|].
      eapply Forall_impl; [exact Hval|]. simpl. lia.
Qed.

Lemma lengths_valid rc (refs : list ref) w :
  Forall (λ l, length <$> arrays w !! l = Some rc) refs →
  Forall (λ l, l < length (arrays w)) refs.
Proof.
  intros H. eapply Forall_impl; [exact H|]. simpl. intros l Hl.
  apply lookup_lt_is_Some. destruct (arrays w !! l); [by eexists|done].
Qed.

Lemma lengths_update rc (refs : list ref) l f w :
  Forall (λ l', length <$> arrays w !! l' = Some rc) refs →
  (∀ c, length c = rc → length (f c) = rc) →
  Forall (λ l', length <$> arrays (update l f w) !! l' = Some rc) refs.
Proof.
  intros H Hf. eapply Forall_impl; [exact H|]. simpl. intros l' Hl'.
  destruct (decide (l = l')) as [->|Hne].
  - rewrite list_lookup_alter_eq.
    destruct (arrays w !! l') as [c|]; [|done]. simpl in *.
    f_equal. apply Hf. congruence.
  - by rewrite list_lookup_alter_ne.
Qed.

Lemma lengths_alloc rc (refs : list ref) c w :
  Forall (λ l', length <$> arrays w !! l' = Some rc) refs →
  Forall (λ l', length <$> arrays (alloc c w).2 !! l' = Some rc) refs.
Proof.
  intros H. pose proof (lengths_valid _ _ _ H) as Hval.
  rewrite List.Forall_forall in H, Hval. apply List.Forall_forall.
  intros l Hin. simpl. rewrite lookup_app_l by auto. auto.
Qed.

(** Without [insert] and within the row count, the columns keep their
    length, provided that a column made on the way is as long as the
    table. *)
Lemma row_loop_overwrite_lengths rc i row cols w :
  i < rc →
  Forall (λ l, length <$> arrays w !! l = Some rc) (map snd cols) →
  (i + 1 = rc
   ∨ Forall (λ k, is_Some (JsObject.get cols k)) (JsObject.keys row)) →
  let r := row_loop i (i + 1) false row (cols, w) in
  Forall (λ l, length <$> arrays r.2 !! l = Some rc) (map snd r.1).
Proof.
  intros Hi. revert cols w.
  induction row as [|[k v] row IH]; intros cols w Hlen Hcase; [done|].
  cbv zeta. rewrite row_loop_cons.
  destruct (JsObject.get cols k) as [l0|] eqn:E.
  - rewrite (setRow_write_existing _ _ _ _ _ _ _ l0) by done.
    apply IH.
    + apply lengths_update; [done|]. intros c Hc. unfold cell_write.
      rewrite length_store. lia.
    + destruct Hcase as [Heq|Hall]; [by left|right].
      simpl in Hall. by apply Forall_cons in Hall as [_ Hall].
  - assert (i + 1 = rc) as Heq.
    { destruct Hcase as [Heq|Hall]; [done|]. simpl in Hall.
      apply Forall_cons in Hall as [[x Hx] _]. congruence. }
    rewrite setRow_write_new by done. apply IH; [|by left].
    pose proof (lengths_valid _ _ _ Hlen) as Hval.
    apply Forall_refs_set.
    + simpl. rewrite list_lookup_alter_eq, lookup_app_r by done.
      rewrite Nat.sub_diag. simpl. f_equal. unfold cell_write.
      rewrite length_store, length_new_Array. lia.
    + apply lengths_update.
      * by apply lengths_alloc.
      * intros c Hc. unfold cell_write. rewrite length_store. lia.
Qed.

Lemma NoDup_refs_get_inj (cols : JsObject.t ref) a b l :
  NoDup (map snd cols) →
  JsObject.get cols a = Some l → JsObject.get cols b = Some l → a = b.
Proof.
  intros Hnd Ha Hb.
  apply JsObjectFacts.get_Some_In in Ha, Hb. revert Hnd Ha Hb.
  induction cols as [|[k l'] cols IH]; simpl; [done|].
  intros Hnd. apply NoDup_cons in Hnd as [Hnotin Hnd].
  assert (∀ x, In (x, l) cols → l' ≠ l) as Hfresh.
  { intros x Hx ->. apply Hnotin. apply list_elem_of_In.
    apply in_map_iff. by exists (x, l). }
  intros [Ha|Ha] [Hb|Hb].
  - congruence.
  - injection Ha as -> ->. by destruct (Hfresh _ Hb).
  - injection Hb as -> ->. by destruct (Hfresh _ Ha).
  - by apply IH.
Qed.

Lemma NoDup_refs_set_new (cols : JsObject.t ref) k l :
  JsObject.get cols k = None → ¬ In l (map snd cols) →
  NoDup (map snd cols) → NoDup (map snd (JsObject.set k l cols)).
Proof.
  intros Hnone Hfresh Hnd.
  rewrite (JsObjectFacts.set_new_Permutation k l cols Hnone). simpl.
  apply NoDup_cons. split; [|done]. by rewrite list_elem_of_In.
Qed.

(** The loop of [setRow] on a row object with distinct keys and a table
    whose columns are distinct arrays: each named column is written once,
    a column of another name and an array of no named column are left as
    they are. *)
Lemma row_loop_spec i n ins row :
  ∀ cols w,
  NoDup (JsObject.keys row) →
  NoDup (map snd cols) →
  Forall (λ l, l < length (arrays w)) (map snd cols) →
  let r := row_loop i n ins row (cols, w) in
  NoDup (map snd r.1)
  ∧ (∀ name, ¬ In name (JsObject.keys row) →
       JsObject.get r.1 name = JsObject.get cols name)
  ∧ (∀ l, l < length (arrays w) →
       (∀ name, In name (JsObject.keys row) →
          JsObject.get cols name ≠ Some l) →
       deref r.2 l = deref w l)
  ∧ (∀ name v, In (name, v) row →
       ∃ l, JsObject.get r.1 name = Some l
            ∧ l < length (arrays r.2)
            ∧ match JsObject.get cols name with
              | Some l0 =>
                  l = l0 ∧ deref r.2 l = cell_write i ins v (deref w l0)
              | None =>
                  length (arrays w) ≤ l
                  ∧ deref r.2 l = cell_write i ins v (new_Array n)
              end).
Proof.
  induction row as [|[k v0] row IH]; intros cols w Hkeys Hnd Hval.
  { simpl. split_and!; [done..|]. intros ? ? []. }
  cbv zeta. rewrite row_loop_cons.
  simpl in Hkeys. apply NoDup_cons in Hkeys as [Hk Hkeys].
  rewrite list_elem_of_In in Hk.
  destruct (JsObject.get cols k) as [l0|] eqn:E.
  - (* the column exists *)
    rewrite (setRow_write_existing _ _ _ _ _ _ _ l0) by done.
    pose proof (valid_get _ _ _ _ Hval E) as Hl0.
    set (w1 := update l0 (cell_write i ins v0) w).
    assert (Forall (λ l, l < length (arrays w1)) (map snd cols)) as Hval1
      by (by unfold w1; rewrite length_arrays_update).
    destruct (IH cols w1 Hkeys Hnd Hval1) as (Hnd' & Hother & Hframe & Hnamed).
    pose proof (row_loop_store i n ins row cols w1) as (Hmono & _).
    unfold w1 in Hmono at 1. rewrite length_arrays_update in Hmono.
    split_and!; [done|..].
    + intros name Hname. apply Hother. simpl in Hname. tauto.
    + intros l Hl Hfree.
      rewrite Hframe.
      * unfold w1. apply deref_update_ne. intros ->.
        apply (Hfree k); [by left|done].
      * by unfold w1; rewrite length_arrays_update.
      * intros name Hname. apply Hfree. by right.
    + intros name v [Heq|Hin]; [injection Heq as <- <-|].
      * exists l0. rewrite Hother by done. rewrite E.
        split_and!; [done|lia|done|].
        rewrite Hframe.
        -- unfold w1. by rewrite deref_update_eq.
        -- by unfold w1; rewrite length_arrays_update.
        -- intros name Hname Hget.
           rewrite (NoDup_refs_get_inj cols name k l0) in Hname; done.
      * destruct (Hnamed name v Hin) as (l & Hget & Hlt & Hcontent).
        exists l. split_and!; [done..|].
        destruct (JsObject.get cols name) as [l1|] eqn:E1.
        -- destruct Hcontent as [Hl Hcontent]. split; [done|].
           rewrite Hcontent. f_equal.
           unfold w1. apply deref_update_ne. intros ->.
           apply Hk. rewrite (NoDup_refs_get_inj cols k name l1) by done.
           by apply (JsObjectFacts.keys_In _ _ v).
        -- unfold w1 in Hcontent. by rewrite length_arrays_update in Hcontent.
  - (* the column is made *)
    rewrite setRow_write_new by done.
    set (l0 := length (arrays w)).
    set (cols1 := JsObject.set k l0 cols).
    set (w1 := update l0 (cell_write i ins v0) (alloc (new_Array n) w).2).
    assert (length (arrays w1) = S l0) as Hlen1
      by (by unfold w1; rewrite length_arrays_update, length_arrays_alloc).
    assert (∀ l, l < l0 → deref w1 l = deref w l) as Hold.
    { intros l Hl. unfold w1. rewrite deref_update_ne by lia.
      by apply deref_alloc_old. }
    assert (deref w1 l0 = cell_write i ins v0 (new_Array n)) as Hnew.
    { unfold w1. rewrite deref_update_eq
        by (rewrite length_arrays_alloc; unfold l0; lia).
      f_equal. apply deref_alloc_new. }
    assert (¬ In l0 (map snd cols)) as Hfresh.
    { intros Hin. rewrite List.Forall_forall in Hval.
      apply Hval in Hin. unfold l0 in Hin. lia. }
    assert (NoDup (map snd cols1)) as Hnd1
      by (by apply NoDup_refs_set_new).
    assert (Forall (λ l, l < length (arrays w1)) (map snd cols1)) as Hval1.
    { rewrite Hlen1. apply Forall_refs_set; [lia|].
      eapply Forall_impl; [exact Hval|]. simpl. unfold l0. lia. }
    assert (∀ name, name ≠ k →
              JsObject.get cols1 name = JsObject.get cols name) as Hget1
      by (intros; by apply JsObjectFacts.get_set_ne).
    destruct (IH cols1 w1 Hkeys Hnd1 Hval1)
      as (Hnd' & Hother & Hframe & Hnamed).
    pose proof (row_loop_store i n ins row cols1 w1) as (Hmono & _).
    rewrite Hlen1 in Hmono.
    split_and!; [done|..].
    + intros name Hname. simpl in Hname.
      rewrite Hother by tauto. apply Hget1. intros ->. tauto.
    + intros l Hl Hfree. fold l0 in Hl.
      rewrite Hframe; [by apply Hold|lia|].
      intros name Hname. rewrite Hget1.
      * apply Hfree. by right.
      * intros ->. done.
    + intros name v [Heq|Hin]; [injection Heq as <- <-|].
      * exists l0. rewrite Hother by done.
        unfold cols1 at 1. rewrite JsObjectFacts.get_set_eq, E.
        split_and!; [done|lia|done|].
        rewrite Hframe; [done|lia|].
        intros name Hname. rewrite Hget1 by (intros ->; done).
        intros Hget. apply Hfresh. apply in_map_iff.
        exists (name, l0). split; [done|]. by apply JsObjectFacts.get_Some_In.
      * assert (name ≠ k) as Hne.
        { intros ->. apply Hk. by apply (JsObjectFacts.keys_In _ _ v). }
        destruct (Hnamed name v Hin) as (l & Hget & Hlt & Hcontent).
        exists l. split_and!; [done..|].
        rewrite Hget1 in Hcontent by done.
        destruct (JsObject.get cols name) as [l1|] eqn:E1.
        -- destruct Hcontent as [Hl Hcontent]. split; [done|].
           rewrite Hcontent. f_equal.
           apply Hold. by apply (valid_get cols w name).
        -- destruct Hcontent as [Hge ->]. split; [lia|done].
Qed.

(** *** What the copying loops compute *)

Lemma copy_columns_named cols :
  ∀ tcols w,
  NoDup (JsObject.keys cols) →
  Forall (λ l, l < length (arrays w)) (map snd cols) →
  let r := copy_columns cols (tcols, w) in
  (∀ name, ¬ In name (JsObject.keys cols) →
     JsObject.get r.1 name = JsObject.get tcols name)
  ∧ (∀ name l, In (name, l) cols →
       ∃ l', JsObject.get r.1 name = Some l'
             ∧ length (arrays w) ≤ l' < length (arrays r.2)
             ∧ deref r.2 l' = deref w l).
Proof.
  induction cols as [|[k l0] cols IH]; intros tcols w Hkeys Hval.
  { simpl. split; [done|]. intros ? ? []. }
  cbv zeta. rewrite copy_columns_cons, alloc_fst.
  simpl in Hkeys, Hval.
  apply NoDup_cons in Hkeys as [Hk Hkeys]. rewrite list_elem_of_In in Hk.
  apply Forall_cons in Hval as [Hl0 Hval].
  set (tcols1 := JsObject.set k (length (arrays w)) tcols).
  set (w1 := (alloc (deref w l0) w).2).
  assert (length (arrays w1) = S (length (arrays w))) as Hlen1
    by apply length_arrays_alloc.
  assert (Forall (λ l, l < length (arrays w1)) (map snd cols)) as Hval1.
  { rewrite Hlen1. eapply Forall_impl; [exact Hval|]. simpl. lia. }
  destruct (IH tcols1 w1 Hkeys Hval1) as (Hother & Hnamed).
  destruct (copy_columns_store cols tcols1 w1) as (Hlen & _ & _ & Hkeep).
  split.
  - intros name Hname. simpl in Hname. rewrite Hother by tauto.
    apply JsObjectFacts.get_set_ne. intros ->. tauto.
  - intros name l [Heq|Hin]; [injection Heq as <- <-|].
    + exists (length (arrays w)). rewrite Hother by done.
      unfold tcols1 at 1. rewrite JsObjectFacts.get_set_eq.
      split_and!; [done|lia|lia|].
      rewrite Hkeep by lia. apply (deref_alloc_new (deref w l0) w).
    + destruct (Hnamed name l Hin) as (l' & Hget & Hrange & Hcontent).
      exists l'. split_and!; [done|lia|lia|]. rewrite Hcontent.
      apply deref_alloc_old. rewrite List.Forall_forall in Hval.
      apply Hval. apply in_map_iff. by exists (name, l).
Qed.

Lemma max_list_with_ext {A} (f g : A → nat) l :
  Forall (λ x, f x = g x) l → max_list_with f l = max_list_with g l.
Proof. induction 1 as [|x l Hx _ IH]; simpl; congruence. Qed.

Lemma max_list_with_In_le {A} (f : A → nat) l x :
  In x l → f x ≤ max_list_with f l.
Proof.
  induction l as [|y l IH]; simpl; [done|].
  intros [->|Hin]; [lia|]. specialize (IH Hin). lia.
Qed.

(** The constructor keeps the largest length. *)
Lemma constructor_fold_rowCount cols :
  ∀ tcols rc w,
  Forall (λ l, l < length (arrays w)) (map snd cols) →
  (fold_left constructor_step cols (tcols, rc, w)).1.2
  = Nat.max rc (max_list_with (λ e, length (deref w e.2)) cols).
Proof.
  induction cols as [|[k l0] cols IH]; intros tcols rc w Hval.
  { simpl. lia. }
  simpl in Hval. apply Forall_cons in Hval as [Hl0 Hval].
  change (fold_left constructor_step ((k, l0) :: cols) (tcols, rc, w))
    with (fold_left constructor_step cols
            (JsObject.set k (alloc (deref w l0) w).1 tcols,
             Nat.max rc (length (deref w l0)),
             (alloc (deref w l0) w).2)).
  rewrite IH.
  - simpl max_list_with.
    rewrite (max_list_with_ext
               (λ e, length (deref (alloc (deref w l0) w).2 e.2))
               (λ e, length (deref w e.2))); [lia|].
    apply List.Forall_forall. intros [k' l'] Hin. cbn [snd].
    rewrite deref_alloc_old; [done|].
    rewrite List.Forall_forall in Hval. apply Hval.
    apply in_map_iff. by exists (k', l').
  - rewrite length_arrays_alloc.
    eapply Forall_impl; [exact Hval|]. simpl. lia.
Qed.

(** [setColumns] keeps the length it saw last. *)
Lemma setColumns_fold_rowCount cols :
  ∀ tcols rc w,
  Forall (λ l, l < length (arrays w)) (map snd cols) →
  (fold_left setColumns_step cols (tcols, rc, w)).1.2
  = match last cols with
    | Some (_, l) => length (deref w l)
    | None => rc
    end.
Proof.
  induction cols as [|[k l0] cols IH]; intros tcols rc w Hval; [done|].
  simpl in Hval. apply Forall_cons in Hval as [Hl0 Hval].
  change (fold_left setColumns_step ((k, l0) :: cols) (tcols, rc, w))
    with (fold_left setColumns_step cols
            (JsObject.set k (alloc (deref w l0) w).1 tcols,
             length (deref w l0),
             (alloc (deref w l0) w).2)).
  rewrite IH.
  - destruct cols as [|e cols]; [done|].
    change (last ((k, l0) :: e :: cols)) with (last (e :: cols)).
    destruct (last (e :: cols)) as [[k' l']|] eqn:E;
      [|by apply last_None in E].
    rewrite deref_alloc_old; [done|].
    rewrite List.Forall_forall in Hval. apply Hval.
    apply in_map_iff. exists (k', l'). split; [done|].
    apply list_elem_of_In. by apply last_Some_elem_of.
  - rewrite length_arrays_alloc.
    eapply Forall_impl; [exact Hval|]. simpl. lia.
Qed.

(** The row count after [setColumns] with at least one column: the length
    of the column that is enumerated last. *)
Lemma setColumns_rowCount_last t cols k l ri ed w :
  Forall (λ l, l < length (arrays w)) (map snd cols) →
  last cols = Some (k, l) →
  rowCount (setColumns t cols ri ed w).1 = length (deref w l).
Proof.
  intros Hval Hlast. rewrite setColumns_eq. cbv zeta.
  destruct (notify_frame "afterSetColumns" ed
    (applyRowCount
       (with_columns
          (fold_left setColumns_step cols (columns t, rowCount t, w)).1.1 t)
       (fold_left setColumns_step cols (columns t, rowCount t, w)).1.2
       (fold_left setColumns_step cols (columns t, rowCount t, w)).2).1
    (applyRowCount
       (with_columns
          (fold_left setColumns_step cols (columns t, rowCount t, w)).1.1 t)
       (fold_left setColumns_step cols (columns t, rowCount t, w)).1.2
       (fold_left setColumns_step cols (columns t, rowCount t, w)).2).2)
    as (_ & -> & _).
  rewrite applyRowCount_eq. cbn [fst rowCount with_rowCount].
  rewrite setColumns_fold_rowCount by done. by rewrite Hlast.
Qed.

(** *** Column lengths after setRow *)

Lemma insert_cases (ins : option bool) row :
  (default false ins = true → insertable row) →
  default false ins = false ∨ insertable row.
Proof. destruct (default false ins); [right|left]; auto. Qed.

Lemma setRow_lengths_ok t row ri ins ed w :
  lengths_ok t w →
  (default false ins = true → insertable row) →
  (default false ins = true
   ∨ rowCount t ≤ default (rowCount t) ri + 1
   ∨ Forall (λ k, is_Some (getColumn t k)) (JsObject.keys row)) →
  lengths_ok (setRow t row ri ins ed w).1 (setRow t row ri ins ed w).2.
Proof.
  intros Hok Hins Hcase. rewrite setRow_eq by (by apply insert_cases).
  cbv zeta.
  set (i := default (rowCount t) ri). fold i in Hcase.
  set (insert := default false ins). fold insert in Hcase.
  set (n := if insert then rowCount t + 1 else i + 1).
  set (r := row_loop i n insert row (columns t, w)).
  apply notify_lengths_ok.
  destruct (rowCount t <? n) eqn:Hgrow.
  - apply applyRowCount_lengths_ok. unfold refs_valid, table_refs. simpl.
    apply row_loop_valid. by apply lengths_ok_valid.
  - apply Nat.ltb_ge in Hgrow. unfold lengths_ok, table_refs. simpl.
    destruct insert; [unfold n in Hgrow; lia|]. unfold n in *.
    apply row_loop_overwrite_lengths; [lia|done|].
    destruct Hcase as [?|[Hle|Hall]]; [done|left; lia|by right].
Qed.

(** Every column has [rowCount] slots after the constructor, after
    [setColumn] and [setColumns], and after a [setRow] that inserts, that
    writes at the last row or later, or that names existing columns only, on
    a table whose columns had [rowCount] slots before.  A row object that
    is inserted has no key that objects inherit: [setRow] throws on such a
    key, after it has inserted the cells of the keys before it. *)
Theorem lengths_ok_kept :
  (∀ options w,
     lengths_ok (constructor options w).1 (constructor options w).2)
  ∧ (∀ t cols ri ed w,
       refs_valid t w →
       lengths_ok (setColumns t cols ri ed w).1 (setColumns t cols ri ed w).2)
  ∧ (∀ t name column ri ed w,
       refs_valid t w →
       lengths_ok (setColumn t name column ri ed w).1
                  (setColumn t name column ri ed w).2)
  ∧ (∀ t row ri ins ed w,
       lengths_ok t w →
       (default false ins = true → insertable row) →
       (default false ins = true
        ∨ rowCount t ≤ default (rowCount t) ri + 1
        ∨ Forall (λ k, is_Some (getColumn t k)) (JsObject.keys row)) →
       lengths_ok (setRow t row ri ins ed w).1 (setRow t row ri ins ed w).2).
Proof.
  split_and!.
  - apply constructor_lengths_ok.
  - apply setColumns_lengths_ok.
  - apply setColumn_lengths_ok.
  - apply setRow_lengths_ok.
Qed.

(** *** Tables made through the interface are well formed *)

Lemma NoDup_refs_replace_fresh (cols : JsObject.t ref) k l :
  ¬ In l (map snd cols) → NoDup (map snd cols) →
  NoDup (map snd (JsObject.replace k l cols)).
Proof.
  induction cols as [|[k' l'] cols IH]; simpl; [done|].
  intros Hfresh Hnd. apply NoDup_cons in Hnd as [Hl' Hnd].
  rewrite list_elem_of_In in Hl'.
  destruct (String.eqb k k'); simpl; apply NoDup_cons;
    rewrite list_elem_of_In.
  - split; [tauto|done].
  - split; [|apply IH; tauto]. intros Hin.
    apply in_map_iff in Hin as [[k0 l0] [Heq Hin]]. simpl in Heq. subst l0.
    apply JsObjectFacts.replace_In in Hin as [[= _ ->]|Hin]; [tauto|].
    apply Hl'. apply in_map_iff. by exists (k0, l').
Qed.

Lemma NoDup_refs_set_fresh (cols : JsObject.t ref) k l :
  ¬ In l (map snd cols) → NoDup (map snd cols) →
  NoDup (map snd (JsObject.set k l cols)).
Proof.
  intros Hfresh Hnd. unfold JsObject.set.
  destruct (JsObject.get cols k) eqn:E.
  - by apply NoDup_refs_replace_fresh.
  - rewrite JsObjectFacts.add_Permutation. simpl. apply NoDup_cons.
    by rewrite list_elem_of_In.
Qed.

Lemma copy_columns_no_sharing cols :
  ∀ tcols w,
  Forall (λ l, l < length (arrays w)) (map snd tcols) →
  NoDup (map snd tcols) →
  NoDup (map snd (copy_columns cols (tcols, w)).1).
Proof.
  induction cols as [|[k l] cols IH]; intros tcols w Hval Hnd; [done|].
  rewrite copy_columns_cons, alloc_fst. apply IH.
  - rewrite length_arrays_alloc. apply Forall_refs_set; [lia|].
    eapply Forall_impl; [exact Hval|]. simpl. lia.
  - apply NoDup_refs_set_fresh; [|done]. intros Hin.
    rewrite List.Forall_forall in Hval. apply Hval in Hin. lia.
Qed.

Lemma constructor_wf options w :
  refs_valid (constructor options w).1 (constructor options w).2
  ∧ no_sharing (constructor options w).1.
Proof.
  split; [apply lengths_ok_valid, constructor_lengths_ok|].
  rewrite constructor_eq. cbv zeta. rewrite applyRowCount_eq.
  unfold no_sharing, table_refs. cbn [fst columns with_rowCount].
  match goal with |- context [fold_left constructor_step ?c (?a, ?b, ?w0)] =>
    pose proof (constructor_fold_cols c a b w0) as Heq;
    pose proof (copy_columns_no_sharing c a w0) as Hnd end.
  cbv zeta in Heq. rewrite <- Heq in Hnd. apply Hnd; constructor.
Qed.

Lemma setColumns_wf t cols ri ed w :
  refs_valid t w → no_sharing t →
  refs_valid (setColumns t cols ri ed w).1 (setColumns t cols ri ed w).2
  ∧ no_sharing (setColumns t cols ri ed w).1.
Proof.
  intros Hval Hnd.
  split; [by apply lengths_ok_valid, setColumns_lengths_ok|].
  rewrite setColumns_eq. cbv zeta. unfold no_sharing, table_refs.
  match goal with |- context [notify ?ty ed ?t1 ?w1] =>
    destruct (notify_frame ty ed t1 w1) as (-> & _ & _) end.
  rewrite applyRowCount_eq. cbn [fst columns with_rowCount with_columns].
  pose proof (setColumns_fold_cols cols (columns t) (rowCount t) w) as Heq.
  pose proof (copy_columns_no_sharing cols (columns t) w Hval Hnd) as Hnd'.
  cbv zeta in Heq. by rewrite <- Heq in Hnd'.
Qed.

Lemma row_loop_no_sharing i n ins row :
  ∀ cols w,
  Forall (λ l, l < length (arrays w)) (map snd cols) →
  NoDup (map snd cols) →
  NoDup (map snd (row_loop i n ins row (cols, w)).1).
Proof.
  induction row as [|[k v] row IH]; intros cols w Hval Hnd; [done|].
  rewrite row_loop_cons.
  destruct (JsObject.get cols k) as [l|] eqn:E.
  - rewrite (setRow_write_existing _ _ _ _ _ _ _ l) by done.
    apply IH; [|done]. by rewrite length_arrays_update.
  - rewrite setRow_write_new by done. apply IH.
    + rewrite length_arrays_update, length_arrays_alloc.
      apply Forall_refs_set; [lia|].
      eapply Forall_impl; [exact Hval|]. simpl. lia.
    + apply NoDup_refs_set_fresh; [|done]. intros Hin.
      rewrite List.Forall_forall in Hval. apply Hval in Hin. lia.
Qed.

Lemma setRow_wf t row ri ins ed w :
  refs_valid t w → no_sharing t →
  refs_valid (setRow t row ri ins ed w).1 (setRow t row ri ins ed w).2
  ∧ no_sharing (setRow t row ri ins ed w).1.
Proof.
  intros Hval Hnd.
  destruct (setRow_prefix t row ri ins ed w) as [row' Hrow'].
  cbv zeta in Hrow'.
  match type of Hrow' with context [row_loop ?i ?n ?b row' (columns t, w)] =>
    pose proof (row_loop_valid i n b row' (columns t) w Hval) as Hval';
    pose proof (row_loop_no_sharing i n b row' (columns t) w Hval Hnd) as Hnd'
  end.
  destruct Hrow' as [-> | ->]; [done|].
  unfold refs_valid, no_sharing, table_refs.
  match goal with |- context [notify ?ty ed ?t1 ?w1] =>
    destruct (notify_frame ty ed t1 w1) as (-> & _ & ->) end.
  destruct (_ <? _).
  - rewrite applyRowCount_eq. cbn [fst snd columns with_rowCount with_columns].
    split; [|done].
    match goal with |- context [resize_all ?n ?c ?w0] =>
      destruct (resize_all_frame n c w0) as (-> & _) end.
    done.
  - done.
Qed.

(** *** getColumns *)

Lemma getColumns_fold t names :
  ∀ (acc : JsObject.t (JsObject.Member ref)) name,
  JsObject.get acc "__proto__" = None →
  JsObject.get
    (fold_left (λ columns columnName,
                  JsObject.assign columnName (column_member t columnName)
                                  columns)
               names acc) name
  = if bool_decide (name ∈ names ∧ name ≠ "__proto__")
    then Some (column_member t name)
    else JsObject.get acc name.
Proof.
  induction names as [|k names IH]; intros acc name Hacc.
  { cbn [fold_left]. rewrite bool_decide_eq_false_2; [done|].
    by intros [?%elem_of_nil _]. }
  simpl fold_left.
  destruct (decide (k = "__proto__")) as [->|Hk].
  - rewrite JsObjectFacts.assign_proto by done. rewrite IH by done.
    rewrite (bool_decide_ext (name ∈ names ∧ name ≠ "__proto__")
               (name ∈ "__proto__" :: names ∧ name ≠ "__proto__")); [done|].
    rewrite elem_of_cons. split; [tauto|].
    intros [[->|?] ?]; done.
  - rewrite JsObjectFacts.assign_set by done.
    rewrite IH by (by rewrite JsObjectFacts.get_set_ne).
    destruct (decide (name ∈ names ∧ name ≠ "__proto__")) as [[Hin Hn]|Hno].
    + rewrite !bool_decide_eq_true_2; [done| |done].
      split; [by right|done].
    + rewrite (bool_decide_eq_false_2 _ Hno).
      destruct (decide (name = k)) as [->|Hne].
      * rewrite bool_decide_eq_true_2 by (split; [by left|done]).
        apply JsObjectFacts.get_set_eq.
      * rewrite bool_decide_eq_false_2.
        2:{ intros [[?|?]%elem_of_cons ?]; [done|]. apply Hno. done. }
        by apply JsObjectFacts.get_set_ne.
Qed.

(** [getColumns] maps a requested name to what the property read of the
    columns gives; it has no other property, and none of the name
    [__proto__]. *)
Lemma getColumns_get t names name :
  JsObject.get (getColumns t names) name
  = if bool_decide (name ∈ names_or_all t names ∧ name ≠ "__proto__")
    then Some (column_member t name) else None.
Proof. unfold getColumns. by rewrite getColumns_fold. Qed.

(** *** Version tags and events *)

Lemma notify_versionTag type ed t w :
  let r := notify type ed t w in
  (is_silent ed = true →
     versionTag r.1 = versionTag t ∧ fired r.2 = fired w
     ∧ keyCounter r.2 = keyCounter w)
  ∧ (is_silent ed = false →
       versionTag r.1 = keyCounter w ∧ fired r.2 = fired w ++ [type]
       ∧ keyCounter r.2 = S (keyCounter w)).
Proof. unfold notify. by destruct (is_silent ed). Qed.

Lemma notify_tag_issued type ed t w :
  tag_issued t w → tag_issued (notify type ed t w).1 (notify type ed t w).2.
Proof.
  unfold tag_issued. intros H.
  destruct (notify_versionTag type ed t w) as [Hs Hn].
  destruct (is_silent ed).
  - destruct Hs as (-> & _ & ->); done.
  - destruct Hn as (-> & _ & ->); [done|lia].
Qed.

(** [setColumns] up to its last statement: the copies and the new row
    count neither take a key nor fire an event. *)
Lemma setColumns_body_frame t cols w :
  let r := fold_left setColumns_step cols (columns t, rowCount t, w) in
  let a := applyRowCount (with_columns r.1.1 t) r.1.2 r.2 in
  versionTag a.1 = versionTag t
  ∧ keyCounter a.2 = keyCounter w
  ∧ fired a.2 = fired w.
Proof.
  cbv zeta. rewrite applyRowCount_eq. cbn [fst snd].
  split; [done|].
  destruct (resize_all_frame
    (fold_left setColumns_step cols (columns t, rowCount t, w)).1.2
    (columns (with_columns
       (fold_left setColumns_step cols (columns t, rowCount t, w)).1.1 t))
    (fold_left setColumns_step cols (columns t, rowCount t, w)).2)
    as (_ & -> & ->).
  pose proof (setColumns_fold_cols cols (columns t) (rowCount t) w) as Heq.
  cbv zeta in Heq.
  destruct (copy_columns_store cols (columns t) w) as (_ & Hk & Hf & _).
  rewrite <- Heq in Hk, Hf. done.
Qed.

Lemma constructor_tag_issued options w :
  tag_issued (constructor options w).1 (constructor options w).2.
Proof.
  rewrite constructor_eq. cbv zeta. rewrite applyRowCount_eq.
  unfold tag_issued. cbn [fst snd versionTag with_rowCount].
  match goal with |- context [resize_all ?n ?c ?w0] =>
    destruct (resize_all_frame n c w0) as (_ & -> & _) end.
  match goal with |- context [fold_left constructor_step ?c (?a, ?b, ?w0)] =>
    pose proof (constructor_fold_cols c a b w0) as Heq;
    destruct (copy_columns_store c a w0) as (_ & Hk & _) end.
  cbv zeta in Heq. rewrite <- Heq in Hk. cbn [snd] in Hk. rewrite Hk.
  simpl. lia.
Qed.

Lemma setColumns_tag_issued t cols ri ed w :
  tag_issued t w →
  tag_issued (setColumns t cols ri ed w).1 (setColumns t cols ri ed w).2.
Proof.
  intros H. rewrite setColumns_eq. cbv zeta. apply notify_tag_issued.
  destruct (setColumns_body_frame t cols w) as (Hv & Hk & _).
  unfold tag_issued. cbv zeta in Hv, Hk. by rewrite Hv, Hk.
Qed.

Lemma setRow_tag_issued t row ri ins ed w :
  tag_issued t w →
  tag_issued (setRow t row ri ins ed w).1 (setRow t row ri ins ed w).2.
Proof.
  intros H.
  destruct (setRow_prefix t row ri ins ed w) as [row' Hrow'].
  cbv zeta in Hrow'.
  match type of Hrow' with context [row_loop ?i ?n ?b row' (columns t, w)] =>
    destruct (row_loop_store i n b row' (columns t) w) as (_ & Hk & _) end.
  destruct Hrow' as [-> | ->].
  { unfold tag_issued in *. simpl. by rewrite Hk. }
  apply notify_tag_issued. unfold tag_issued in *.
  destruct (_ <? _).
  - rewrite applyRowCount_eq. cbn [fst snd versionTag with_rowCount].
    match goal with |- context [resize_all ?n ?c ?w0] =>
      destruct (resize_all_frame n c w0) as (_ & -> & _) end.
    by rewrite Hk.
  - cbn [fst snd]. by rewrite Hk.
Qed.

(** *** The constructor *)

Lemma deref_arrays w w' l : arrays w = arrays w' → deref w l = deref w' l.
Proof. unfold deref. by intros ->. Qed.

Lemma constructor_spec options w :
  NoDup (JsObject.keys (default [] (opt_columns options))) →
  Forall (λ l, l < length (arrays w))
         (map snd (default [] (opt_columns options))) →
  let r := constructor options w in
  rowCount r.1
  = max_list_with (λ e, length (deref w e.2))
                  (default [] (opt_columns options))
  ∧ (∀ name l,
       JsObject.get (default [] (opt_columns options)) name = Some l →
       ∃ l', getColumn r.1 name = Some l'
             ∧ length (arrays w) ≤ l'
             ∧ deref r.2 l' = set_length (rowCount r.1) (deref w l))
  ∧ (∀ name,
       JsObject.get (default [] (opt_columns options)) name = None →
       getColumn r.1 name = None)
  ∧ Forall (λ l', length (arrays w) ≤ l') (table_refs r.1)
  ∧ (∀ l, l < length (arrays w) → deref r.2 l = deref w l).
Proof.
  intros Hkeys Hval. cbv zeta. rewrite constructor_eq. cbv zeta.
  set (cols := default [] (opt_columns options)) in *.
  set (w2 := (uniqueKey _).2).
  assert (arrays w2 = arrays w) as Harr.
  { unfold w2. by destruct (truthy_id (opt_id options)). }
  set (r := fold_left constructor_step cols ([], 0, w2)).
  rewrite applyRowCount_eq.
  cbn [fst snd rowCount with_rowCount columns getColumn table_refs].
  assert (Forall (λ l, l < length (arrays w2)) (map snd cols)) as Hval2
    by (by rewrite Harr).
  pose proof (constructor_fold_cols cols [] 0 w2) as Hfold.
  cbv zeta in Hfold. fold r in Hfold.
  destruct (copy_columns_named cols [] w2 Hkeys Hval2) as (Hother & Hnamed).
  destruct (copy_columns_store cols [] w2) as (Hlen & _ & _ & Hkeep).
  pose proof (copy_columns_refs cols [] w2) as Hrefs.
  cbv zeta in Hother, Hnamed, Hlen, Hkeep, Hrefs.
  rewrite <- Hfold in Hother, Hnamed, Hlen, Hkeep, Hrefs.
  cbn [fst snd] in Hother, Hnamed, Hlen, Hkeep, Hrefs.
  assert (Forall (λ l', length (arrays w) ≤ l') (map snd r.1.1)) as Hfresh.
  { eapply Forall_impl; [exact Hrefs|]. cbv beta.
    intros l' [[]|?]. rewrite <- Harr. lia. }
  split_and!.
  - unfold r. rewrite constructor_fold_rowCount by done. simpl Nat.max.
    apply max_list_with_ext, List.Forall_forall. intros e _.
    f_equal. by apply deref_arrays.
  - intros name l Hget.
    destruct (Hnamed name l (JsObjectFacts.get_Some_In _ _ _ Hget))
      as (l' & Hget' & Hrange & Hcontent).
    exists l'. unfold getColumn. cbn [columns with_rowCount].
    split_and!; [done|rewrite <- Harr; lia|].
    rewrite resize_all_member; [|apply in_map_iff; exists (name, l');
      split; [done|by apply JsObjectFacts.get_Some_In]|lia].
    rewrite Hcontent. f_equal. by apply deref_arrays.
  - intros name Hnone. unfold getColumn. cbn [columns with_rowCount].
    rewrite Hother; [done|]. intros Hin.
    apply JsObjectFacts.In_keys_get in Hin as [x Hx]. congruence.
  - done.
  - intros l Hl. rewrite resize_all_other.
    + rewrite Hkeep by (rewrite Harr; lia). by apply deref_arrays.
    + intros Hin. rewrite List.Forall_forall in Hfresh.
      apply Hfresh in Hin. lia.
Qed.

(** An update of an array that is no column of the table does not show in
    the table. *)
Lemma cellAt_update_other t w l f name j :
  ¬ In l (table_refs t) → cellAt t (update l f w) name j = cellAt t w name j.
Proof.
  intros Hl. unfold cellAt.
  destruct (getColumn t name) as [l'|] eqn:E; [|done].
  rewrite deref_update_ne; [done|]. intros ->.
  apply Hl. by apply (getColumn_In_refs t name).
Qed.

(** *** getRow *)

Lemma getRow_named t w i names :
  getRow t w i (Some names)
  = map (λ name, match JsObject.get (columns t) name with
                 | Some column => default CUndefined (deref w column !! i)
                 | None => CUndefined
                 end) names.
Proof. done. Qed.

Lemma filter_map_fst {A B} (p : A → bool) (l : list (A * B)) :
  List.filter p (map fst l) = map fst (List.filter (λ e, p e.1) l).
Proof.
  induction l as [|[a b] l IH]; [done|]. simpl.
  destruct (p a); simpl; by rewrite IH.
Qed.

(** The optional chain of [getRow] gives the value that [cellAt] has, and
    does not throw. *)
Lemma read_cell_chained t w key i :
  read_cell true (column_member t key) w i = (cellAt t w key i, Normal).
Proof.
  unfold read_cell, column_member, cellAt, getColumn, JsObject.member.
  destruct (JsObject.get (columns t) key); [done|].
  by destruct (JsObject.inherited key).
Qed.

Lemma getRow_run_eq t w i names :
  getRow_run t w i names = (getRow t w i names, Normal).
Proof.
  unfold getRow_run, getRow.
  assert (∀ l cells,
            fold_left (getRow_step t w i) l (cells, Normal)
            = (cells ++ map (λ key, cellAt t w key i) l, Normal)) as H.
  { induction l as [|key l IH]; intros cells.
    - simpl. by rewrite app_nil_r.
    - change (fold_left (getRow_step t w i) (key :: l) (cells, Normal))
        with (fold_left (getRow_step t w i) l
                (getRow_step t w i (cells, Normal) key)).
      assert (getRow_step t w i (cells, Normal) key
              = (cells ++ [cellAt t w key i], Normal)) as ->
        by (unfold getRow_step; by rewrite read_cell_chained).
      rewrite IH. simpl. by rewrite <- app_assoc. }
  by rewrite H.
Qed.

Lemma getRow_lookup t w i names k name :
  names_or_all t names !! k = Some name →
  getRow t w i names !! k = Some (cellAt t w name i).
Proof.
  intros H. unfold getRow.
  change (map (λ key, cellAt t w key i) (names_or_all t names))
    with ((λ key, cellAt t w key i) <$> names_or_all t names).
  by rewrite list_lookup_fmap, H.
Qed.

End DataTableCoreFacts.

Module SyncFacts.
Import Sync.

Section RegistrationFacts.
Context {I : Type}.
Variable reg : Sync → JsObject.t I.
Variable iid : I → string.
Variable created : Event → option I.

Lemma creates_app id evs1 evs2 :
  creates iid created id (evs1 ++ evs2)
  = creates iid created id evs1 + creates iid created id evs2.
Proof. unfold creates. by rewrite List.filter_app, length_app. Qed.

Lemma creates_none id evs :
  (∀ ev, In ev evs → created ev = None) → creates iid created id evs = 0.
Proof.
  unfold creates. induction evs as [|ev evs IH]; intros Hnone; [done|].
  simpl. rewrite (Hnone ev) by (by left). apply IH.
  intros ev' Hin. apply Hnone. by right.
Qed.

(** A positive count comes from an event of the trace. *)
Lemma creates_pos id evs :
  0 < creates iid created id evs →
  ∃ ev i, In ev evs ∧ created ev = Some i ∧ iid i = id.
Proof.
  unfold creates. induction evs as [|ev evs IH]; simpl; [lia|].
  destruct (created ev) as [i|] eqn:E.
  - destruct (String.eqb_spec (iid i) id) as [Hid|Hne].
    + intros _. exists ev, i. auto.
    + intros H. destruct (IH H) as (ev' & i' & Hin & Hc & Hid).
      exists ev', i'. auto.
  - intros H. destruct (IH H) as (ev' & i' & Hin & Hc & Hid).
    exists ev', i'. auto.
Qed.

Lemma attaches_once_refl s w : attaches_once reg iid created s w s w.
Proof.
  exists []. rewrite app_nil_r. split_and!; [done|..].
  - intros id. unfold creates. simpl. lia.
  - done.
  - intros ev i [].
Qed.

Lemma attaches_once_trans s1 w1 s2 w2 s3 w3 :
  attaches_once reg iid created s1 w1 s2 w2 →
  attaches_once reg iid created s2 w2 s3 w3 →
  attaches_once reg iid created s1 w1 s3 w3.
Proof.
  intros (evs1 & Htr1 & Hone1 & Hkeep1 & Hreg1)
         (evs2 & Htr2 & Hone2 & Hkeep2 & Hreg2).
  exists (evs1 ++ evs2). split_and!.
  - by rewrite Htr2, Htr1, app_assoc.
  - intros id. rewrite creates_app.
    destruct (decide (creates iid created id evs1 = 0)) as [->|Hpos].
    { apply Hone2. }
    destruct (creates_pos id evs1) as (ev & i & Hin & Hc & Hid); [lia|].
    assert (is_Some (JsObject.get (reg s2) id)) as Hsome.
    { rewrite <- Hid. rewrite (Hreg1 ev i Hin Hc). by eexists. }
    destruct (Hkeep2 id Hsome) as [-> _]. specialize (Hone1 id). lia.
  - intros id Hsome. destruct (Hkeep1 id Hsome) as [Hc1 Hg1].
    assert (is_Some (JsObject.get (reg s2) id)) as Hsome2
      by (by rewrite Hg1).
    destruct (Hkeep2 id Hsome2) as [Hc2 Hg2].
    rewrite creates_app, Hc1, Hc2, Hg2, Hg1. done.
  - intros ev i Hin Hc. apply in_app_or in Hin as [Hin|Hin].
    + pose proof (Hreg1 ev i Hin Hc) as Hg.
      assert (is_Some (JsObject.get (reg s2) (iid i))) as Hsome
        by (by rewrite Hg).
      destruct (Hkeep2 _ Hsome) as [_ ->]. done.
    + by apply (Hreg2 ev).
Qed.

(** A step that leaves the registry alone and calls no [create]. *)
Lemma attaches_once_silent s w s' w' evs :
  reg s' = reg s → trace w' = trace w ++ evs →
  (∀ ev, In ev evs → created ev = None) →
  attaches_once reg iid created s w s' w'.
Proof.
  intros Hreg Htr Hnone. exists evs. split_and!; [done|..].
  - intros id. rewrite creates_none by done. lia.
  - intros id _. rewrite creates_none by done. by rewrite Hreg.
  - intros ev i Hin Hc. rewrite Hnone in Hc by done. done.
Qed.

(** A step that registers an instance under a free identifier and calls
    its [create], once. *)
Lemma attaches_once_register s w s' w' evs ev i :
  JsObject.get (reg s) (iid i) = None →
  reg s' = JsObject.set (iid i) i (reg s) →
  trace w' = trace w ++ evs ++ [ev] →
  (∀ ev', In ev' evs → created ev' = None) →
  created ev = Some i →
  attaches_once reg iid created s w s' w'.
Proof.
  intros Hfree Hreg Htr Hnone Hev. exists (evs ++ [ev]).
  assert (∀ id, creates iid created id (evs ++ [ev])
                = if String.eqb (iid i) id then 1 else 0) as Hcount.
  { intros id. rewrite creates_app, creates_none by done.
    unfold creates. simpl. rewrite Hev. by destruct (String.eqb (iid i) id). }
  split_and!; [done|..].
  - intros id. rewrite Hcount. destruct (String.eqb (iid i) id); lia.
  - intros id Hsome. rewrite Hcount, Hreg.
    destruct (String.eqb_spec (iid i) id) as [<-|Hne].
    + rewrite Hfree in Hsome. by destruct Hsome.
    + split; [done|]. apply JsObjectFacts.get_set_ne. congruence.
  - intros ev' i' Hin Hc. apply in_app_or in Hin as [Hin|[<-|[]]].
    + rewrite Hnone in Hc by done. done.
    + rewrite Hev in Hc. injection Hc as <-.
      rewrite Hreg. apply JsObjectFacts.get_set_eq.
Qed.

End RegistrationFacts.

(** *** The steps of start *)

(** An identifier reads as not registered when the registry has no such
    property and objects inherit none of that name. *)
Lemma registered_false {I} (o : JsObject.t I) id :
  match JsObject.member o id with
  | JsObject.Undefined => false
  | _ => true
  end = false
  ↔ JsObject.get o id = None ∧ JsObject.inherited id = false.
Proof.
  unfold JsObject.member. destruct (JsObject.get o id).
  - split; [done|]. by intros [? _].
  - destruct (JsObject.inherited id); split; try done. by intros [_ ?].
Qed.

Lemma registered_true {I} (o : JsObject.t I) id :
  match JsObject.member o id with
  | JsObject.Undefined => false
  | _ => true
  end = true
  ↔ is_Some (JsObject.get o id) ∨ JsObject.inherited id = true.
Proof.
  unfold JsObject.member. destruct (JsObject.get o id).
  - split; [left; by eexists|done].
  - destruct (JsObject.inherited id); split; try done; [by right|].
    by intros [[? ?]|?].
Qed.

(** What reads as registered keeps doing so as long as the properties of
    the registry stay. *)
Lemma registered_kept {I} (o o' : JsObject.t I) id :
  (is_Some (JsObject.get o id) → JsObject.get o' id = JsObject.get o id) →
  match JsObject.member o id with
  | JsObject.Undefined => false
  | _ => true
  end = true →
  match JsObject.member o' id with
  | JsObject.Undefined => false
  | _ => true
  end = true.
Proof.
  intros Hkeep. rewrite !registered_true. intros [Hown|Hinh]; [|by right].
  left. by rewrite Hkeep.
Qed.

Lemma isRegisteredHandler_false s id :
  isRegisteredHandler s id = false →
  JsObject.get (registeredSyncHandlers s) id = None.
Proof. intros H. by apply registered_false in H as [? _]. Qed.

Lemma isRegisteredEmitter_false s id :
  isRegisteredEmitter s id = false →
  JsObject.get (registeredSyncEmitters s) id = None.
Proof. intros H. by apply registered_false in H as [? _]. Qed.

Lemma isRegisteredHandler_false_own s id :
  isRegisteredHandler s id = false → id ≠ "__proto__".
Proof. intros H. by apply registered_false in H as [_ ?%JsObjectFacts.not_inherited_proto]. Qed.

Lemma isRegisteredEmitter_false_own s id :
  isRegisteredEmitter s id = false → id ≠ "__proto__".
Proof. intros H. by apply registered_false in H as [_ ?%JsObjectFacts.not_inherited_proto]. Qed.

Lemma isRegisteredHandler_own s id :
  is_Some (JsObject.get (registeredSyncHandlers s) id) →
  isRegisteredHandler s id = true.
Proof.
  intros [h H]. unfold isRegisteredHandler, JsObject.member. by rewrite H.
Qed.

Lemma isRegisteredEmitter_own s id :
  is_Some (JsObject.get (registeredSyncEmitters s) id) →
  isRegisteredEmitter s id = true.
Proof.
  intros [e H]. unfold isRegisteredEmitter, JsObject.member. by rewrite H.
Qed.

Lemma attach_handler_once c s w :
  let r := attach_handler c s w in
  once_h s w r.1.1 r.1.2 ∧ once_e s w r.1.1 r.1.2.
Proof.
  unfold attach_handler, new_SyncHandler. cbv zeta.
  set (h := mkHandler (nextSerial w) c.1.1 c.1.2 c.2).
  destruct (isRegisteredHandler s (h_id h)) eqn:E; cbn [negb fst snd]; split.
  - by apply (attaches_once_silent _ _ _ _ _ _ _ [NewHandler h]);
      [..|intros ev [<-|[]]].
  - by apply (attaches_once_silent _ _ _ _ _ _ _ [NewHandler h]);
      [..|intros ev [<-|[]]].
  - apply (attaches_once_register _ _ _ _ _ _ _ [NewHandler h]
             (HandlerCreate h (component s)) h).
    + by apply isRegisteredHandler_false.
    + cbn [registeredSyncHandlers registerSyncHandler].
      apply JsObjectFacts.assign_set.
      by apply (isRegisteredHandler_false_own s).
    + simpl. by rewrite <- app_assoc.
    + by intros ev [<-|[]].
    + done.
  - apply (attaches_once_silent _ _ _ _ _ _ _
             [NewHandler h; HandlerCreate h (component s)]).
    + done.
    + simpl. by rewrite <- app_assoc.
    + by intros ev [<-|[<-|[]]].
Qed.

Lemma attach_emitter_once c s w :
  let r := attach_emitter c s w in
  once_h s w r.1.1 r.1.2 ∧ once_e s w r.1.1 r.1.2.
Proof.
  unfold attach_emitter, new_SyncEmitter. cbv zeta.
  set (e := mkEmitter (nextSerial w) c.1 c.2).
  destruct (isRegisteredEmitter s (e_id e)) eqn:E; cbn [negb fst snd]; split.
  - by apply (attaches_once_silent _ _ _ _ _ _ _ [NewEmitter e]);
      [..|intros ev [<-|[]]].
  - by apply (attaches_once_silent _ _ _ _ _ _ _ [NewEmitter e]);
      [..|intros ev [<-|[]]].
  - apply (attaches_once_silent _ _ _ _ _ _ _
             [NewEmitter e; EmitterCreate e (component s)]).
    + done.
    + simpl. by rewrite <- app_assoc.
    + by intros ev [<-|[<-|[]]].
  - apply (attaches_once_register _ _ _ _ _ _ _ [NewEmitter e]
             (EmitterCreate e (component s)) e).
    + by apply isRegisteredEmitter_false.
    + cbn [registeredSyncEmitters registerSyncEmitter].
      apply JsObjectFacts.assign_set.
      by apply (isRegisteredEmitter_false_own s).
    + simpl. by rewrite <- app_assoc.
    + by intros ev [<-|[]].
    + done.
Qed.

Lemma once_both_refl s w : once_h s w s w ∧ once_e s w s w.
Proof. split; apply attaches_once_refl. Qed.

Lemma start_handler_once id cfg s w :
  let r := start_handler id cfg s w in
  once_h s w r.1.1 r.1.2 ∧ once_e s w r.1.1 r.1.2.
Proof.
  unfold start_handler. destruct cfg as [|[|]|c];
    [apply once_both_refl| |apply once_both_refl|apply attach_handler_once].
  destruct (JsObject.get (defaultHandlers w) id) as [[em [|b|c]]|];
    first [apply once_both_refl|apply attach_handler_once].
Qed.

Lemma start_emitter_once id cfg s w :
  let r := start_emitter id cfg s w in
  once_h s w r.1.1 r.1.2 ∧ once_e s w r.1.1 r.1.2.
Proof.
  unfold start_emitter. destruct cfg as [|[|]|c];
    [apply once_both_refl| |apply once_both_refl|apply attach_emitter_once].
  destruct (JsObject.get (defaultHandlers w) id) as [[[|b|c] ha]|];
    first [apply once_both_refl|apply attach_emitter_once].
Qed.

Lemma start_entry_once s w completion id :
  let r := start_entry (s, w, completion) id in
  once_h s w r.1.1 r.1.2 ∧ once_e s w r.1.1 r.1.2.
Proof.
  unfold start_entry. destruct completion; [|apply once_both_refl].
  destruct (JsObject.get (syncConfig s) id) as [entry|];
    [|apply once_both_refl].
  pose proof (start_handler_once id (handler entry) s w) as [Hh He].
  destruct (start_handler id (handler entry) s w) as [[s1 w1] [|]];
    [|by split].
  pose proof (start_emitter_once id (emitter entry) s1 w1) as [Hh' He'].
  cbv zeta in *. cbn [fst snd] in Hh, He.
  split; eapply attaches_once_trans; eassumption.
Qed.

Lemma start_loop_once ids :
  ∀ s w completion,
  let r := fold_left start_entry ids (s, w, completion) in
  once_h s w r.1.1 r.1.2 ∧ once_e s w r.1.1 r.1.2.
Proof.
  induction ids as [|id ids IH]; intros s w completion;
    [apply once_both_refl|].
  cbv zeta.
  change (fold_left start_entry (id :: ids) (s, w, completion))
    with (fold_left start_entry ids (start_entry (s, w, completion) id)).
  pose proof (start_entry_once s w completion id) as [Hh He].
  destruct (start_entry (s, w, completion) id) as [[s1 w1] completion1].
  destruct (IH s1 w1 completion1) as [Hh' He'].
  cbv zeta in *. cbn [fst snd] in Hh, He.
  split; eapply attaches_once_trans; eassumption.
Qed.

Lemma start_once s w :
  let r := start s w in
  once_h s w r.1.1 r.1.2 ∧ once_e s w r.1.1 r.1.2.
Proof.
  unfold start.
  pose proof (start_loop_once (JsObject.keys (syncConfig s)) s w Normal)
    as [Hh He].
  destruct (fold_left _ _ _) as [[s1 w1] [|]]; [|by split].
  cbv zeta in *. cbn [fst snd] in *.
  split.
  - eapply attaches_once_trans; [exact Hh|].
    by apply (attaches_once_silent _ _ _ _ _ _ _ []);
      [|rewrite app_nil_r|intros ? []].
  - eapply attaches_once_trans; [exact He|].
    by apply (attaches_once_silent _ _ _ _ _ _ _ []);
      [|rewrite app_nil_r|intros ? []].
Qed.

Lemma handler_creates_eq id evs :
  handler_creates id evs = creates h_id handler_created id evs.
Proof.
  unfold handler_creates, creates. f_equal.
  induction evs as [|ev evs IH]; [done|]. destruct ev; simpl; by rewrite IH.
Qed.

Lemma emitter_creates_eq id evs :
  emitter_creates id evs = creates e_id emitter_created id evs.
Proof.
  unfold emitter_creates, creates. f_equal.
  induction evs as [|ev evs IH]; [done|]. destruct ev; simpl; by rewrite IH.
Qed.

Lemma events_since_app w w' evs :
  trace w' = trace w ++ evs → events_since w w' = evs.
Proof. intros H. unfold events_since. rewrite H. apply drop_app_length. Qed.

(** *** One entry per identifier *)

Lemma attach_handler_registries c s w :
  registries_ok s → registries_ok (attach_handler c s w).1.1.
Proof.
  intros [Hh He]. unfold attach_handler, new_SyncHandler. cbv zeta.
  destruct (negb _); [|done]. split; [|done].
  by apply JsObjectFacts.NoDup_keys_assign.
Qed.

Lemma attach_emitter_registries c s w :
  registries_ok s → registries_ok (attach_emitter c s w).1.1.
Proof.
  intros [Hh He]. unfold attach_emitter, new_SyncEmitter. cbv zeta.
  destruct (negb _); [|done]. split; [done|].
  by apply JsObjectFacts.NoDup_keys_assign.
Qed.

Lemma start_handler_registries id cfg s w :
  registries_ok s → registries_ok (start_handler id cfg s w).1.1.
Proof.
  intros H. unfold start_handler. destruct cfg as [|[|]|c];
    [done| |done|by apply attach_handler_registries].
  destruct (JsObject.get (defaultHandlers w) id) as [[em [|b|c]]|];
    first [done|by apply attach_handler_registries].
Qed.

Lemma start_emitter_registries id cfg s w :
  registries_ok s → registries_ok (start_emitter id cfg s w).1.1.
Proof.
  intros H. unfold start_emitter. destruct cfg as [|[|]|c];
    [done| |done|by apply attach_emitter_registries].
  destruct (JsObject.get (defaultHandlers w) id) as [[[|b|c] ha]|];
    first [done|by apply attach_emitter_registries].
Qed.

Lemma start_entry_registries s w completion id :
  registries_ok s → registries_ok (start_entry (s, w, completion) id).1.1.
Proof.
  intros H. unfold start_entry. destruct completion; [|done].
  destruct (JsObject.get (syncConfig s) id) as [entry|]; [|done].
  pose proof (start_handler_registries id (handler entry) s w H) as H1.
  destruct (start_handler id (handler entry) s w) as [[s1 w1] [|]]; [|done].
  by apply start_emitter_registries.
Qed.

Lemma start_loop_registries ids :
  ∀ s w completion,
  registries_ok s →
  registries_ok (fold_left start_entry ids (s, w, completion)).1.1.
Proof.
  induction ids as [|id ids IH]; intros s w completion H; [done|].
  change (fold_left start_entry (id :: ids) (s, w, completion))
    with (fold_left start_entry ids (start_entry (s, w, completion) id)).
  pose proof (start_entry_registries s w completion id H) as H1.
  destruct (start_entry (s, w, completion) id) as [[s1 w1] completion1].
  by apply IH.
Qed.

Lemma start_registries s w :
  registries_ok s → registries_ok (start s w).1.1.
Proof.
  intros H. unfold start.
  pose proof (start_loop_registries (JsObject.keys (syncConfig s)) s w
                Normal H) as H1.
  by destruct (fold_left _ _ _) as [[s1 w1] [|]].
Qed.

(** *** Registering *)

Lemma registered_set_eq {I} (o : JsObject.t I) id i :
  match JsObject.member (JsObject.set id i o) id with
  | JsObject.Undefined => false
  | _ => true
  end = true.
Proof. unfold JsObject.member. by rewrite JsObjectFacts.get_set_eq. Qed.

Lemma registered_set_ne {I} (o : JsObject.t I) id id' i :
  id' ≠ id →
  JsObject.member (JsObject.set id i o) id' = JsObject.member o id'.
Proof.
  intros Hne. unfold JsObject.member. by rewrite JsObjectFacts.get_set_ne.
Qed.

(** *** What start leaves alone *)

Lemma same_setup_refl s w : same_setup s w s w.
Proof. done. Qed.

Lemma same_setup_trans s1 w1 s2 w2 s3 w3 :
  same_setup s1 w1 s2 w2 → same_setup s2 w2 s3 w3 → same_setup s1 w1 s3 w3.
Proof.
  intros (H1 & H2 & H3 & H4) (H1' & H2' & H3' & H4').
  unfold same_setup. by rewrite H1', H2', H3', H4'.
Qed.

Lemma start_handler_resolve id cfg s w :
  start_handler id cfg s w
  = match resolve_handler w id cfg with
    | Disabled => (s, w, Normal)
    | Enabled c => attach_handler c s w
    | Unresolvable => (s, w, TypeError)
    end.
Proof.
  unfold start_handler, resolve_handler. destruct cfg as [|[|]|c]; try done.
  by destruct (JsObject.get (defaultHandlers w) id) as [[em [|b|c]]|].
Qed.

Lemma start_emitter_resolve id cfg s w :
  start_emitter id cfg s w
  = match resolve_emitter w id cfg with
    | Disabled => (s, w, Normal)
    | Enabled c => attach_emitter c s w
    | Unresolvable => (s, w, TypeError)
    end.
Proof.
  unfold start_emitter, resolve_emitter. destruct cfg as [|[|]|c]; try done.
  by destruct (JsObject.get (defaultHandlers w) id) as [[[|b|c] ha]|].
Qed.

Lemma resolve_handler_defaults w w' id cfg :
  defaultHandlers w' = defaultHandlers w →
  resolve_handler w' id cfg = resolve_handler w id cfg.
Proof. intros H. unfold resolve_handler. by rewrite H. Qed.

Lemma resolve_emitter_defaults w w' id cfg :
  defaultHandlers w' = defaultHandlers w →
  resolve_emitter w' id cfg = resolve_emitter w id cfg.
Proof. intros H. unfold resolve_emitter. by rewrite H. Qed.

(** What the guarded registration of a handler comes to. *)
Lemma attach_handler_cases c s w :
  let h := mkHandler (nextSerial w) c.1.1 c.1.2 c.2 in
  let r := attach_handler c s w in
  r.2 = Normal
  ∧ same_setup s w r.1.1 r.1.2
  ∧ registeredSyncEmitters r.1.1 = registeredSyncEmitters s
  ∧ isRegisteredHandler r.1.1 c.1.1 = true
  ∧ (isRegisteredHandler s c.1.1 = true →
       r.1.1 = s ∧ trace r.1.2 = trace w ++ [NewHandler h]).
Proof.
  cbv zeta. unfold attach_handler, new_SyncHandler. cbv zeta.
  cbn [h_id].
  destruct (isRegisteredHandler s c.1.1) eqn:Hreg; cbn [negb fst snd].
  - split_and!; done.
  - split_and!; [done..| |done].
    unfold isRegisteredHandler, registerSyncHandler.
    cbn [registeredSyncHandlers h_id].
    rewrite JsObjectFacts.assign_set
      by (by apply (isRegisteredHandler_false_own s)).
    apply registered_set_eq.
Qed.

Lemma attach_emitter_cases c s w :
  let e := mkEmitter (nextSerial w) c.1 c.2 in
  let r := attach_emitter c s w in
  r.2 = Normal
  ∧ same_setup s w r.1.1 r.1.2
  ∧ registeredSyncHandlers r.1.1 = registeredSyncHandlers s
  ∧ isRegisteredEmitter r.1.1 c.1 = true
  ∧ (isRegisteredEmitter s c.1 = true →
       r.1.1 = s ∧ trace r.1.2 = trace w ++ [NewEmitter e]).
Proof.
  cbv zeta. unfold attach_emitter, new_SyncEmitter. cbv zeta.
  cbn [e_id].
  destruct (isRegisteredEmitter s c.1) eqn:Hreg; cbn [negb fst snd].
  - split_and!; done.
  - split_and!; [done..| |done].
    unfold isRegisteredEmitter, registerSyncEmitter.
    cbn [registeredSyncEmitters e_id].
    rewrite JsObjectFacts.assign_set
      by (by apply (isRegisteredEmitter_false_own s)).
    apply registered_set_eq.
Qed.

Lemma start_handler_setup id cfg s w :
  same_setup s w (start_handler id cfg s w).1.1 (start_handler id cfg s w).1.2.
Proof.
  rewrite start_handler_resolve.
  destruct (resolve_handler w id cfg) as [|c|]; [done| |done].
  apply attach_handler_cases.
Qed.

Lemma start_emitter_setup id cfg s w :
  same_setup s w (start_emitter id cfg s w).1.1 (start_emitter id cfg s w).1.2.
Proof.
  rewrite start_emitter_resolve.
  destruct (resolve_emitter w id cfg) as [|c|]; [done| |done].
  apply attach_emitter_cases.
Qed.

Lemma start_entry_setup s w completion id :
  same_setup s w (start_entry (s, w, completion) id).1.1
             (start_entry (s, w, completion) id).1.2.
Proof.
  unfold start_entry. destruct completion; [|done].
  destruct (JsObject.get (syncConfig s) id) as [entry|]; [|done].
  pose proof (start_handler_setup id (handler entry) s w) as H1.
  destruct (start_handler id (handler entry) s w) as [[s1 w1] [|]]; [|done].
  pose proof (start_emitter_setup id (emitter entry) s1 w1) as H2.
  by apply (same_setup_trans _ _ s1 w1).
Qed.

Lemma start_loop_setup ids :
  ∀ s w completion,
  same_setup s w (fold_left start_entry ids (s, w, completion)).1.1
             (fold_left start_entry ids (s, w, completion)).1.2.
Proof.
  induction ids as [|id ids IH]; intros s w completion; [done|].
  change (fold_left start_entry (id :: ids) (s, w, completion))
    with (fold_left start_entry ids (start_entry (s, w, completion) id)).
  pose proof (start_entry_setup s w completion id) as H1.
  destruct (start_entry (s, w, completion) id) as [[s1 w1] completion1].
  by apply (same_setup_trans _ _ s1 w1).
Qed.

Lemma start_loop_thrown ids s w :
  fold_left start_entry ids (s, w, TypeError) = (s, w, TypeError).
Proof. induction ids as [|id ids IH]; [done|]. simpl. apply IH. Qed.

Lemma entry_startable_ext s w s' w' id :
  syncConfig s' = syncConfig s → defaultHandlers w' = defaultHandlers w →
  entry_startable s' w' id = entry_startable s w id.
Proof.
  intros Hcfg Hdef. unfold entry_startable. rewrite Hcfg.
  destruct (JsObject.get (syncConfig s) id) as [entry|]; [|done].
  by rewrite (resolve_handler_defaults w w'), (resolve_emitter_defaults w w').
Qed.

Lemma entry_startable_setup s w s' w' id :
  same_setup s w s' w' → entry_startable s' w' id = entry_startable s w id.
Proof. intros (Hcfg & _ & _ & Hdef). by apply entry_startable_ext. Qed.

(** *** Which instances are attached *)

Section AttachmentFacts.
Context {I : Type}.
Variable reg : Sync → JsObject.t I.
Variable iid : I → string.
Variable created made : Event → option I.

Lemma makes_app id evs1 evs2 :
  makes iid made id (evs1 ++ evs2)
  = makes iid made id evs1 + makes iid made id evs2.
Proof. unfold makes. by rewrite List.filter_app, length_app. Qed.

Lemma makes_none id evs :
  (∀ ev, In ev evs → made ev = None) → makes iid made id evs = 0.
Proof.
  unfold makes. induction evs as [|ev evs IH]; intros Hnone; [done|].
  simpl. rewrite (Hnone ev) by (by left). apply IH.
  intros ev' Hin. apply Hnone. by right.
Qed.

Lemma attaches_fresh_refl s w :
  attaches_fresh reg iid created made s w s w.
Proof.
  exists []. rewrite app_nil_r. split; [done|]. intros id.
  unfold creates, makes. simpl. by rewrite orb_false_r.
Qed.

Lemma attaches_fresh_trans s1 w1 s2 w2 s3 w3 :
  attaches_fresh reg iid created made s1 w1 s2 w2 →
  attaches_fresh reg iid created made s2 w2 s3 w3 →
  attaches_fresh reg iid created made s1 w1 s3 w3.
Proof.
  intros (evs1 & Htr1 & H1) (evs2 & Htr2 & H2). exists (evs1 ++ evs2).
  split; [by rewrite Htr2, Htr1, app_assoc|]. intros id.
  destruct (H1 id) as [Hc1 Hr1]. destruct (H2 id) as [Hc2 Hr2].
  rewrite creates_app, makes_app, Hc1, Hc2, Hr2, Hr1.
  destruct (registered reg s1 id);
    destruct (makes iid made id evs1) as [|n1];
    destruct (makes iid made id evs2) as [|n2]; done.
Qed.

(** A step that makes and attaches nothing of this kind. *)
Lemma attaches_fresh_silent s w s' w' evs :
  reg s' = reg s → trace w' = trace w ++ evs →
  (∀ ev, In ev evs → created ev = None ∧ made ev = None) →
  attaches_fresh reg iid created made s w s' w'.
Proof.
  intros Hreg Htr Hnone. exists evs. split; [done|]. intros id.
  rewrite creates_none, makes_none by (intros ev Hin; by apply Hnone).
  unfold registered. rewrite Hreg. by rewrite orb_false_r.
Qed.

(** A step that makes an instance of an identifier that reads as
    registered, and drops it. *)
Lemma attaches_fresh_skip s w s' w' ev i :
  registered reg s (iid i) = true →
  reg s' = reg s → trace w' = trace w ++ [ev] →
  made ev = Some i → created ev = None →
  attaches_fresh reg iid created made s w s' w'.
Proof.
  intros Hregd Hreg Htr Hmade Hcreated. exists [ev]. split; [done|].
  intros id. unfold creates, makes, registered in *. simpl.
  rewrite Hmade, Hcreated, Hreg.
  destruct (String.eqb_spec (iid i) id) as [<-|Hne]; simpl.
  - by rewrite Hregd.
  - by rewrite orb_false_r.
Qed.

(** A step that makes an instance of an identifier that does not read as
    registered, registers it and calls its [create]. *)
Lemma attaches_fresh_register s w s' w' ev ev' i :
  registered reg s (iid i) = false →
  reg s' = JsObject.set (iid i) i (reg s) →
  trace w' = trace w ++ [ev; ev'] →
  made ev = Some i → created ev = None →
  made ev' = None → created ev' = Some i →
  attaches_fresh reg iid created made s w s' w'.
Proof.
  intros Hregd Hreg Htr Hmade Hcreated Hmade' Hcreated'.
  exists [ev; ev']. split; [done|].
  intros id. unfold creates, makes, registered in *. simpl.
  rewrite Hmade, Hcreated, Hmade', Hcreated', Hreg.
  destruct (String.eqb_spec (iid i) id) as [<-|Hne]; simpl.
  - rewrite Hregd. split; [done|]. apply registered_set_eq.
  - rewrite registered_set_ne by done. by rewrite orb_false_r.
Qed.

End AttachmentFacts.

Lemma handlers_made_eq id evs :
  handlers_made id evs = makes h_id handler_made id evs.
Proof.
  unfold handlers_made, makes. f_equal.
  induction evs as [|ev evs IH]; [done|]. destruct ev; simpl; by rewrite IH.
Qed.

Lemma emitters_made_eq id evs :
  emitters_made id evs = makes e_id emitter_made id evs.
Proof.
  unfold emitters_made, makes. f_equal.
  induction evs as [|ev evs IH]; [done|]. destruct ev; simpl; by rewrite IH.
Qed.

Lemma fresh_both_refl s w : fresh_h s w s w ∧ fresh_e s w s w.
Proof. split; apply attaches_fresh_refl. Qed.

Lemma attach_handler_fresh c s w :
  let r := attach_handler c s w in
  fresh_h s w r.1.1 r.1.2 ∧ fresh_e s w r.1.1 r.1.2.
Proof.
  unfold attach_handler, new_SyncHandler. cbv zeta.
  set (h := mkHandler (nextSerial w) c.1.1 c.1.2 c.2).
  destruct (isRegisteredHandler s (h_id h)) eqn:E; cbn [negb fst snd]; split.
  - by apply (attaches_fresh_skip _ _ _ _ _ _ _ _ (NewHandler h) h).
  - by apply (attaches_fresh_silent _ _ _ _ _ _ _ _ [NewHandler h]);
      [..|intros ev [<-|[]]].
  - apply (attaches_fresh_register _ _ _ _ _ _ _ _ (NewHandler h)
             (HandlerCreate h (component s)) h); try done.
    + cbn [registeredSyncHandlers registerSyncHandler].
      apply JsObjectFacts.assign_set.
      by apply (isRegisteredHandler_false_own s).
    + simpl. by rewrite <- app_assoc.
  - apply (attaches_fresh_silent _ _ _ _ _ _ _ _
             [NewHandler h; HandlerCreate h (component s)]).
    + done.
    + simpl. by rewrite <- app_assoc.
    + by intros ev [<-|[<-|[]]].
Qed.

Lemma attach_emitter_fresh c s w :
  let r := attach_emitter c s w in
  fresh_h s w r.1.1 r.1.2 ∧ fresh_e s w r.1.1 r.1.2.
Proof.
  unfold attach_emitter, new_SyncEmitter. cbv zeta.
  set (e := mkEmitter (nextSerial w) c.1 c.2).
  destruct (isRegisteredEmitter s (e_id e)) eqn:E; cbn [negb fst snd]; split.
  - by apply (attaches_fresh_silent _ _ _ _ _ _ _ _ [NewEmitter e]);
      [..|intros ev [<-|[]]].
  - by apply (attaches_fresh_skip _ _ _ _ _ _ _ _ (NewEmitter e) e).
  - apply (attaches_fresh_silent _ _ _ _ _ _ _ _
             [NewEmitter e; EmitterCreate e (component s)]).
    + done.
    + simpl. by rewrite <- app_assoc.
    + by intros ev [<-|[<-|[]]].
  - apply (attaches_fresh_register _ _ _ _ _ _ _ _ (NewEmitter e)
             (EmitterCreate e (component s)) e); try done.
    + cbn [registeredSyncEmitters registerSyncEmitter].
      apply JsObjectFacts.assign_set.
      by apply (isRegisteredEmitter_false_own s).
    + simpl. by rewrite <- app_assoc.
Qed.

Lemma start_entry_fresh s w completion id :
  let r := start_entry (s, w, completion) id in
  fresh_h s w r.1.1 r.1.2 ∧ fresh_e s w r.1.1 r.1.2.
Proof.
  unfold start_entry. destruct completion; [|apply fresh_both_refl].
  destruct (JsObject.get (syncConfig s) id) as [entry|];
    [|apply fresh_both_refl].
  assert (fresh_h s w (start_handler id (handler entry) s w).1.1
                  (start_handler id (handler entry) s w).1.2
          ∧ fresh_e s w (start_handler id (handler entry) s w).1.1
                    (start_handler id (handler entry) s w).1.2) as [Hh He].
  { rewrite start_handler_resolve.
    destruct (resolve_handler w id (handler entry));
      first [apply fresh_both_refl|apply attach_handler_fresh]. }
  destruct (start_handler id (handler entry) s w) as [[s1 w1] [|]];
    [|by split].
  assert (fresh_h s1 w1 (start_emitter id (emitter entry) s1 w1).1.1
                  (start_emitter id (emitter entry) s1 w1).1.2
          ∧ fresh_e s1 w1 (start_emitter id (emitter entry) s1 w1).1.1
                    (start_emitter id (emitter entry) s1 w1).1.2)
    as [Hh' He'].
  { rewrite start_emitter_resolve.
    destruct (resolve_emitter w1 id (emitter entry));
      first [apply fresh_both_refl|apply attach_emitter_fresh]. }
  cbv zeta. cbn [fst snd] in Hh, He.
  split; eapply attaches_fresh_trans; eassumption.
Qed.

Lemma start_loop_fresh ids :
  ∀ s w completion,
  let r := fold_left start_entry ids (s, w, completion) in
  fresh_h s w r.1.1 r.1.2 ∧ fresh_e s w r.1.1 r.1.2.
Proof.
  induction ids as [|id ids IH]; intros s w completion;
    [apply fresh_both_refl|].
  cbv zeta.
  change (fold_left start_entry (id :: ids) (s, w, completion))
    with (fold_left start_entry ids (start_entry (s, w, completion) id)).
  pose proof (start_entry_fresh s w completion id) as [Hh He].
  destruct (start_entry (s, w, completion) id) as [[s1 w1] completion1].
  destruct (IH s1 w1 completion1) as [Hh' He'].
  cbv zeta in *. cbn [fst snd] in Hh, He.
  split; eapply attaches_fresh_trans; eassumption.
Qed.

Lemma start_fresh s w :
  let r := start s w in
  fresh_h s w r.1.1 r.1.2 ∧ fresh_e s w r.1.1 r.1.2.
Proof.
  unfold start.
  pose proof (start_loop_fresh (JsObject.keys (syncConfig s)) s w Normal)
    as [Hh He].
  destruct (fold_left _ _ _) as [[s1 w1] [|]]; [|by split].
  cbv zeta in *. cbn [fst snd] in *.
  split.
  - eapply attaches_fresh_trans; [exact Hh|].
    by apply (attaches_fresh_silent _ _ _ _ _ _ _ _ []);
      [|rewrite app_nil_r|intros ? []].
  - eapply attaches_fresh_trans; [exact He|].
    by apply (attaches_fresh_silent _ _ _ _ _ _ _ _ []);
      [|rewrite app_nil_r|intros ? []].
Qed.

(** *** Which instances are made *)

Lemma handlers_built_app evs1 evs2 :
  handlers_built (evs1 ++ evs2) = handlers_built evs1 ++ handlers_built evs2.
Proof. apply omap_app. Qed.

Lemma emitters_built_app evs1 evs2 :
  emitters_built (evs1 ++ evs2) = emitters_built evs1 ++ emitters_built evs2.
Proof. apply omap_app. Qed.

(** The guarded registration of a handler makes one handler, from the
    tuple, and no emitter. *)
Lemma attach_handler_builds c s w :
  ∃ evs, trace (attach_handler c s w).1.2 = trace w ++ evs
    ∧ handlers_built evs = [c] ∧ emitters_built evs = [].
Proof.
  unfold attach_handler, new_SyncHandler. cbv zeta.
  destruct c as [[id trigger] func].
  destruct (negb _); cbn [fst snd log trace].
  - eexists. split; [by rewrite <- app_assoc|]. done.
  - eexists. split; [done|]. done.
Qed.

Lemma attach_emitter_builds c s w :
  ∃ evs, trace (attach_emitter c s w).1.2 = trace w ++ evs
    ∧ handlers_built evs = [] ∧ emitters_built evs = [c].
Proof.
  unfold attach_emitter, new_SyncEmitter. cbv zeta.
  destruct c as [id func].
  destruct (negb _); cbn [fst snd log trace].
  - eexists. split; [by rewrite <- app_assoc|]. done.
  - eexists. split; [done|]. done.
Qed.

Lemma wanted_setup s w s' w' id :
  same_setup s w s' w' →
  wanted_handler s' w' id = wanted_handler s w id
  ∧ wanted_emitter s' w' id = wanted_emitter s w id.
Proof.
  intros (Hcfg & _ & _ & Hdef). unfold wanted_handler, wanted_emitter.
  rewrite Hcfg. destruct (JsObject.get (syncConfig s) id); [|done].
  by rewrite (resolve_handler_defaults w), (resolve_emitter_defaults w).
Qed.

(** An entry that is started without an exception has its handler made,
    and its emitter, when it asks for them. *)
Lemma start_entry_builds s w id :
  (start_entry (s, w, Normal) id).2 = Normal →
  ∃ evs, trace (start_entry (s, w, Normal) id).1.2 = trace w ++ evs
    ∧ handlers_built evs = option_list (wanted_handler s w id)
    ∧ emitters_built evs = option_list (wanted_emitter s w id).
Proof.
  unfold start_entry, wanted_handler, wanted_emitter.
  destruct (JsObject.get (syncConfig s) id) as [entry|]; [|done].
  rewrite start_handler_resolve.
  pose proof (start_handler_setup id (handler entry) s w) as Hsetup.
  rewrite start_handler_resolve in Hsetup.
  assert (∀ s1 w1 evs1,
            defaultHandlers w1 = defaultHandlers w →
            trace w1 = trace w ++ evs1 → emitters_built evs1 = [] →
            (start_emitter id (emitter entry) s1 w1).2 = Normal →
            ∃ evs, trace (start_emitter id (emitter entry) s1 w1).1.2
                   = trace w ++ evs
              ∧ handlers_built evs = handlers_built evs1
              ∧ emitters_built evs
                = option_list match resolve_emitter w id (emitter entry) with
                              | Enabled c => Some c
                              | _ => None
                              end) as Hemitter.
  { intros s1 w1 evs1 Hdef Htr Hnone. rewrite start_emitter_resolve.
    rewrite (resolve_emitter_defaults w w1) by done.
    destruct (resolve_emitter w id (emitter entry)) as [|c|]; [| |done].
    - intros _. exists evs1. by rewrite Hnone.
    - intros _. destruct (attach_emitter_builds c s1 w1)
        as (evs2 & Htr2 & Hh2 & He2).
      exists (evs1 ++ evs2). rewrite Htr2, Htr, app_assoc.
      rewrite handlers_built_app, emitters_built_app, Hh2, He2, Hnone.
      by rewrite app_nil_r. }
  destruct (resolve_handler w id (handler entry)) as [|c|]; [| |done].
  - intros Hn. destruct (Hemitter s w []) as (evs & Htr & Hh & He);
      [done|by rewrite app_nil_r|done|done|].
    by exists evs.
  - destruct (attach_handler_builds c s w) as (evs1 & Htr1 & Hh1 & He1).
    destruct (attach_handler_cases c s w) as (Hn1 & _).
    cbv zeta in Hn1.
    destruct (attach_handler c s w) as [[s1 w1] c1]. cbn [fst snd] in *.
    subst c1. intros Hn.
    destruct (Hemitter s1 w1 evs1) as (evs & Htr & Hh & He);
      [apply Hsetup|done..|].
    exists evs. by rewrite Hh, Hh1.
Qed.

Lemma start_loop_builds ids :
  ∀ s w,
  (fold_left start_entry ids (s, w, Normal)).2 = Normal →
  ∃ evs, trace (fold_left start_entry ids (s, w, Normal)).1.2 = trace w ++ evs
    ∧ handlers_built evs = omap (wanted_handler s w) ids
    ∧ emitters_built evs = omap (wanted_emitter s w) ids.
Proof.
  induction ids as [|id ids IH]; intros s w.
  { intros _. exists []. by rewrite app_nil_r. }
  change (fold_left start_entry (id :: ids) (s, w, Normal))
    with (fold_left start_entry ids (start_entry (s, w, Normal) id)).
  pose proof (start_entry_builds s w id) as Hhead.
  pose proof (start_entry_setup s w Normal id) as Hsetup.
  destruct (start_entry (s, w, Normal) id) as [[s1 w1] [|]];
    [|by rewrite start_loop_thrown].
  cbn [fst snd] in Hhead, Hsetup. intros Hn.
  destruct (Hhead eq_refl) as (evs1 & Htr1 & Hh1 & He1).
  destruct (IH s1 w1 Hn) as (evs2 & Htr2 & Hh2 & He2).
  assert (∀ l : list string,
            omap (wanted_handler s1 w1) l = omap (wanted_handler s w) l)
    as Eh.
  { induction l as [|id' l IHl]; [done|]. simpl.
    destruct (wanted_setup s w s1 w1 id' Hsetup) as [-> _].
    destruct (wanted_handler s w id'); [f_equal|]; exact IHl. }
  assert (∀ l : list string,
            omap (wanted_emitter s1 w1) l = omap (wanted_emitter s w) l)
    as Ee.
  { induction l as [|id' l IHl]; [done|]. simpl.
    destruct (wanted_setup s w s1 w1 id' Hsetup) as [_ ->].
    destruct (wanted_emitter s w id'); [f_equal|]; exact IHl. }
  rewrite Eh in Hh2. rewrite Ee in He2.
  exists (evs1 ++ evs2). rewrite Htr2, Htr1, app_assoc.
  rewrite handlers_built_app, emitters_built_app, Hh1, He1, Hh2, He2.
  split; [done|]. simpl.
  by destruct (wanted_handler s w id), (wanted_emitter s w id).
Qed.

(** A [start] that runs to its end has made one handler for every entry
    that asks for one, and one emitter likewise, in the order of the
    entries, whether their identifiers were registered or not. *)
Lemma start_builds s w :
  (start s w).2 = Normal →
  ∃ evs, trace (start s w).1.2 = trace w ++ evs
    ∧ handlers_built evs
      = omap (wanted_handler s w) (JsObject.keys (syncConfig s))
    ∧ emitters_built evs
      = omap (wanted_emitter s w) (JsObject.keys (syncConfig s)).
Proof.
  unfold start.
  pose proof (start_loop_builds (JsObject.keys (syncConfig s)) s w) as H.
  destruct (fold_left _ _ _) as [[s1 w1] [|]]; [|done].
  intros _. by apply H.
Qed.

End SyncFacts.

Module EditToolbarFacts.
Import EditToolbar.

Lemma defined_is_Some {A} (x : option A) : defined x = bool_decide (is_Some x).
Proof. by destruct x. Qed.

(** An absent coordinate is the off-screen position. *)
Lemma px_absent : px None = "-9999px".
Proof. done. Qed.

(** [setPosition] writes both offsets of a container that exists. *)
Lemma setPosition_container x y toolbar style :
  container toolbar = Some style →
  container (setPosition x y toolbar) = Some (mkStyle (px x) (px y)).
Proof. intros H. unfold setPosition. by rewrite H. Qed.

End EditToolbarFacts.

(** * The claims of the specification *)

Module TableClaims.
Import JsArray JsArrayFacts DataTableCore DataTableCoreFacts.

(** C1: the specification has [setColumns] set [rowCount] to the largest
    length among the columns it is given.  The code keeps the length of the
    column it enumerates last: for [{ a: [1,2,3], b: [1] }] the largest
    length is 3, the row count becomes 1, and column [a] is cut down to its
    first row. *)
Theorem setColumns_keeps_last_length :
  let w := mkWorld [num_column [1; 2; 3]; num_column [1]]%Z 0 [] in
  let t0 := constructor (mkOptions None None) w in
  let r := setColumns t0.1 [("a", 0); ("b", 1)] None None t0.2 in
  max_list_with (λ e : string * nat, length (deref w e.2))
                [("a", 0); ("b", 1)] = 3
  ∧ rowCount r.1 = 1
  ∧ getRow r.1 r.2 0 (Some ["a"; "b"]) = [CNum 1; CNum 1]
  ∧ getRow r.1 r.2 1 (Some ["a"; "b"]) = [CUndefined; CUndefined].
Proof. by vm_compute. Qed.

(** C2: the specification has every column as long as the row count after
    every operation.  [setRow] breaks that when it makes a column for a row
    inside the table: on the table [{ a: [1,2,3] }], whose one column has
    three slots, [setRow({ b: 9 }, 0)] makes column [b] an array of one slot
    while the row count stays 3.  Every other path keeps the lengths
    ([lengths_ok_kept]). *)
Theorem setRow_makes_short_column :
  let r := setRow table_a.1 [("b", CNum 9)] (Some 0) None None table_a.2 in
  lengths_ok table_a.1 table_a.2
  ∧ rowCount r.1 = 3
  ∧ (deref r.2 <$> getColumn r.1 "b") = Some [CNum 9]
  ∧ ¬ lengths_ok r.1 r.2.
Proof.
  cbv zeta. split_and!.
  - apply constructor_lengths_ok.
  - by vm_compute.
  - by vm_compute.
  - intros H. vm_compute in H.
    inversion H as [|? ? _ Htail]. inversion Htail as [|? ? Hb _].
    discriminate Hb.
Qed.

(** C3 (amended): on a table whose columns are distinct arrays of
    [rowCount] slots, [setRow] with [insert] at a row index that is at most
    [rowCount] ends normally, puts each given cell at that index of its
    column, leaves the cells before it, moves the cells from it on down by
    one, and makes the row count one larger.  No name of a column and no
    key of the row object is a name that objects inherit from
    [Object.prototype]: under such a name [setRow] finds what is no array,
    and throws. *)
Theorem setRow_insert_shifts_rows t row i ed w :
  no_sharing t → lengths_ok t w → NoDup (JsObject.keys row) →
  Forall (λ k, JsObject.inherited k = false) (JsObject.keys (columns t)) →
  Forall (λ k, JsObject.inherited k = false) (JsObject.keys row) →
  i ≤ rowCount t →
  let r := setRow t row (Some i) (Some true) ed w in
  setRow_completion t row (Some i) (Some true) ed w = Normal
  ∧ rowCount r.1 = rowCount t + 1
  ∧ ∀ name v, JsObject.get row name = Some v →
      cellAt r.1 r.2 name i = v
      ∧ (∀ j, j < i → cellAt r.1 r.2 name j = cellAt t w name j)
      ∧ (∀ j, i ≤ j → cellAt r.1 r.2 name (j + 1) = cellAt t w name j).
Proof.
  intros Hshare Hok Hkeys _ Hown Hi. cbv zeta.
  split; [unfold setRow_completion; by rewrite setRow_run_eq by (by right)|].
  rewrite setRow_eq by (by right). cbv zeta.
  simpl default. cbv iota.
  assert ((rowCount t <? rowCount t + 1) = true) as ->
    by (apply Nat.ltb_lt; lia).
  set (rc := rowCount t) in *.
  set (r := row_loop i (rc + 1) true row (columns t, w)).
  rewrite applyRowCount_eq. cbn [fst snd].
  destruct (notify_frame "afterSetRows" ed
              (with_rowCount (rc + 1) (with_columns r.1 t))
              (resize_all (rc + 1) (columns (with_columns r.1 t)) r.2))
    as (Hcols & Hrc & _).
  split; [by rewrite Hrc|]. intros name v Hget.
  pose proof (lengths_ok_valid _ _ Hok) as Hval.
  destruct (row_loop_spec i (rc + 1) true row (columns t) w Hkeys Hshare Hval)
    as (_ & _ & _ & Hnamed).
  destruct (Hnamed name v (JsObjectFacts.get_Some_In _ _ _ Hget))
    as (l & Hl & Hlt & Hcontent).
  fold r in Hl, Hlt, Hcontent.
  (* the column before the call, as [setRow] sees it *)
  set (c := match JsObject.get (columns t) name with
            | Some l0 => deref w l0
            | None => new_Array (rc + 1)
            end).
  assert (deref r.2 l = splice_insert i v c) as Hc.
  { unfold c. destruct (JsObject.get (columns t) name); by destruct Hcontent. }
  assert (i ≤ length c) as Hic.
  { unfold c. destruct (JsObject.get (columns t) name) as [l0|] eqn:E.
    - unfold lengths_ok in Hok. rewrite List.Forall_forall in Hok.
      specialize (Hok l0 (getColumn_In_refs _ _ _ E)).
      destruct (arrays w !! l0) as [c0|] eqn:E0; [|done].
      rewrite (lookup_deref _ _ _ E0). injection Hok as ->. done.
    - rewrite length_new_Array. lia. }
  assert (∀ j, at_index c j = cellAt t w name j) as Hold.
  { intros j. unfold c, cellAt, getColumn.
    destruct (JsObject.get (columns t) name); [done|].
    apply at_index_new_Array. }
  assert (∀ j, cellAt
                 (notify "afterSetRows" ed
                    (with_rowCount (rc + 1) (with_columns r.1 t))
                    (resize_all (rc + 1) (columns (with_columns r.1 t)) r.2)).1
                 (notify "afterSetRows" ed
                    (with_rowCount (rc + 1) (with_columns r.1 t))
                    (resize_all (rc + 1) (columns (with_columns r.1 t)) r.2)).2
                 name j
               = at_index (set_length (rc + 1) (splice_insert i v c)) j)
    as Hnew.
  { intros j. rewrite notify_cellAt. unfold cellAt, getColumn. simpl.
    rewrite Hl. rewrite resize_all_member; [by rewrite Hc| |done].
    apply in_map_iff. exists (name, l). split; [done|].
    by apply JsObjectFacts.get_Some_In. }
  split_and!.
  - rewrite Hnew, at_index_set_length by lia.
    by apply at_index_splice_insert_eq.
  - intros j Hj. rewrite Hnew, at_index_set_length by lia.
    rewrite <- Hold. by apply at_index_splice_insert_lt.
  - intros j Hj. rewrite Hnew, <- Hold.
    destruct (decide (j < rc)) as [Hlt'|Hge].
    + rewrite at_index_set_length by lia.
      by apply at_index_splice_insert_gt.
    + rewrite at_index_ge by (rewrite length_set_length; lia).
      symmetry. unfold c.
      destruct (JsObject.get (columns t) name) as [l0|] eqn:E.
      * apply at_index_ge.
        unfold lengths_ok in Hok. rewrite List.Forall_forall in Hok.
        specialize (Hok l0 (getColumn_In_refs _ _ _ E)).
        destruct (arrays w !! l0) as [c0|] eqn:E0; [|done].
        rewrite (lookup_deref _ _ _ E0). injection Hok as ->. fold rc. lia.
      * apply at_index_new_Array.
Qed.

Lemma setRow_insert_shifts_rows_witness :
  let r := setRow table_ab.1 [("a", CNum 5); ("c", CNum 6)] (Some 1) (Some true)
                  None table_ab.2 in
  setRow_completion table_ab.1 [("a", CNum 5); ("c", CNum 6)] (Some 1)
                    (Some true) None table_ab.2 = Normal
  ∧ rowCount r.1 = rowCount table_ab.1 + 1
  ∧ ∀ name v, JsObject.get [("a", CNum 5); ("c", CNum 6)] name = Some v →
      cellAt r.1 r.2 name 1 = v
      ∧ (∀ j, j < 1 → cellAt r.1 r.2 name j = cellAt table_ab.1 table_ab.2 name j)
      ∧ (∀ j, 1 ≤ j →
           cellAt r.1 r.2 name (j + 1) = cellAt table_ab.1 table_ab.2 name j).
Proof.
  apply (setRow_insert_shifts_rows table_ab.1 [("a", CNum 5); ("c", CNum 6)]
           1 None table_ab.2).
  - unfold no_sharing. apply (bool_decide_unpack _). by vm_compute.
  - apply constructor_lengths_ok.
  - apply (bool_decide_unpack _). by vm_compute.
  - vm_compute. repeat constructor.
  - repeat constructor.
  - vm_compute. lia.
Defined.

(** C3, as stated, fails for a row index after [rowCount]: on the table
    [{ a: [1,2], b: [3,4] }], [setRow({ a: 9 }, 5, true)] puts 9 at row 2,
    and row 5 of column [a] holds nothing.  It also fails on a column that
    is shorter than the row index: after [setRow({ b: 9 }, 0)] on
    [{ a: [1,2,3] }], [setRow({ b: 7 }, 2, true)] puts 7 at row 1.  And it
    fails for a row object with a key that objects inherit:
    [setRow({ constructor: 9 }, 0, true)] throws a [TypeError], and the row
    count stays 2. *)
Lemma setRow_insert_past_end_appends :
  let r := setRow table_ab.1 [("a", CNum 9)] (Some 5) (Some true) None
                  table_ab.2 in
  let short := setRow table_a.1 [("b", CNum 9)] (Some 0) None None
                      table_a.2 in
  let r' := setRow short.1 [("b", CNum 7)] (Some 2) (Some true) None short.2 in
  let thrown := setRow_run table_ab.1 [("constructor", CNum 9)] (Some 0)
                           (Some true) None table_ab.2 in
  (rowCount r.1 = 3
   ∧ cellAt r.1 r.2 "a" 2 = CNum 9
   ∧ cellAt r.1 r.2 "a" 5 ≠ CNum 9)
  ∧ (rowCount short.1 = 3
     ∧ cellAt r'.1 r'.2 "b" 1 = CNum 7
     ∧ cellAt r'.1 r'.2 "b" 2 ≠ CNum 7)
  ∧ (thrown.2 = TypeError
     ∧ rowCount thrown.1.1 = 2
     ∧ fired thrown.1.2 = []).
Proof. cbv zeta. split_and!; by vm_compute. Qed.

(** C4: [setColumns] with a silent event detail keeps the version tag and
    fires nothing; otherwise it fires [afterSetColumns] once and takes as
    version tag the key that [uniqueKey] returns next, which differs from
    the tag the table had when that one was a key [uniqueKey] returned. *)
Theorem setColumns_silent_versionTag t cols ri ed w :
  let r := setColumns t cols ri ed w in
  (is_silent ed = true →
     versionTag r.1 = versionTag t ∧ fired r.2 = fired w
     ∧ keyCounter r.2 = keyCounter w)
  ∧ (is_silent ed = false →
       versionTag r.1 = keyCounter w
       ∧ keyCounter r.2 = S (keyCounter w)
       ∧ fired r.2 = fired w ++ ["afterSetColumns"]
       ∧ (tag_issued t w → versionTag r.1 ≠ versionTag t)).
Proof.
  cbv zeta. rewrite setColumns_eq. cbv zeta.
  destruct (setColumns_body_frame t cols w) as (Hv & Hk & Hf).
  cbv zeta in Hv, Hk, Hf.
  match goal with |- context [notify ?ty ed ?t1 ?w1] =>
    destruct (notify_versionTag ty ed t1 w1) as [Hs Hn] end.
  rewrite Hv, Hk, Hf in *. split; [done|].
  intros Hsil. destruct (Hn Hsil) as (Htag & Hfired & Hkey).
  split_and!; [done..|]. unfold tag_issued. lia.
Qed.

Lemma setColumns_silent_versionTag_witness :
  (versionTag (setColumns table_ab.1 [("c", 0)] None (Some (mkDetail true))
                          table_ab.2).1
   = versionTag table_ab.1)
  ∧ (versionTag (setColumns table_ab.1 [("c", 0)] None None table_ab.2).1
     ≠ versionTag table_ab.1).
Proof.
  split.
  - apply (proj1 (setColumns_silent_versionTag table_ab.1 [("c", 0)] None
                    (Some (mkDetail true)) table_ab.2)).
    reflexivity.
  - apply (proj2 (setColumns_silent_versionTag table_ab.1 [("c", 0)] None
                    None table_ab.2)).
    + reflexivity.
    + vm_compute. lia.
Defined.



(** C7: on the table [{ a: [1,2], b: [3,4] }], [setRow({ a: 5, b: 6 })]
    writes row 2: afterwards column [a] is [[1,2,5]] and the row count
    is 3. *)
Theorem setRow_default_index_appends :
  let r := setRow table_ab.1 [("a", CNum 5); ("b", CNum 6)] None None None
                  table_ab.2 in
  (map (λ l, arrays table_ab.2 !! l) (table_refs table_ab.1)
   = [Some (num_column [1; 2]); Some (num_column [3; 4])]%Z)
  ∧ (deref r.2 <$> getColumn r.1 "a") = Some (num_column [1; 2; 5]%Z)
  ∧ rowCount r.1 = 3
  ∧ getRow r.1 r.2 2 None = [CNum 5; CNum 6].
Proof. cbv zeta. split_and!; by vm_compute. Qed.





End TableClaims.

Module SyncClaims.
Import Sync SyncFacts.




End SyncClaims.

Module ToolbarClaims.
Import EditToolbar EditToolbarFacts.

(** C9: after [setPosition(x, y)] the toolbar is visible exactly when both
    coordinates are present, and [hide()] is [setPosition(undefined,
    undefined)], after which the toolbar is not visible. *)
Theorem setPosition_isVisible x y toolbar :
  isVisible (setPosition x y toolbar) = bool_decide (is_Some x ∧ is_Some y)
  ∧ hide toolbar = setPosition None None toolbar
  ∧ isVisible (hide toolbar) = false.
Proof.
  split_and!; [|done..]. unfold setPosition. cbn [isVisible].
  rewrite !defined_is_Some. by destruct x, y.
Qed.

End ToolbarClaims.

(** * Further properties of the code *)

Module TableExtras.
Import JsArray JsArrayFacts DataTableCore DataTableCoreFacts.

(** *** More on the loop of setRow *)

(** A column after the loop is a column from before it or a new array. *)
Lemma row_loop_get_cases i n ins row :
  ∀ cols w name l,
  JsObject.get (row_loop i n ins row (cols, w)).1 name = Some l →
  JsObject.get cols name = Some l ∨ length (arrays w) ≤ l.
Proof.
  induction row as [|[k v] row IH]; intros cols w name l; [by left|].
  rewrite row_loop_cons.
  destruct (JsObject.get cols k) as [l0|] eqn:E.
  - rewrite (setRow_write_existing _ _ _ _ _ _ _ l0) by done.
    intros H. apply IH in H. by rewrite length_arrays_update in H.
  - rewrite setRow_write_new by done. intros H. apply IH in H.
    rewrite length_arrays_update, length_arrays_alloc in H.
    destruct H as [H|H]; [|right; lia].
    destruct (decide (name = k)) as [->|Hne].
    + rewrite JsObjectFacts.get_set_eq in H. injection H as <-. by right.
    + rewrite JsObjectFacts.get_set_ne in H by done. by left.
Qed.

(** Without [insert], an array that the loop makes is empty but for
    row [i]. *)
Lemma row_loop_fresh_cells i n row :
  ∀ cols w l j,
  Forall (λ l, l < length (arrays w)) (map snd cols) →
  length (arrays w) ≤ l → j ≠ i →
  at_index (deref (row_loop i n false row (cols, w)).2 l) j = CUndefined.
Proof.
  induction row as [|[k v] row IH]; intros cols w l j Hval Hl Hj.
  { simpl. rewrite deref_invalid by done. done. }
  rewrite row_loop_cons.
  destruct (JsObject.get cols k) as [l0|] eqn:E.
  - rewrite (setRow_write_existing _ _ _ _ _ _ _ l0) by done.
    apply IH; rewrite ?length_arrays_update; done.
  - rewrite setRow_write_new by done.
    assert (Forall (λ l1, l1 < length
              (arrays (update (length (arrays w)) (cell_write i false v)
                              (alloc (new_Array n) w).2)))
              (map snd (JsObject.set k (length (arrays w)) cols))) as Hval1.
    { rewrite length_arrays_update, length_arrays_alloc.
      apply Forall_refs_set; [lia|].
      eapply Forall_impl; [exact Hval|]. simpl. lia. }
    destruct (decide (l = length (arrays w))) as [->|Hne].
    + rewrite row_loop_store_other_rows;
        [|done|rewrite length_arrays_update, length_arrays_alloc; lia|done].
      rewrite deref_update_eq by (rewrite length_arrays_alloc; lia).
      rewrite <- (alloc_fst (new_Array n) w) at 1. rewrite deref_alloc_new.
      unfold cell_write. rewrite at_index_store_ne by done.
      apply at_index_new_Array.
    + apply IH; [done| |done].
      rewrite length_arrays_update, length_arrays_alloc. lia.
Qed.

Lemma lengths_ok_length t w name l :
  lengths_ok t w → getColumn t name = Some l →
  l < length (arrays w) ∧ length (deref w l) = rowCount t.
Proof.
  intros Hok Hget. unfold lengths_ok in Hok.
  rewrite List.Forall_forall in Hok.
  specialize (Hok l (getColumn_In_refs _ _ _ Hget)).
  destruct (arrays w !! l) as [c|] eqn:E; [|done].
  split; [by apply lookup_lt_is_Some; eexists|].
  rewrite (lookup_deref _ _ _ E). by injection Hok.
Qed.

Lemma getRow_keys_values t w i (row : RowObject) :
  (∀ name v, In (name, v) row → cellAt t w name i = v) →
  getRow t w i (Some (JsObject.keys row)) = map snd row.
Proof.
  unfold getRow, names_or_all, JsObject.keys.
  induction row as [|[k v] row IH]; intros H; [done|].
  simpl. rewrite (H k v) by (by left). f_equal.
  apply IH. intros name v' Hin. apply H. by right.
Qed.





(** X3: [setRow] with [insert] ends normally and moves no cell of a
    column that the row object does not name: on a table whose columns are
    distinct arrays of [rowCount] slots, such a column is still the same
    array and every one of its cells reads as before, while the row count is
    one larger.  No name of a column and no key of the row object is a name
    that objects inherit from [Object.prototype]. *)
Theorem setRow_insert_skips_unnamed t row ri ed w :
  no_sharing t → lengths_ok t w → NoDup (JsObject.keys row) →
  Forall (λ k, JsObject.inherited k = false) (JsObject.keys (columns t)) →
  Forall (λ k, JsObject.inherited k = false) (JsObject.keys row) →
  let r := setRow t row ri (Some true) ed w in
  setRow_completion t row ri (Some true) ed w = Normal
  ∧ rowCount r.1 = rowCount t + 1
  ∧ ∀ name, ¬ In name (JsObject.keys row) →
      getColumn r.1 name = getColumn t name
      ∧ ∀ j, cellAt r.1 r.2 name j = cellAt t w name j.
Proof.
  intros Hshare Hok Hkeys _ Hown. cbv zeta.
  split; [unfold setRow_completion; by rewrite setRow_run_eq by (by right)|].
  rewrite setRow_eq by (by right). cbv zeta.
  simpl (default false (Some true)). cbv iota.
  assert ((rowCount t <? rowCount t + 1) = true) as ->
    by (apply Nat.ltb_lt; lia).
  set (i := default (rowCount t) ri). set (rc := rowCount t) in *.
  set (loop := row_loop i (rc + 1) true row (columns t, w)).
  rewrite applyRowCount_eq. cbn [fst snd].
  match goal with |- context [notify ?ty ed ?t1 ?w1] =>
    destruct (notify_frame ty ed t1 w1) as (Hcols & Hrc & _) end.
  split; [by rewrite Hrc|]. intros name Hname.
  pose proof (lengths_ok_valid _ _ Hok) as Hval.
  destruct (row_loop_spec i (rc + 1) true row (columns t) w Hkeys Hshare Hval)
    as (_ & Hother & Hframe & _).
  fold loop in Hother, Hframe. specialize (Hother name Hname).
  split; [unfold getColumn; by rewrite Hcols|].
  intros j. rewrite notify_cellAt. unfold cellAt, getColumn. simpl.
  rewrite Hother.
  destruct (JsObject.get (columns t) name) as [l|] eqn:E; [|done].
  destruct (lengths_ok_length t w name l Hok E) as [Hl Hlen]. fold rc in Hlen.
  pose proof (row_loop_store i (rc + 1) true row (columns t) w) as (Hmono & _).
  fold loop in Hmono.
  rewrite resize_all_member;
    [|apply in_map_iff; exists (name, l); split;
        [done|apply JsObjectFacts.get_Some_In; by rewrite Hother]
     |lia].
  rewrite Hframe; [|done|].
  - destruct (decide (j < rc + 1)) as [Hlt|Hge].
    + by rewrite at_index_set_length.
    + rewrite !at_index_ge; [done|lia|rewrite length_set_length; lia].
  - intros name' Hname' Hget.
    rewrite (NoDup_refs_get_inj (columns t) name' name l) in Hname'; done.
Qed.

Lemma setRow_insert_skips_unnamed_witness :
  let r := setRow table_ab.1 [("a", CNum 9)] (Some 0) (Some true) None
                  table_ab.2 in
  rowCount r.1 = rowCount table_ab.1 + 1
  ∧ getRow r.1 r.2 0 None = [CNum 9; CNum 3]
  ∧ ∀ j, cellAt r.1 r.2 "b" j = cellAt table_ab.1 table_ab.2 "b" j.
Proof.
  cbv zeta.
  destruct (setRow_insert_skips_unnamed table_ab.1 [("a", CNum 9)] (Some 0)
              None table_ab.2) as (_ & Hrc & Hb).
  - apply constructor_wf.
  - apply constructor_lengths_ok.
  - apply (bool_decide_unpack _). by vm_compute.
  - vm_compute. repeat constructor.
  - repeat constructor.
  - split_and!; [exact Hrc|reflexivity|].
    apply (Hb "b"). by vm_compute; intros [|[]].
Defined.

(** X4: on a table no column of which goes by a name that objects inherit
    from [Object.prototype], [setRow] throws a [TypeError] exactly when it
    inserts and the row object has a key that is such a name; it then fires
    nothing and leaves the version tag and the row count as they were.  A
    [setRow] that ends normally with a silent event detail keeps the version
    tag and fires nothing; otherwise it fires [afterSetRows] once, after the
    events fired before, and takes the next key of [uniqueKey] as version
    tag.  The keys of [uniqueKey] are taken by that assignment only. *)
Theorem setRow_notifies t row ri ins ed w :
  Forall (λ k, JsObject.inherited k = false) (JsObject.keys (columns t)) →
  let r := setRow t row ri ins ed w in
  let completion := setRow_completion t row ri ins ed w in
  (completion = TypeError
   ↔ default false ins = true
     ∧ ∃ k, In k (JsObject.keys row) ∧ JsObject.inherited k = true)
  ∧ (completion = TypeError →
       rowCount r.1 = rowCount t ∧ versionTag r.1 = versionTag t
       ∧ fired r.2 = fired w ∧ keyCounter r.2 = keyCounter w)
  ∧ (completion = Normal → is_silent ed = true →
       versionTag r.1 = versionTag t ∧ fired r.2 = fired w
       ∧ keyCounter r.2 = keyCounter w)
  ∧ (completion = Normal → is_silent ed = false →
       versionTag r.1 = keyCounter w
       ∧ keyCounter r.2 = S (keyCounter w)
       ∧ fired r.2 = fired w ++ ["afterSetRows"]
       ∧ (tag_issued t w → versionTag r.1 ≠ versionTag t)).
Proof.
  intros Hplain. cbv zeta. split.
  { rewrite setRow_completion_cases. split.
    - intros (Hins & k & Hin & Hinh & _). split; [done|]. by exists k.
    - intros (Hins & k & Hin & Hinh). split; [done|].
      exists k. split_and!; [done..|]. unfold getColumn.
      destruct (JsObject.get (columns t) k) as [l|] eqn:Hget; [|done].
      rewrite List.Forall_forall in Hplain.
      rewrite (Hplain k) in Hinh; [done|].
      apply in_map_iff. exists (k, l). split; [done|].
      by apply JsObjectFacts.get_Some_In. }
  split.
  { intros Hthrow. unfold setRow_completion in Hthrow. unfold setRow.
    destruct (setRow_run_thrown t row ri ins ed w Hthrow)
      as (Hrc & Hv & Hk & Hf).
    cbv zeta in Hrc, Hv, Hk, Hf. done. }
  assert (setRow_completion t row ri ins ed w = Normal →
          (is_silent ed = true →
             versionTag (setRow t row ri ins ed w).1 = versionTag t
             ∧ fired (setRow t row ri ins ed w).2 = fired w
             ∧ keyCounter (setRow t row ri ins ed w).2 = keyCounter w)
          ∧ (is_silent ed = false →
               versionTag (setRow t row ri ins ed w).1 = keyCounter w
               ∧ keyCounter (setRow t row ri ins ed w).2 = S (keyCounter w)
               ∧ fired (setRow t row ri ins ed w).2
                 = fired w ++ ["afterSetRows"]
               ∧ (tag_issued t w →
                  versionTag (setRow t row ri ins ed w).1 ≠ versionTag t)))
    as Hnormal; [|split; intros Hnorm; by apply Hnormal].
  intros Hnorm. rewrite (setRow_normal_eq _ _ _ _ _ _ Hnorm). cbv zeta.
  clear Hnorm.
  match goal with |- context [row_loop ?i ?n ?b row (columns t, w)] =>
    destruct (row_loop_store i n b row (columns t) w) as (_ & Hk & Hf);
    set (loop := row_loop i n b row (columns t, w)) in * end.
  match goal with |- context [notify ?ty ed ?t1 ?w1] =>
    assert (versionTag t1 = versionTag t ∧ keyCounter w1 = keyCounter w
            ∧ fired w1 = fired w) as (Hv' & Hk' & Hf');
    [|destruct (notify_versionTag ty ed t1 w1) as [Hs Hn]] end.
  { destruct (_ <? _); [|done].
    rewrite applyRowCount_eq. cbn [fst snd].
    match goal with |- context [resize_all ?n ?c ?w0] =>
      destruct (resize_all_frame n c w0) as (_ & -> & ->) end.
    done. }
  rewrite Hv', Hk', Hf' in *. split; [done|].
  intros Hsil. destruct (Hn Hsil) as (Htag & Hfired & Hkey).
  split_and!; [done..|]. unfold tag_issued. lia.
Qed.

Lemma setRow_notifies_witness :
  (fired (setRow table_ab.1 [("a", CNum 9)] None None (Some (mkDetail true))
                 table_ab.2).2 = [])
  ∧ (fired (setRow table_ab.1 [("a", CNum 9)] None None None table_ab.2).2
     = ["afterSetRows"]
     ∧ versionTag (setRow table_ab.1 [("a", CNum 9)] None None None
                          table_ab.2).1
       ≠ versionTag table_ab.1)
  ∧ (fired (setRow table_ab.1 [("a", CNum 9); ("toString", CNum 1)] (Some 0)
                   (Some true) None table_ab.2).2 = []).
Proof.
  assert (Forall (λ k, JsObject.inherited k = false)
                 (JsObject.keys (columns table_ab.1))) as Hplain
    by (vm_compute; repeat constructor).
  split; [|split].
  - apply (setRow_notifies table_ab.1 [("a", CNum 9)] None None
             (Some (mkDetail true)) table_ab.2 Hplain); reflexivity.
  - destruct (setRow_notifies table_ab.1 [("a", CNum 9)] None None
                None table_ab.2 Hplain) as (_ & _ & _ & Hn).
    destruct Hn as (_ & _ & Hf & Hne); [reflexivity..|].
    split; [exact Hf|]. apply Hne. vm_compute. lia.
  - destruct (setRow_notifies table_ab.1 [("a", CNum 9); ("toString", CNum 1)]
                (Some 0) (Some true) None table_ab.2 Hplain)
      as (_ & Hthrown & _).
    destruct Hthrown as (_ & _ & Hf & _); [reflexivity|exact Hf].
Defined.

(** *** setColumns and setColumn *)

Lemma setColumns_spec t cols ri ed w :
  refs_valid t w → NoDup (JsObject.keys cols) →
  Forall (λ l, l < length (arrays w)) (map snd cols) →
  let r := setColumns t cols ri ed w in
  rowCount r.1 = match last cols with
                 | Some (_, l) => length (deref w l)
                 | None => rowCount t
                 end
  ∧ (∀ name l, JsObject.get cols name = Some l →
       ∃ l', getColumn r.1 name = Some l'
             ∧ length (arrays w) ≤ l'
             ∧ deref r.2 l' = set_length (rowCount r.1) (deref w l))
  ∧ (∀ name, JsObject.get cols name = None →
       getColumn r.1 name = getColumn t name)
  ∧ (∀ name l, JsObject.get cols name = None → getColumn t name = Some l →
       deref r.2 l = set_length (rowCount r.1) (deref w l))
  ∧ (∀ l, l < length (arrays w) → ¬ In l (table_refs t) →
       deref r.2 l = deref w l).
Proof.
  intros Hval Hkeys Hcols. cbv zeta. rewrite setColumns_eq. cbv zeta.
  set (f := fold_left setColumns_step cols (columns t, rowCount t, w)).
  rewrite applyRowCount_eq. cbn [fst snd].
  match goal with |- context [notify ?ty ed ?t1 ?w1] =>
    destruct (notify_frame ty ed t1 w1) as (Hc & Hrc & _);
    pose proof (notify_deref ty ed t1 w1) as Hd end.
  unfold getColumn. rewrite Hc, Hrc.
  cbn [columns rowCount with_rowCount with_columns] in *.
  assert (f.1.2 = match last cols with
                  | Some (_, l) => length (deref w l)
                  | None => rowCount t
                  end) as Hlast
    by (by apply setColumns_fold_rowCount).
  pose proof (setColumns_fold_cols cols (columns t) (rowCount t) w) as Hfold.
  cbv zeta in Hfold. fold f in Hfold.
  destruct (copy_columns_named cols (columns t) w Hkeys Hcols)
    as (Hother & Hnamed).
  destruct (copy_columns_store cols (columns t) w) as (Hlen & _ & _ & Hkeep).
  pose proof (copy_columns_refs cols (columns t) w) as Hrefs.
  cbv zeta in Hother, Hnamed, Hlen, Hkeep, Hrefs.
  rewrite <- Hfold in Hother, Hnamed, Hlen, Hkeep, Hrefs.
  cbn [fst snd] in Hother, Hnamed, Hlen, Hkeep, Hrefs.
  split_and!; [done|..].
  - intros name l Hget.
    destruct (Hnamed name l (JsObjectFacts.get_Some_In _ _ _ Hget))
      as (l' & Hget' & Hrange & Hcontent).
    exists l'. split_and!; [done|lia|]. rewrite Hd.
    rewrite resize_all_member; [by rewrite Hcontent| |lia].
    apply in_map_iff. exists (name, l'). split; [done|].
    by apply JsObjectFacts.get_Some_In.
  - intros name Hnone. apply Hother. intros Hin.
    apply JsObjectFacts.In_keys_get in Hin as [x Hx]. congruence.
  - intros name l Hnone Hget. rewrite Hd.
    assert (l < length (arrays w)) as Hl
      by (by apply (valid_get (columns t) w name)).
    rewrite resize_all_member; [by rewrite Hkeep| |lia].
    apply in_map_iff. exists (name, l). split; [done|].
    apply JsObjectFacts.get_Some_In. rewrite Hother; [done|].
    intros Hin. apply JsObjectFacts.In_keys_get in Hin as [x Hx]. congruence.
  - intros l Hl Hnot. rewrite Hd. rewrite resize_all_other; [by apply Hkeep|].
    intros Hin. rewrite List.Forall_forall in Hrefs.
    destruct (Hrefs l Hin) as [Hold|Hnew]; [done|lia].
Qed.



(** X6: [setColumns] with an empty collection changes no column: the row
    count and the columns stay, and on a table whose columns have
    [rowCount] slots no array of the store changes.  The event and the new
    version tag come all the same. *)
Theorem setColumns_empty t ri ed w :
  lengths_ok t w →
  let r := setColumns t [] ri ed w in
  rowCount r.1 = rowCount t
  ∧ columns r.1 = columns t
  ∧ arrays r.2 = arrays w
  ∧ (is_silent ed = false → fired r.2 = fired w ++ ["afterSetColumns"]).
Proof.
  intros Hok. cbv zeta. rewrite setColumns_eq. cbv zeta. simpl fold_left.
  rewrite applyRowCount_eq. cbn [fst snd].
  match goal with |- context [notify ?ty ed ?t1 ?w1] =>
    destruct (notify_frame ty ed t1 w1) as (-> & -> & ->);
    destruct (notify_versionTag ty ed t1 w1) as [_ Hn] end.
  cbn [columns rowCount with_rowCount with_columns] in *.
  split_and!; [done..| |].
  - apply list_eq. intros l.
    destruct (decide (l < length (arrays w))) as [Hl|Hl].
    + destruct (resize_all_frame (rowCount t) (columns t) w) as (Hlen & _).
      rewrite !deref_lookup by lia. f_equal.
      destruct (resize_all_cases (rowCount t) (columns t) w l) as [->| Hr];
        [done|].
      destruct (decide (l ∈ map snd (columns t))) as [Hin|Hnot];
        rewrite list_elem_of_In in *.
      * rewrite Hr. unfold lengths_ok, table_refs in Hok.
        rewrite List.Forall_forall in Hok. specialize (Hok l Hin).
        rewrite (deref_lookup w l Hl) in Hok. injection Hok as <-.
        apply set_length_same.
      * by apply resize_all_other.
    + destruct (resize_all_frame (rowCount t) (columns t) w) as (Hlen & _).
      rewrite !lookup_ge_None_2; [done|lia|lia].
  - intros Hsil. destruct (Hn Hsil) as (_ & -> & _). f_equal.
    by destruct (resize_all_frame (rowCount t) (columns t) w) as (_ & _ & ->).
Qed.

Lemma setColumns_empty_witness :
  let r := setColumns table_ab.1 [] None None table_ab.2 in
  rowCount r.1 = rowCount table_ab.1 ∧ arrays r.2 = arrays table_ab.2.
Proof.
  cbv zeta.
  destruct (setColumns_empty table_ab.1 None None table_ab.2)
    as (Hrc & _ & Harr & _).
  - apply constructor_lengths_ok.
  - split; [exact Hrc|exact Harr].
Defined.





(** *** getColumns and the constructor *)

Lemma getColumns_keys_NoDup t names :
  NoDup (JsObject.keys (getColumns t names)).
Proof.
  unfold getColumns.
  assert (∀ l (acc : JsObject.t (JsObject.Member ref)),
            NoDup (JsObject.keys acc) →
            NoDup (JsObject.keys
                     (fold_left (λ columns columnName,
                                   JsObject.assign columnName
                                     (column_member t columnName) columns)
                                l acc))) as H.
  { induction l as [|k l IH]; intros acc Hacc; [done|].
    simpl. apply IH. by apply JsObjectFacts.NoDup_keys_assign. }
  apply H. constructor.
Qed.

(** X9: the object that [getColumns] returns has the requested names, the
    keys of [columns] when none are given, as its properties, each once,
    but for [__proto__], under which the assignment makes no property.  The
    property of a name holds what [this.columns[name]] reads: for a column
    the table's own array, not a copy.  For a name that is no column the
    read goes to the prototype of [columns]; where that is
    [Object.prototype], which is so unless an array was set under
    [__proto__], it gives the member of [Object.prototype] for a name that
    objects inherit, and [undefined] for any other name. *)
Theorem getColumns_by_reference t names :
  let requested := default (JsObject.keys (columns t)) names in
  NoDup (JsObject.keys (getColumns t names))
  ∧ (∀ name,
       is_Some (JsObject.get (getColumns t names) name)
       ↔ name ∈ requested ∧ name ≠ "__proto__")
  ∧ (∀ name column,
       name ∈ requested → name ≠ "__proto__" →
       JsObject.get (columns t) name = Some column →
       JsObject.get (getColumns t names) name = Some (JsObject.Own column))
  ∧ (JsObject.get (columns t) "__proto__" = None →
     ∀ name,
       name ∈ requested → name ≠ "__proto__" →
       JsObject.get (columns t) name = None →
       JsObject.get (getColumns t names) name
       = Some (if JsObject.inherited name then JsObject.Inherited
               else JsObject.Undefined)).
Proof.
  cbv zeta.
  assert (∀ name,
            JsObject.get (getColumns t names) name
            = if bool_decide (name ∈ default (JsObject.keys (columns t)) names
                              ∧ name ≠ "__proto__")
              then Some (column_member t name) else None) as Hget.
  { intros name. rewrite getColumns_get. destruct names as [l|]; [done|].
    simpl.
    rewrite (bool_decide_ext (name ∈ column_names t ∧ name ≠ "__proto__")
               (name ∈ JsObject.keys (columns t) ∧ name ≠ "__proto__"));
      [done|].
    unfold column_names. rewrite !list_elem_of_In, List.filter_In.
    split; [tauto|]. intros [Hin Hne]. split_and!; [done| |done].
    by destruct (String.eqb_spec name "__proto__"). }
  split_and!.
  - apply getColumns_keys_NoDup.
  - intros name. rewrite Hget. case_bool_decide as Hreq.
    + split; [done|]. by eexists.
    + split; [by intros [? [=]]|done].
  - intros name column Hin Hne Hcol. rewrite Hget.
    rewrite bool_decide_eq_true_2 by done.
    unfold column_member. by rewrite member_get, Hcol.
  - intros _ name Hin Hne Hcol. rewrite Hget.
    rewrite bool_decide_eq_true_2 by done.
    unfold column_member. by rewrite member_get, Hcol.
Qed.

Lemma getColumns_by_reference_witness :
  let result :=
    getColumns table_ab.1 (Some ["b"; "toString"; "x"; "__proto__"]) in
  JsObject.keys result = ["b"; "toString"; "x"]
  ∧ JsObject.get result "b" = Some (JsObject.Own 3)
  ∧ JsObject.get result "toString" = Some JsObject.Inherited
  ∧ JsObject.get result "x" = Some JsObject.Undefined.
Proof.
  cbv zeta.
  pose proof (getColumns_by_reference table_ab.1
                (Some ["b"; "toString"; "x"; "__proto__"])) as H.
  cbv zeta in H. destruct H as (_ & _ & Hown & Hrest).
  split_and!; [reflexivity|..].
  - apply (Hown "b" 3);
      [apply (bool_decide_unpack _); by vm_compute|done|reflexivity].
  - apply (Hrest eq_refl "toString");
      [apply (bool_decide_unpack _); by vm_compute|done|reflexivity].
  - apply (Hrest eq_refl "x");
      [apply (bool_decide_unpack _); by vm_compute|done|reflexivity].
Defined.

(** X10: a new table reads back the caller's data: row [j] of the columns
    of [options.columns], read by [getRow] in the order of the options, is
    made of the [j]-th cells of the caller's arrays, [undefined] standing
    for a cell after the end of a shorter array. *)
Theorem constructor_then_getRow options w j :
  NoDup (JsObject.keys (default [] (opt_columns options))) →
  Forall (λ l, l < length (arrays w))
         (map snd (default [] (opt_columns options))) →
  let r := constructor options w in
  getRow r.1 r.2 j (Some (JsObject.keys (default [] (opt_columns options))))
  = map (λ e, at_index (deref w e.2) j) (default [] (opt_columns options)).
Proof.
  intros Hkeys Hval. cbv zeta.
  destruct (constructor_spec options w Hkeys Hval) as (Hrc & Hcols & _).
  cbv zeta in Hrc, Hcols.
  set (cols := default [] (opt_columns options)) in *.
  set (r := constructor options w) in *.
  assert (∀ name l, In (name, l) cols →
            cellAt r.1 r.2 name j = at_index (deref w l) j) as Hcell.
  { intros name l Hin.
    destruct (Hcols name l (JsObjectFacts.NoDup_In_get _ _ _ Hkeys Hin))
      as (l' & Hget & _ & Hcontent).
    unfold cellAt. rewrite Hget, Hcontent.
    assert (length (deref w l) ≤ rowCount r.1) as Hle.
    { rewrite Hrc.
      apply (max_list_with_In_le (λ e : string * nat, length (deref w e.2))
               _ (name, l) Hin). }
    destruct (decide (j < rowCount r.1)) as [Hlt|Hge].
    - by apply at_index_set_length.
    - rewrite !at_index_ge; [done|lia|rewrite length_set_length; lia]. }
  unfold getRow, names_or_all, JsObject.keys. clearbody r. clear Hrc Hcols.
  induction cols as [|[k l] cols IH]; [done|].
  simpl. rewrite (Hcell k l) by (by left). f_equal.
  simpl in Hkeys, Hval. apply NoDup_cons in Hkeys as [_ Hkeys].
  apply Forall_cons in Hval as [_ Hval].
  apply IH; [done..|]. intros name l' Hin. apply Hcell. by right.
Qed.

Lemma constructor_then_getRow_witness :
  let w := mkWorld [num_column [1; 2; 3]; num_column [1]]%Z 0 [] in
  let r := constructor (mkOptions None (Some [("a", 0); ("b", 1)])) w in
  getRow r.1 r.2 1 (Some ["a"; "b"]) = [CNum 2; CUndefined].
Proof.
  apply (constructor_then_getRow
           (mkOptions None (Some [("a", 0); ("b", 1)]))
           (mkWorld [num_column [1; 2; 3]; num_column [1]]%Z 0 []) 1).
  - apply (bool_decide_unpack _). by vm_compute.
  - vm_compute. repeat constructor.
Defined.

End TableExtras.

Module SyncExtras.
Import Sync SyncFacts.

(** *** Registering by hand *)

(** X11: [registerSyncHandler] and [registerSyncEmitter] have no guard.
    For an instance whose identifier is not [__proto__], under which an
    assignment makes no property: the instance is registered under its
    identifier, other identifiers and the other registry are left alone; an
    instance that is registered under an identifier that the registry has
    takes the place of the earlier one, the registry keeping one entry for
    the identifier; under any other identifier the registry gets a new
    entry, also when the identifier is one that objects inherit and so read
    as registered before. *)
Theorem register_overwrites s :
  (∀ h, h_id h ≠ "__proto__" →
     isRegisteredHandler (registerSyncHandler h s) (h_id h) = true
     ∧ JsObject.get (registeredSyncHandlers (registerSyncHandler h s)) (h_id h)
       = Some h
     ∧ registeredSyncEmitters (registerSyncHandler h s)
       = registeredSyncEmitters s
     ∧ (∀ id, id ≠ h_id h →
          isRegisteredHandler (registerSyncHandler h s) id
          = isRegisteredHandler s id)
     ∧ (is_Some (JsObject.get (registeredSyncHandlers s) (h_id h)) →
          JsObject.keys (registeredSyncHandlers (registerSyncHandler h s))
          = JsObject.keys (registeredSyncHandlers s))
     ∧ (JsObject.get (registeredSyncHandlers s) (h_id h) = None →
          JsObject.keys (registeredSyncHandlers (registerSyncHandler h s))
          ≡ₚ h_id h :: JsObject.keys (registeredSyncHandlers s)))
  ∧ (∀ e, e_id e ≠ "__proto__" →
       isRegisteredEmitter (registerSyncEmitter e s) (e_id e) = true
       ∧ JsObject.get (registeredSyncEmitters (registerSyncEmitter e s))
                      (e_id e)
         = Some e
       ∧ registeredSyncHandlers (registerSyncEmitter e s)
         = registeredSyncHandlers s
       ∧ (∀ id, id ≠ e_id e →
            isRegisteredEmitter (registerSyncEmitter e s) id
            = isRegisteredEmitter s id)
       ∧ (is_Some (JsObject.get (registeredSyncEmitters s) (e_id e)) →
            JsObject.keys (registeredSyncEmitters (registerSyncEmitter e s))
            = JsObject.keys (registeredSyncEmitters s))
       ∧ (JsObject.get (registeredSyncEmitters s) (e_id e) = None →
            JsObject.keys (registeredSyncEmitters (registerSyncEmitter e s))
            ≡ₚ e_id e :: JsObject.keys (registeredSyncEmitters s))).
Proof.
  split.
  - intros h Hid. unfold isRegisteredHandler, registerSyncHandler.
    cbn [registeredSyncHandlers registeredSyncEmitters].
    rewrite JsObjectFacts.assign_set by done.
    rewrite JsObjectFacts.get_set_eq. split_and!; [|done..| | |].
    + apply registered_set_eq.
    + intros id Hne. by rewrite registered_set_ne.
    + intros [h0 Hh0].
      unfold JsObject.set. rewrite Hh0. apply JsObjectFacts.keys_replace.
    + intros Hnone. unfold JsObject.keys.
      by rewrite JsObjectFacts.set_new_Permutation.
  - intros e Hid. unfold isRegisteredEmitter, registerSyncEmitter.
    cbn [registeredSyncHandlers registeredSyncEmitters].
    rewrite JsObjectFacts.assign_set by done.
    rewrite JsObjectFacts.get_set_eq. split_and!; [|done..| | |].
    + apply registered_set_eq.
    + intros id Hne. by rewrite registered_set_ne.
    + intros [e0 He0].
      unfold JsObject.set. rewrite He0. apply JsObjectFacts.keys_replace.
    + intros Hnone. unfold JsObject.keys.
      by rewrite JsObjectFacts.set_new_Permutation.
Qed.

Lemma register_overwrites_witness :
  let h := mkHandler 5 "extremesHandler" "panning" 9 in
  let h' := mkHandler 6 "toString" "panning" 9 in
  (JsObject.keys (registeredSyncHandlers (registerSyncHandler h started.1.1))
   = ["extremesHandler"]
   ∧ JsObject.get (registeredSyncHandlers (registerSyncHandler h started.1.1))
                  "extremesHandler" = Some h)
  ∧ (isRegisteredHandler started.1.1 "toString" = true
     ∧ JsObject.get (registeredSyncHandlers (registerSyncHandler h' started.1.1))
                    "toString" = Some h').
Proof.
  cbv zeta. split.
  - destruct (proj1 (register_overwrites started.1.1)
                (mkHandler 5 "extremesHandler" "panning" 9))
      as (_ & Hget & _ & _ & Hkeys & _); [done|].
    split; [|exact Hget]. rewrite Hkeys; [reflexivity|by eexists].
  - destruct (proj1 (register_overwrites started.1.1)
                (mkHandler 6 "toString" "panning" 9))
      as (_ & Hget & _); [done|].
    split; [reflexivity|exact Hget].
Defined.

(** *** When start throws *)

Lemma start_entry_completion s w id :
  (start_entry (s, w, Normal) id).2 = Normal ↔ entry_startable s w id = true.
Proof.
  unfold start_entry, entry_startable.
  destruct (JsObject.get (syncConfig s) id) as [entry|]; [|done].
  pose proof (start_handler_setup id (handler entry) s w) as (_ & _ & _ & Hd).
  rewrite start_handler_resolve in *.
  destruct (resolve_handler w id (handler entry)) as [|c|]; cbn [is_resolvable].
  - rewrite start_emitter_resolve.
    destruct (resolve_emitter w id (emitter entry)) as [|c|]; [done| |done].
    by destruct (attach_emitter_cases c s w) as (-> & _).
  - destruct (attach_handler_cases c s w) as (Hn & _). cbv zeta in Hn.
    destruct (attach_handler c s w) as [[s1 w1] c1]. cbn [fst snd] in *.
    subst c1. rewrite start_emitter_resolve.
    rewrite (resolve_emitter_defaults w w1) by done.
    destruct (resolve_emitter w id (emitter entry)) as [|c'|]; [done| |done].
    by destruct (attach_emitter_cases c' s1 w1) as (-> & _).
  - done.
Qed.

Lemma forallb_pointwise {A} (f g : A → bool) l :
  (∀ x, f x = g x) → forallb f l = forallb g l.
Proof. intros H. induction l as [|x l IH]; simpl; [done|]. by rewrite H, IH. Qed.

Lemma start_loop_completion ids :
  ∀ s w,
  (fold_left start_entry ids (s, w, Normal)).2 = Normal
  ↔ forallb (entry_startable s w) ids = true.
Proof.
  induction ids as [|id ids IH]; intros s w; [done|].
  change (fold_left start_entry (id :: ids) (s, w, Normal))
    with (fold_left start_entry ids (start_entry (s, w, Normal) id)).
  pose proof (start_entry_completion s w id) as Hstep.
  pose proof (start_entry_setup s w Normal id) as Hsetup.
  destruct (start_entry (s, w, Normal) id) as [[s1 w1] [|]];
    cbn [fst snd] in *; simpl forallb.
  - rewrite (proj1 Hstep eq_refl). rewrite IH. simpl.
    assert (forallb (entry_startable s1 w1) ids
            = forallb (entry_startable s w) ids) as ->; [|done].
    apply forallb_pointwise. intros id'. by apply entry_startable_setup.
  - rewrite start_loop_thrown. cbn [snd].
    destruct (entry_startable s w id).
    + discriminate (proj2 Hstep eq_refl).
    + simpl. split; discriminate.
Qed.

(** X12: [start] runs to its end exactly when every entry of the
    configuration can be resolved, that is, when no entry has [true] for a
    handler or an emitter for which [Sync.defaultHandlers] has no tuple
    under the same identifier; otherwise it throws a [TypeError].  The
    [Sync] is marked as syncing when [start] runs to its end, and keeps its
    mark when it throws. *)
Theorem start_throws_on_missing_default s w :
  ((start s w).2 = Normal
   ↔ forallb (entry_startable s w) (JsObject.keys (syncConfig s)) = true)
  ∧ ((start s w).2 = Normal → isSyncing (start s w).1.1 = true)
  ∧ ((start s w).2 = TypeError → isSyncing (start s w).1.1 = isSyncing s)
  ∧ syncConfig (start s w).1.1 = syncConfig s
  ∧ defaultHandlers (start s w).1.2 = defaultHandlers w.
Proof.
  unfold start.
  pose proof (start_loop_completion (JsObject.keys (syncConfig s)) s w) as Hc.
  pose proof (start_loop_setup (JsObject.keys (syncConfig s)) s w Normal)
    as (Hcfg & _ & Hsync & Hdef).
  destruct (fold_left start_entry _ _) as [[s1 w1] [|]]; cbn [fst snd] in *;
    split_and!; done.
Qed.

Lemma start_throws_on_missing_default_witness :
  (start (constructor 1 (Some default_config) world_defaults) world_defaults).2
  = Normal
  ∧ isSyncing
      (start (constructor 1 (Some broken_config) world_defaults)
             world_defaults).1.1
    = false.
Proof.
  split.
  - apply (proj1 (start_throws_on_missing_default
                    (constructor 1 (Some default_config) world_defaults)
                    world_defaults)).
    reflexivity.
  - destruct (start_throws_on_missing_default
                (constructor 1 (Some broken_config) world_defaults)
                world_defaults) as (_ & _ & Hthrow & _).
    rewrite Hthrow; reflexivity.
Defined.

(** *** Starting twice *)

Lemma start_entry_attaches s w id :
  (start_entry (s, w, Normal) id).2 = Normal →
  entry_attached (start_entry (s, w, Normal) id).1.1
                 (start_entry (s, w, Normal) id).1.2 id.
Proof.
  pose proof (start_entry_setup s w Normal id) as Hsetup.
  unfold start_entry in *.
  destruct (JsObject.get (syncConfig s) id) as [entry|] eqn:Hentry; [|done].
  pose proof (start_handler_setup id (handler entry) s w) as Hsetup1.
  rewrite start_handler_resolve in *.
  assert (∀ s1 w1, same_setup s w s1 w1 →
            (∀ c, resolve_handler w id (handler entry) = Enabled c →
               isRegisteredHandler s1 c.1.1 = true) →
            (start_emitter id (emitter entry) s1 w1).2 = Normal →
            entry_attached (start_emitter id (emitter entry) s1 w1).1.1
                           (start_emitter id (emitter entry) s1 w1).1.2 id)
    as Hemitter.
  { intros s1 w1 Hs1 Hh Hnormal.
    pose proof (start_emitter_setup id (emitter entry) s1 w1) as Hs2.
    pose proof (start_emitter_resolve id (emitter entry) s1 w1) as Hres.
    rewrite (resolve_emitter_defaults w w1) in Hres by apply Hs1.
    set (r := start_emitter id (emitter entry) s1 w1) in *.
    assert (registeredSyncHandlers r.1.1 = registeredSyncHandlers s1
            ∧ ∀ c, resolve_emitter w id (emitter entry) = Enabled c →
                isRegisteredEmitter r.1.1 c.1 = true)
      as [Hkeep Hreg].
    { rewrite Hres.
      destruct (resolve_emitter w id (emitter entry)) as [|c|]; [done| |done].
      destruct (attach_emitter_cases c s1 w1) as (_ & _ & Hk & Hr & _).
      split; [done|]. by intros c' [= <-]. }
    clearbody r.
    destruct (same_setup_trans _ _ _ _ _ _ Hs1 Hs2) as (Hcfg & _ & _ & Hdef).
    intros entry' Hentry'. rewrite Hcfg, Hentry in Hentry'.
    injection Hentry' as <-.
    rewrite (resolve_handler_defaults w), (resolve_emitter_defaults w)
      by done.
    split; [|done]. intros c Hc. unfold isRegisteredHandler.
    rewrite Hkeep. by apply Hh. }
  destruct (resolve_handler w id (handler entry)) as [|c|].
  - apply Hemitter; done.
  - destruct (attach_handler_cases c s w) as (Hn & Hs1 & _ & Hreg & _).
    cbv zeta in Hn, Hs1, Hreg.
    destruct (attach_handler c s w) as [[s1 w1] c1]. cbn [fst snd] in *.
    subst c1. apply Hemitter; [done|]. by intros c' [= <-].
  - done.
Qed.

Lemma entry_attached_kept s w s' w' id :
  same_setup s w s' w' → once_h s w s' w' → once_e s w s' w' →
  entry_attached s w id → entry_attached s' w' id.
Proof.
  intros (Hcfg & _ & _ & Hdef) (evs & _ & _ & Hkeep & _)
         (evs' & _ & _ & Hkeep' & _) Hatt entry Hentry.
  rewrite Hcfg in Hentry. destruct (Hatt entry Hentry) as [Hh He].
  rewrite (resolve_handler_defaults w), (resolve_emitter_defaults w) by done.
  split.
  - intros c Hc. apply (registered_kept (registeredSyncHandlers s));
      [|by apply Hh].
    intros Hown. by destruct (Hkeep c.1.1 Hown) as [_ ->].
  - intros c Hc. apply (registered_kept (registeredSyncEmitters s));
      [|by apply He].
    intros Hown. by destruct (Hkeep' c.1 Hown) as [_ ->].
Qed.

Lemma start_loop_attaches ids :
  ∀ s w,
  (fold_left start_entry ids (s, w, Normal)).2 = Normal →
  Forall (entry_attached (fold_left start_entry ids (s, w, Normal)).1.1
                         (fold_left start_entry ids (s, w, Normal)).1.2) ids.
Proof.
  induction ids as [|id ids IH]; intros s w; [constructor|].
  change (fold_left start_entry (id :: ids) (s, w, Normal))
    with (fold_left start_entry ids (start_entry (s, w, Normal) id)).
  pose proof (start_entry_attaches s w id) as Hhead.
  destruct (start_entry (s, w, Normal) id) as [[s1 w1] [|]];
    [|by rewrite start_loop_thrown].
  cbn [fst snd] in Hhead. intros Hnormal. constructor; [|by apply IH].
  destruct (start_loop_once ids s1 w1 Normal) as [Hh He].
  apply (entry_attached_kept s1 w1); [apply start_loop_setup|done..|].
  by apply Hhead.
Qed.

Lemma quiet_refl w : quiet w w.
Proof. split; [done|]. exists []. by rewrite app_nil_r. Qed.

Lemma quiet_trans w1 w2 w3 : quiet w1 w2 → quiet w2 w3 → quiet w1 w3.
Proof.
  intros (Hd1 & evs1 & Ht1 & Hq1) (Hd2 & evs2 & Ht2 & Hq2).
  split; [by rewrite Hd2|]. exists (evs1 ++ evs2).
  split; [by rewrite Ht2, Ht1, app_assoc|].
  intros ev [Hin|Hin]%in_app_or; auto.
Qed.

(** An entry whose instances are registered is started without a change
    of the [Sync] and without a call of [create]. *)
Lemma start_entry_attached s w id :
  entry_attached s w id → entry_startable s w id = true →
  ∃ w', start_entry (s, w, Normal) id = (s, w', Normal) ∧ quiet w w'.
Proof.
  intros Hatt Hok. unfold start_entry, entry_startable in *.
  destruct (JsObject.get (syncConfig s) id) as [entry|] eqn:Hentry; [|done].
  destruct (Hatt entry Hentry) as [Hh He].
  apply andb_true_iff in Hok as [Hokh Hoke].
  assert (∃ w1, start_handler id (handler entry) s w = (s, w1, Normal)
                ∧ quiet w w1) as (w1 & -> & Hq1).
  { rewrite start_handler_resolve.
    destruct (resolve_handler w id (handler entry)) as [|c|]; [|  |done].
    - exists w. split; [done|apply quiet_refl].
    - destruct (attach_handler_cases c s w) as (Hn & Hs & _ & _ & Hsame).
      destruct (Hsame (Hh c eq_refl)) as [Hs1 Htr].
      destruct (attach_handler c s w) as [[s1 w1] c1]. cbn [fst snd] in *.
      subst. exists w1. split; [done|]. split; [apply Hs|].
      eexists. split; [exact Htr|]. by intros ev [<-|[]]. }
  rewrite start_emitter_resolve.
  rewrite (resolve_emitter_defaults w w1) by apply Hq1.
  destruct (resolve_emitter w id (emitter entry)) as [|c|]; [| |done].
  - by exists w1.
  - destruct (attach_emitter_cases c s w1) as (Hn & Hs & _ & _ & Hsame).
    destruct (Hsame (He c eq_refl)) as [Hs1 Htr].
    destruct (attach_emitter c s w1) as [[s2 w2] c2]. cbn [fst snd] in *.
    subst. exists w2. split; [done|]. apply (quiet_trans _ w1); [done|].
    split; [apply Hs|]. eexists. split; [exact Htr|]. by intros ev [<-|[]].
Qed.

Lemma entry_attached_defaults s w w' id :
  defaultHandlers w' = defaultHandlers w →
  entry_attached s w id → entry_attached s w' id.
Proof.
  intros Hdef Hatt entry Hentry.
  rewrite (resolve_handler_defaults w), (resolve_emitter_defaults w) by done.
  by apply Hatt.
Qed.

Lemma start_loop_attached ids :
  ∀ s w,
  Forall (entry_attached s w) ids →
  forallb (entry_startable s w) ids = true →
  ∃ w', fold_left start_entry ids (s, w, Normal) = (s, w', Normal)
        ∧ quiet w w'.
Proof.
  induction ids as [|id ids IH]; intros s w Hatt Hok.
  { exists w. split; [done|apply quiet_refl]. }
  apply Forall_cons in Hatt as [Hhead Htail].
  simpl in Hok. apply andb_true_iff in Hok as [Hokh Hokt].
  change (fold_left start_entry (id :: ids) (s, w, Normal))
    with (fold_left start_entry ids (start_entry (s, w, Normal) id)).
  destruct (start_entry_attached s w id Hhead Hokh) as (w1 & -> & Hq1).
  destruct (IH s w1) as (w2 & -> & Hq2).
  - eapply Forall_impl; [exact Htail|]. intros id'.
    apply entry_attached_defaults, Hq1.
  - rewrite <- Hokt. apply forallb_pointwise. intros id'.
    apply entry_startable_setup. split_and!; [done..|apply Hq1].
  - exists w2. split; [done|]. by apply (quiet_trans _ w1).
Qed.

Lemma start_normal s w :
  (start s w).2 = Normal →
  ∃ s1 w1,
    fold_left start_entry (JsObject.keys (syncConfig s)) (s, w, Normal)
    = (s1, w1, Normal)
    ∧ start s w
      = (mkSync (registeredSyncHandlers s1) (registeredSyncEmitters s1)
                (component s1) (syncConfig s1) true,
         w1, Normal).
Proof.
  unfold start.
  destruct (fold_left start_entry _ _) as [[s1 w1] [|]]; [|done].
  intros _. by exists s1, w1.
Qed.

(** X13: a [start] that follows a [start] that ran to its end runs to its
    end as well, leaves the [Sync] as it is, both registries included, and
    calls no [create] hook. *)
Theorem start_again_is_quiet s w :
  (start s w).2 = Normal →
  let r := start (start s w).1.1 (start s w).1.2 in
  r.2 = Normal
  ∧ r.1.1 = (start s w).1.1
  ∧ ∀ id, handler_creates id (events_since (start s w).1.2 r.1.2) = 0
          ∧ emitter_creates id (events_since (start s w).1.2 r.1.2) = 0.
Proof.
  intros Hnormal.
  destruct (start_normal s w Hnormal) as (s1 & w1 & Hfold & ->).
  cbn [fst snd].
  pose proof (start_loop_attaches (JsObject.keys (syncConfig s)) s w) as Hatt.
  pose proof (start_loop_completion (JsObject.keys (syncConfig s)) s w) as Hc.
  pose proof (start_loop_setup (JsObject.keys (syncConfig s)) s w Normal)
    as (Hcfg & _ & _ & Hdef).
  rewrite Hfold in Hatt, Hc, Hcfg, Hdef. cbn [fst snd] in *.
  specialize (Hatt eq_refl). apply proj1 in Hc. specialize (Hc eq_refl).
  set (s2 := mkSync (registeredSyncHandlers s1) (registeredSyncEmitters s1)
                    (component s1) (syncConfig s1) true).
  assert (syncConfig s2 = syncConfig s) as Hcfg2 by done.
  destruct (start_loop_attached (JsObject.keys (syncConfig s2)) s2 w1)
    as (w2 & Hfold2 & Hdef2 & evs & Htr & Hq).
  - rewrite Hcfg2. eapply Forall_impl; [exact Hatt|].
    intros id Hid entry Hentry. rewrite Hcfg2, <- Hcfg in Hentry.
    exact (Hid entry Hentry).
  - rewrite Hcfg2, <- Hc. apply forallb_pointwise. intros id.
    by apply entry_startable_ext.
  - cbv zeta. unfold start. rewrite Hfold2. cbn [fst snd].
    split_and!; [done..|]. intros id.
    rewrite (events_since_app _ _ _ Htr).
    rewrite handler_creates_eq, emitter_creates_eq.
    split; apply creates_none; intros ev Hin; by apply Hq.
Qed.

Lemma start_again_is_quiet_witness :
  let r := start started.1.1 started.1.2 in
  r.2 = Normal ∧ r.1.1 = started.1.1.
Proof.
  cbv zeta.
  destruct (start_again_is_quiet (constructor 1 (Some shared_config) world0)
              world0) as (Hn & Hs & _).
  - reflexivity.
  - split; [exact Hn|exact Hs].
Defined.

(** *** stop *)

Lemma delete_absent {V} k (o : JsObject.t V) :
  ¬ In k (JsObject.keys o) → JsObject.delete k o = o.
Proof.
  induction o as [|[k' v] o IH]; simpl; [done|]. intros Hk.
  destruct (String.eqb_spec k k') as [->|Hne]; [tauto|]. simpl.
  f_equal. apply IH. tauto.
Qed.

Lemma delete_head {V} k v (o : JsObject.t V) :
  ¬ In k (JsObject.keys o) → JsObject.delete k ((k, v) :: o) = o.
Proof.
  intros Hk. unfold JsObject.delete. simpl. rewrite String.eqb_refl. simpl.
  by apply delete_absent.
Qed.

Lemma stop_handlers_loop reg :
  NoDup (JsObject.keys reg) →
  ∀ removed,
  fold_left stop_handler (JsObject.keys reg) (reg, removed, Normal)
  = ([], removed ++ map HandlerRemove (map snd reg), Normal).
Proof.
  induction reg as [|[k h] reg IH]; intros Hnd removed.
  { simpl. by rewrite app_nil_r. }
  simpl in Hnd. apply NoDup_cons in Hnd as [Hk Hnd].
  rewrite list_elem_of_In in Hk.
  change (fold_left stop_handler (JsObject.keys ((k, h) :: reg))
            ((k, h) :: reg, removed, Normal))
    with (fold_left stop_handler (JsObject.keys reg)
            (stop_handler ((k, h) :: reg, removed, Normal) k)).
  assert (stop_handler ((k, h) :: reg, removed, Normal) k
          = (reg, removed ++ [HandlerRemove h], Normal)) as ->.
  { unfold stop_handler. simpl JsObject.get. rewrite String.eqb_refl.
    by rewrite delete_head. }
  rewrite IH by done. by rewrite <- app_assoc.
Qed.

Lemma stop_emitters_loop reg :
  NoDup (JsObject.keys reg) →
  ∀ removed,
  fold_left stop_emitter (JsObject.keys reg) (reg, removed, Normal)
  = ([], removed ++ map EmitterRemove (map snd reg), Normal).
Proof.
  induction reg as [|[k e] reg IH]; intros Hnd removed.
  { simpl. by rewrite app_nil_r. }
  simpl in Hnd. apply NoDup_cons in Hnd as [Hk Hnd].
  rewrite list_elem_of_In in Hk.
  change (fold_left stop_emitter (JsObject.keys ((k, e) :: reg))
            ((k, e) :: reg, removed, Normal))
    with (fold_left stop_emitter (JsObject.keys reg)
            (stop_emitter ((k, e) :: reg, removed, Normal) k)).
  assert (stop_emitter ((k, e) :: reg, removed, Normal) k
          = (reg, removed ++ [EmitterRemove e], Normal)) as ->.
  { unfold stop_emitter. simpl JsObject.get. rewrite String.eqb_refl.
    by rewrite delete_head. }
  rewrite IH by done. by rewrite <- app_assoc.
Qed.

(** X14: [stop] runs to its end, leaves both registries empty and the
    [Sync] marked as not syncing, whatever the mark was; it calls [remove]
    once on every registered instance and on nothing else, the handlers
    first and then the emitters, each in the order of its registry. *)
Theorem stop_removes_all s :
  registries_ok s →
  stop s
  = (mkSync [] [] (component s) (syncConfig s) false,
     map HandlerRemove (map snd (registeredSyncHandlers s))
     ++ map EmitterRemove (map snd (registeredSyncEmitters s)),
     Normal).
Proof.
  intros [Hh He]. unfold stop.
  rewrite stop_handlers_loop by done. simpl app.
  by rewrite stop_emitters_loop.
Qed.

Lemma stop_removes_all_witness :
  stop started.1.1
  = (mkSync [] [] 1 shared_config false,
     [HandlerRemove (mkHandler 0 "extremesHandler" "selection" 7)],
     Normal).
Proof.
  rewrite (stop_removes_all started.1.1); [reflexivity|].
  split; apply (bool_decide_unpack _); by vm_compute.
Defined.

(** *** stop after start *)

Section ProvenanceFacts.
Context {I : Type}.
Variable reg : Sync → JsObject.t I.
Variable iid : I → string.
Variable created : Event → option I.

Lemma entries_from_refl s w : entries_from reg iid created s w s w.
Proof. exists []. rewrite app_nil_r. split; [done|]. by left. Qed.

Lemma entries_from_trans s1 w1 s2 w2 s3 w3 :
  entries_from reg iid created s1 w1 s2 w2 →
  entries_from reg iid created s2 w2 s3 w3 →
  entries_from reg iid created s1 w1 s3 w3.
Proof.
  intros (evs1 & Htr1 & H1) (evs2 & Htr2 & H2). exists (evs1 ++ evs2).
  split; [by rewrite Htr2, Htr1, app_assoc|]. intros id i Hin.
  destruct (H2 id i Hin) as [Hold|(-> & ev & Hev & Hc)].
  - destruct (H1 id i Hold) as [Hold'|(-> & ev & Hev & Hc)]; [by left|].
    right. split; [done|]. exists ev. split; [|done].
    apply in_or_app. by left.
  - right. split; [done|]. exists ev. split; [|done].
    apply in_or_app. by right.
Qed.

Lemma entries_from_silent s w s' w' evs :
  reg s' = reg s → trace w' = trace w ++ evs →
  entries_from reg iid created s w s' w'.
Proof.
  intros Hreg Htr. exists evs. split; [done|]. intros id i Hin.
  left. by rewrite <- Hreg.
Qed.

Lemma entries_from_register s w s' w' evs ev i :
  reg s' = JsObject.set (iid i) i (reg s) →
  trace w' = trace w ++ evs ++ [ev] → created ev = Some i →
  entries_from reg iid created s w s' w'.
Proof.
  intros Hreg Htr Hev. exists (evs ++ [ev]). split; [done|].
  intros id i' Hin. rewrite Hreg in Hin.
  apply JsObjectFacts.set_In in Hin as [[= -> ->]|Hin]; [|by left].
  right. split; [done|]. exists ev. split; [|done].
  apply in_or_app. right. by left.
Qed.

End ProvenanceFacts.

Lemma from_both_refl s w : from_h s w s w ∧ from_e s w s w.
Proof. split; apply entries_from_refl. Qed.

Lemma attach_handler_from c s w :
  let r := attach_handler c s w in
  from_h s w r.1.1 r.1.2 ∧ from_e s w r.1.1 r.1.2.
Proof.
  unfold attach_handler, new_SyncHandler. cbv zeta.
  set (h := mkHandler (nextSerial w) c.1.1 c.1.2 c.2).
  destruct (isRegisteredHandler s (h_id h)) eqn:E; cbn [negb fst snd]; split.
  - by apply (entries_from_silent _ _ _ _ _ _ _ [NewHandler h]).
  - by apply (entries_from_silent _ _ _ _ _ _ _ [NewHandler h]).
  - apply (entries_from_register _ _ _ _ _ _ _ [NewHandler h]
             (HandlerCreate h (component s)) h); [| |done].
    + cbn [registeredSyncHandlers registerSyncHandler].
      apply JsObjectFacts.assign_set.
      by apply (isRegisteredHandler_false_own s).
    + simpl. by rewrite <- app_assoc.
  - apply (entries_from_silent _ _ _ _ _ _ _
             [NewHandler h; HandlerCreate h (component s)]); [done|].
    simpl. by rewrite <- app_assoc.
Qed.

Lemma attach_emitter_from c s w :
  let r := attach_emitter c s w in
  from_h s w r.1.1 r.1.2 ∧ from_e s w r.1.1 r.1.2.
Proof.
  unfold attach_emitter, new_SyncEmitter. cbv zeta.
  set (e := mkEmitter (nextSerial w) c.1 c.2).
  destruct (isRegisteredEmitter s (e_id e)) eqn:E; cbn [negb fst snd]; split.
  - by apply (entries_from_silent _ _ _ _ _ _ _ [NewEmitter e]).
  - by apply (entries_from_silent _ _ _ _ _ _ _ [NewEmitter e]).
  - apply (entries_from_silent _ _ _ _ _ _ _
             [NewEmitter e; EmitterCreate e (component s)]); [done|].
    simpl. by rewrite <- app_assoc.
  - apply (entries_from_register _ _ _ _ _ _ _ [NewEmitter e]
             (EmitterCreate e (component s)) e); [| |done].
    + cbn [registeredSyncEmitters registerSyncEmitter].
      apply JsObjectFacts.assign_set.
      by apply (isRegisteredEmitter_false_own s).
    + simpl. by rewrite <- app_assoc.
Qed.

Lemma start_entry_from s w completion id :
  let r := start_entry (s, w, completion) id in
  from_h s w r.1.1 r.1.2 ∧ from_e s w r.1.1 r.1.2.
Proof.
  unfold start_entry. destruct completion; [|apply from_both_refl].
  destruct (JsObject.get (syncConfig s) id) as [entry|];
    [|apply from_both_refl].
  assert (from_h s w (start_handler id (handler entry) s w).1.1
                 (start_handler id (handler entry) s w).1.2
          ∧ from_e s w (start_handler id (handler entry) s w).1.1
                   (start_handler id (handler entry) s w).1.2) as [Hh He].
  { rewrite start_handler_resolve.
    destruct (resolve_handler w id (handler entry));
      first [apply from_both_refl|apply attach_handler_from]. }
  destruct (start_handler id (handler entry) s w) as [[s1 w1] [|]];
    [|by split].
  assert (from_h s1 w1 (start_emitter id (emitter entry) s1 w1).1.1
                 (start_emitter id (emitter entry) s1 w1).1.2
          ∧ from_e s1 w1 (start_emitter id (emitter entry) s1 w1).1.1
                   (start_emitter id (emitter entry) s1 w1).1.2) as [Hh' He'].
  { rewrite start_emitter_resolve.
    destruct (resolve_emitter w1 id (emitter entry));
      first [apply from_both_refl|apply attach_emitter_from]. }
  cbv zeta. cbn [fst snd] in Hh, He.
  split; eapply entries_from_trans; eassumption.
Qed.

Lemma start_loop_from ids :
  ∀ s w completion,
  let r := fold_left start_entry ids (s, w, completion) in
  from_h s w r.1.1 r.1.2 ∧ from_e s w r.1.1 r.1.2.
Proof.
  induction ids as [|id ids IH]; intros s w completion;
    [apply from_both_refl|].
  cbv zeta.
  change (fold_left start_entry (id :: ids) (s, w, completion))
    with (fold_left start_entry ids (start_entry (s, w, completion) id)).
  pose proof (start_entry_from s w completion id) as [Hh He].
  destruct (start_entry (s, w, completion) id) as [[s1 w1] completion1].
  destruct (IH s1 w1 completion1) as [Hh' He'].
  cbv zeta in *. cbn [fst snd] in Hh, He.
  split; eapply entries_from_trans; eassumption.
Qed.

Lemma start_from s w :
  let r := start s w in
  from_h s w r.1.1 r.1.2 ∧ from_e s w r.1.1 r.1.2.
Proof.
  unfold start.
  pose proof (start_loop_from (JsObject.keys (syncConfig s)) s w Normal)
    as [Hh He].
  destruct (fold_left _ _ _) as [[s1 w1] [|]]; [|by split].
  cbv zeta in *. cbn [fst snd] in *.
  split.
  - eapply entries_from_trans; [exact Hh|].
    by apply (entries_from_silent _ _ _ _ _ _ _ []); [|rewrite app_nil_r].
  - eapply entries_from_trans; [exact He|].
    by apply (entries_from_silent _ _ _ _ _ _ _ []); [|rewrite app_nil_r].
Qed.

Lemma NoDup_keyed_values {I} (iid : I → string) (o : JsObject.t I) :
  (∀ id i, In (id, i) o → id = iid i) →
  NoDup (JsObject.keys o) → NoDup (map snd o).
Proof.
  induction o as [|[k v] o IH]; intros Hkeyed Hnd; [constructor|].
  simpl in *. apply NoDup_cons in Hnd as [Hk Hnd].
  rewrite list_elem_of_In in Hk. apply NoDup_cons. split.
  - rewrite list_elem_of_In. intros Hin.
    apply in_map_iff in Hin as [[k' v'] [Heq Hin]]. simpl in Heq. subst v'.
    apply Hk. apply in_map_iff. exists (k', v). split; [|done]. simpl.
    rewrite (Hkeyed k v) by (by left). apply Hkeyed. by right.
  - apply IH; [|done]. intros id i Hin. apply Hkeyed. by right.
Qed.

(** X15: [stop] undoes [start].  After [start] on a new [Sync], whether it
    ran to its end or threw, [stop] leaves both registries empty and the
    [Sync] not syncing, and it calls [remove] exactly once on every
    instance whose [create] hook [start] has called, and on no other. *)
Theorem stop_undoes_start component syncHandlers w :
  let r := start (constructor component syncHandlers w) w in
  let q := stop r.1.1 in
  q.2 = Normal
  ∧ registeredSyncHandlers q.1.1 = []
  ∧ registeredSyncEmitters q.1.1 = []
  ∧ isSyncing q.1.1 = false
  ∧ NoDup q.1.2
  ∧ (∀ h, In (HandlerRemove h) q.1.2
          ↔ ∃ c, In (HandlerCreate h c) (events_since w r.1.2))
  ∧ (∀ e, In (EmitterRemove e) q.1.2
          ↔ ∃ c, In (EmitterCreate e c) (events_since w r.1.2)).
Proof.
  cbv zeta. set (s0 := constructor component syncHandlers w).
  assert (registries_ok s0) as Hok0 by (split; constructor).
  pose proof (start_registries s0 w Hok0) as Hok.
  destruct (start_once s0 w) as
    [(evs & Htr & _ & _ & Hreg) (evs' & Htr' & _ & _ & Hreg')].
  assert (evs' = evs) as -> by (rewrite Htr in Htr'; by simplify_list_eq).
  destruct (start_from s0 w) as
    [(evs1 & Htr1 & Hfrom) (evs2 & Htr2 & Hfrom')].
  assert (evs1 = evs) as -> by (rewrite Htr in Htr1; by simplify_list_eq).
  assert (evs2 = evs) as -> by (rewrite Htr in Htr2; by simplify_list_eq).
  rewrite (events_since_app _ _ _ Htr).
  set (s1 := (start s0 w).1.1) in *. clearbody s1.
  destruct Hok as [Hndh Hnde]. unfold stop.
  rewrite stop_handlers_loop by done. simpl app.
  rewrite stop_emitters_loop by done.
  cbn [fst snd registeredSyncHandlers registeredSyncEmitters isSyncing].
  assert (∀ id h, In (id, h) (registeredSyncHandlers s1) →
            id = h_id h ∧ ∃ c, In (HandlerCreate h c) evs) as Hh.
  { intros id h Hin.
    destruct (Hfrom id h Hin) as [[]|(-> & ev & Hev & Hc)].
    split; [done|]. destruct ev; try done. injection Hc as ->. eauto. }
  assert (∀ id e, In (id, e) (registeredSyncEmitters s1) →
            id = e_id e ∧ ∃ c, In (EmitterCreate e c) evs) as He.
  { intros id e Hin.
    destruct (Hfrom' id e Hin) as [[]|(-> & ev & Hev & Hc)].
    split; [done|]. destruct ev; try done. injection Hc as ->. eauto. }
  split_and!; [done..| | |].
  - apply NoDup_app. split_and!.
    + change (map HandlerRemove (map snd (registeredSyncHandlers s1)))
        with (HandlerRemove <$> map snd (registeredSyncHandlers s1)).
      apply NoDup_fmap_2; [by intros ? ? [=]|].
      apply (NoDup_keyed_values h_id); [|done].
      intros id h Hin. by apply Hh.
    + intros x Hx Hx'. rewrite list_elem_of_In in Hx, Hx'.
      apply in_map_iff in Hx as (h & <- & _).
      by apply in_map_iff in Hx' as (e & ? & _).
    + change (map EmitterRemove (map snd (registeredSyncEmitters s1)))
        with (EmitterRemove <$> map snd (registeredSyncEmitters s1)).
      apply NoDup_fmap_2; [by intros ? ? [=]|].
      apply (NoDup_keyed_values e_id); [|done].
      intros id e Hin. by apply He.
  - intros h. rewrite in_app_iff, !in_map_iff. split.
    + intros [(h' & [= ->] & Hin)|(e & ? & _)]; [|done].
      apply in_map_iff in Hin as [[id h'] [Heq Hin]]. simpl in Heq. subst h'.
      by apply (Hh id).
    + intros [c Hc]. left. exists h. split; [done|].
      apply in_map_iff. exists (h_id h, h). split; [done|].
      apply JsObjectFacts.get_Some_In. by apply (Hreg (HandlerCreate h c)).
  - intros e. rewrite in_app_iff, !in_map_iff. split.
    + intros [(h & ? & _)|(e' & [= ->] & Hin)]; [done|].
      apply in_map_iff in Hin as [[id e'] [Heq Hin]]. simpl in Heq. subst e'.
      by apply (He id).
    + intros [c Hc]. right. exists e. split; [done|].
      apply in_map_iff. exists (e_id e, e). split; [done|].
      apply JsObjectFacts.get_Some_In. by apply (Hreg' (EmitterCreate e c)).
Qed.

End SyncExtras.

Module ToolbarExtras.
Import EditToolbar EditToolbarFacts.

Lemma contains_remove_same c e : contains c (classList_remove c e) = false.
Proof.
  unfold contains, classList_remove. induction e as [|c' e IH]; [done|].
  simpl. destruct (String.eqb c c') eqn:Heq; simpl; [done|]. by rewrite Heq.
Qed.

Lemma contains_remove_other c c' e :
  c ≠ c' → contains c' (classList_remove c e) = contains c' e.
Proof.
  intros Hne. unfold contains, classList_remove.
  induction e as [|d e IH]; [done|]. simpl.
  destruct (String.eqb_spec c d) as [<-|Hd]; simpl.
  - destruct (String.eqb_spec c' c) as [->|_]; [done|]. exact IH.
  - by rewrite IH.
Qed.

Lemma contains_app c e1 e2 :
  contains c (e1 ++ e2) = contains c e1 || contains c e2.
Proof. apply existsb_app. Qed.

Lemma contains_add_same c e : contains c (classList_add c e) = true.
Proof.
  unfold classList_add. destruct (contains c e) eqn:Hc; [done|].
  rewrite contains_app. simpl. rewrite String.eqb_refl.
  by rewrite orb_true_r.
Qed.

Lemma contains_add_other c c' e :
  c ≠ c' → contains c' (classList_add c e) = contains c' e.
Proof.
  intros Hne. unfold classList_add. destruct (contains c e); [done|].
  rewrite contains_app. simpl.
  destruct (String.eqb_spec c' c) as [->|_]; [done|].
  by rewrite !orb_false_r.
Qed.

(** A change of one element that keeps whether it carries [c] keeps the
    carriers of [c]. *)
Lemma elements_from_alter_other c f k doc :
  (∀ e, contains c (f e) = contains c e) →
  ∀ i, elements_from i c (alter f k doc) = elements_from i c doc.
Proof.
  intros Hf. revert k. induction doc as [|e doc IH]; intros k i; [done|].
  destruct k as [|k]; simpl.
  - by rewrite Hf.
  - destruct (contains c e); [f_equal|]; apply IH.
Qed.

Lemma elements_from_remove_first c doc :
  ∀ i first rest,
  elements_from i c doc = first :: rest →
  i ≤ first
  ∧ elements_from i c (alter (classList_remove c) (first - i) doc) = rest.
Proof.
  induction doc as [|e doc IH]; intros i first rest; [done|]. simpl.
  destruct (contains c e) eqn:Hc.
  - intros [= <- <-]. split; [lia|]. rewrite Nat.sub_diag. simpl.
    by rewrite contains_remove_same.
  - intros Heq. destruct (IH _ _ _ Heq) as [Hle Hrest]. split; [lia|].
    replace (first - i) with (S (first - S i)) by lia. simpl.
    rewrite Hc. exact Hrest.
Qed.

Lemma elements_from_add c doc :
  ∀ i k,
  elements_from i c doc = [] → k < length doc →
  elements_from i c (alter (classList_add c) k doc) = [i + k].
Proof.
  induction doc as [|e doc IH]; intros i k; simpl; [lia|].
  destruct (contains c e) eqn:Hc; [done|]. intros Hnone Hk.
  destruct k as [|k]; simpl.
  - rewrite contains_add_same, Hnone. f_equal. lia.
  - rewrite Hc. etrans; [apply IH; [done|lia]|]. f_equal. lia.
Qed.

Lemma reset_class_same c doc :
  getElementsByClassName c (reset_class doc c)
  = tail (getElementsByClassName c doc).
Proof.
  unfold reset_class, getElementsByClassName.
  destruct (elements_from 0 c doc) as [|first rest] eqn:Heq; [done|].
  destruct (elements_from_remove_first _ _ _ _ _ Heq) as [_ Hrest].
  by rewrite Nat.sub_0_r in Hrest.
Qed.

Lemma reset_class_other c c' doc :
  c ≠ c' →
  getElementsByClassName c' (reset_class doc c)
  = getElementsByClassName c' doc.
Proof.
  intros Hne. unfold reset_class, getElementsByClassName.
  destruct (elements_from 0 c doc) as [|first rest]; [done|].
  apply elements_from_alter_other. intros e. by apply contains_remove_other.
Qed.

Lemma reset_class_length c doc : length (reset_class doc c) = length doc.
Proof.
  unfold reset_class. destruct (getElementsByClassName c doc); [done|].
  apply length_alter.
Qed.

Lemma reset_loop cs :
  NoDup cs →
  ∀ doc,
  length (fold_left reset_class cs doc) = length doc
  ∧ ∀ c,
      getElementsByClassName c (fold_left reset_class cs doc)
      = if bool_decide (c ∈ cs) then tail (getElementsByClassName c doc)
        else getElementsByClassName c doc.
Proof.
  induction cs as [|c0 cs IH]; intros Hnd doc; [done|].
  apply NoDup_cons in Hnd as [Hc0 Hnd]. simpl.
  destruct (IH Hnd (reset_class doc c0)) as [Hlen Hget]. split.
  { by rewrite Hlen, reset_class_length. }
  intros c. rewrite Hget. destruct (decide (c = c0)) as [->|Hne].
  - rewrite (bool_decide_eq_false_2 _ Hc0).
    rewrite bool_decide_eq_true_2 by left. apply reset_class_same.
  - rewrite !reset_class_other by done.
    destruct (decide (c ∈ cs)) as [Hin|Hin].
    + rewrite !bool_decide_eq_true_2; [done|by right|done].
    + rewrite !bool_decide_eq_false_2; [done| |done].
      intros [?|?]%elem_of_cons; done.
Qed.

(** X16: [resetCurrentElements] takes each of the four classes from one
    element only, the first in the document that carries it: the elements
    carrying the class afterwards are all the carriers but the first.  Other
    classes stay where they are, and no element is added or dropped.  The
    four class names are different from one another. *)
Theorem resetCurrentElements_first_only names doc :
  NoDup (classesToRemove names) →
  length (resetCurrentElements names doc) = length doc
  ∧ ∀ c,
      getElementsByClassName c (resetCurrentElements names doc)
      = if bool_decide (c ∈ classesToRemove names)
        then tail (getElementsByClassName c doc)
        else getElementsByClassName c doc.
Proof. intros Hnd. by apply reset_loop. Qed.

Lemma resetCurrentElements_first_only_witness :
  getElementsByClassName "current-cell"
    (resetCurrentElements names0 two_dashboards) = [4].
Proof.
  pose proof (resetCurrentElements_first_only names0 two_dashboards) as H.
  destruct H as [_ H].
  - apply (bool_decide_unpack _). by vm_compute.
  - rewrite H. reflexivity.
Defined.

Lemma tail_short {A} (l : list A) : length l ≤ 1 → tail l = [].
Proof. destruct l as [|? [|]]; simpl; [done|done|lia]. Qed.

(** X17: on a document in which each of the four classes has at most one
    carrier, [maskNotEditedElements] leaves the class of the edited cell or
    row on the container it is given and on no other element, the matching
    class of disabled cells or rows on the dashboard container and on no
    other, and the two classes of the other kind on no element; classes
    other than the four stay where they are.  So the document is again one
    in which each class has at most one carrier. *)
Theorem maskNotEditedElements_marks names element isRow doc :
  NoDup (classesToRemove names) →
  target_container element < length doc →
  dashboard_container element < length doc →
  (∀ c, c ∈ classesToRemove names →
        length (getElementsByClassName c doc) ≤ 1) →
  let row := default false isRow in
  let doc' := maskNotEditedElements names element isRow doc in
  length doc' = length doc
  ∧ getElementsByClassName
      (if row then currentEditedRow names else currentEditedCell names) doc'
    = [target_container element]
  ∧ getElementsByClassName
      (if row then disabledNotEditedRows names
       else disabledNotEditedCells names) doc'
    = [dashboard_container element]
  ∧ getElementsByClassName
      (if row then currentEditedCell names else currentEditedRow names) doc'
    = []
  ∧ getElementsByClassName
      (if row then disabledNotEditedCells names
       else disabledNotEditedRows names) doc'
    = []
  ∧ ∀ c, c ∉ classesToRemove names →
      getElementsByClassName c doc' = getElementsByClassName c doc.
Proof.
  intros Hnd Ht Hd Hone. cbv zeta.
  destruct (reset_loop _ Hnd doc) as [Hlen Hget].
  fold (resetCurrentElements names doc) in Hlen, Hget.
  assert (∀ c, c ∈ classesToRemove names →
            getElementsByClassName c (resetCurrentElements names doc) = [])
    as Hnone.
  { intros c Hc. rewrite Hget, bool_decide_eq_true_2 by done.
    apply tail_short. by apply Hone. }
  assert (∀ c, c ∉ classesToRemove names →
            getElementsByClassName c (resetCurrentElements names doc)
            = getElementsByClassName c doc) as Hkeep.
  { intros c Hc. by rewrite Hget, bool_decide_eq_false_2. }
  unfold classesToRemove in Hnd, Hnone, Hkeep.
  assert (disabledNotEditedCells names ≠ disabledNotEditedRows names
          ∧ disabledNotEditedCells names ≠ currentEditedCell names
          ∧ disabledNotEditedCells names ≠ currentEditedRow names
          ∧ disabledNotEditedRows names ≠ currentEditedCell names
          ∧ disabledNotEditedRows names ≠ currentEditedRow names
          ∧ currentEditedCell names ≠ currentEditedRow names)
    as (H12 & H13 & H14 & H23 & H24 & H34).
  { repeat (apply NoDup_cons in Hnd as [? Hnd]).
    repeat match goal with
           | H : _ ∉ _ |- _ => rewrite !not_elem_of_cons in H
           end.
    tauto. }
  pose proof (Hnone (disabledNotEditedCells names)) as Hn1.
  pose proof (Hnone (disabledNotEditedRows names)) as Hn2.
  pose proof (Hnone (currentEditedCell names)) as Hn3.
  pose proof (Hnone (currentEditedRow names)) as Hn4.
  rewrite !elem_of_cons in Hn1, Hn2, Hn3, Hn4.
  specialize (Hn1 ltac:(tauto)). specialize (Hn2 ltac:(tauto)).
  specialize (Hn3 ltac:(tauto)). specialize (Hn4 ltac:(tauto)).
  unfold maskNotEditedElements.
  set (doc1 := resetCurrentElements names doc) in *. clearbody doc1.
  unfold getElementsByClassName in *.
  destruct (default false isRow); simpl negb; cbv iota.
  - split_and!.
    + by rewrite !length_alter.
    + rewrite elements_from_alter_other
        by (intros e; apply contains_add_other; congruence).
      rewrite elements_from_add; [done|done|by rewrite Hlen].
    + rewrite elements_from_add; [done| |by rewrite length_alter, Hlen].
      rewrite elements_from_alter_other; [done|].
      intros e. apply contains_add_other. congruence.
    + rewrite !elements_from_alter_other; [done|..];
        intros e; apply contains_add_other; congruence.
    + rewrite !elements_from_alter_other; [done|..];
        intros e; apply contains_add_other; congruence.
    + intros c Hc. rewrite <- Hkeep by done.
      unfold classesToRemove in Hc. rewrite !not_elem_of_cons in Hc.
      rewrite !elements_from_alter_other; [done|..];
        intros e; apply contains_add_other; intros Heq;
        symmetry in Heq; tauto.
  - split_and!.
    + by rewrite !length_alter.
    + rewrite elements_from_alter_other
        by (intros e; apply contains_add_other; congruence).
      rewrite elements_from_add; [done|done|by rewrite Hlen].
    + rewrite elements_from_add; [done| |by rewrite length_alter, Hlen].
      rewrite elements_from_alter_other; [done|].
      intros e. apply contains_add_other. congruence.
    + rewrite !elements_from_alter_other; [done|..];
        intros e; apply contains_add_other; congruence.
    + rewrite !elements_from_alter_other; [done|..];
        intros e; apply contains_add_other; congruence.
    + intros c Hc. rewrite <- Hkeep by done.
      unfold classesToRemove in Hc. rewrite !not_elem_of_cons in Hc.
      rewrite !elements_from_alter_other; [done|..];
        intros e; apply contains_add_other; intros Heq;
        symmetry in Heq; tauto.
Qed.

Lemma maskNotEditedElements_marks_witness :
  let doc := [["dashboard"; "rows-disabled"]; ["row"; "current-row"];
              ["cell"]] in
  let doc' := maskNotEditedElements names0 (mkTarget 2 0) None doc in
  getElementsByClassName "current-cell" doc' = [2]
  ∧ getElementsByClassName "cells-disabled" doc' = [0]
  ∧ getElementsByClassName "current-row" doc' = []
  ∧ getElementsByClassName "rows-disabled" doc' = [].
Proof.
  cbv zeta.
  pose proof (maskNotEditedElements_marks names0 (mkTarget 2 0) None
                [["dashboard"; "rows-disabled"]; ["row"; "current-row"];
                 ["cell"]]) as H.
  destruct H as (_ & H1 & H2 & H3 & H4 & _).
  - apply (bool_decide_unpack _). by vm_compute.
  - simpl. lia.
  - simpl. lia.
  - intros c Hc. unfold classesToRemove in Hc. simpl in Hc.
    rewrite !elem_of_cons in Hc.
    destruct Hc as [->|[->|[->|[->|Hc]]]]; [vm_compute; lia..|].
    by apply elem_of_nil in Hc.
  - auto.
Defined.

End ToolbarExtras.

Module PositionExtras.
Import EditToolbar EditToolbarFacts.
Local Open Scope Z_scope.

Lemma append_length s t :
  String.length (s +:+ t) = (String.length s + String.length t)%nat.
Proof. induction s as [|a s IH]; simpl; [done|]. by rewrite IH. Qed.

Lemma append_inj_r t s1 s2 : s1 +:+ t = s2 +:+ t → s1 = s2.
Proof.
  intros H.
  assert (String.length s1 = String.length s2) as Hlen.
  { apply (f_equal String.length) in H. rewrite !append_length in H. lia. }
  revert s2 H Hlen. induction s1 as [|a s1 IH]; intros [|b s2]; simpl;
    try discriminate; [done|].
  intros [= -> H] [= Hlen]. f_equal. by apply IH.
Qed.

Lemma number_to_string_off n : number_to_string n = "-9999" → n = -9999.
Proof.
  unfold number_to_string. intros H. apply to_int_inj.
  assert (NilZero.int_of_string (NilZero.string_of_int (Z.to_int n))
          = Some (Z.to_int (-9999))) as Hback by (by rewrite H).
  destruct (Z.to_int n) as [u|u]; destruct u; try discriminate H;
    rewrite NilZero.isi in Hback by discriminate; congruence.
Qed.

Lemma px_off x :
  px x = "-9999px" ↔ x = None ∨ x = Some 0 ∨ x = Some (-9999).
Proof.
  split.
  - destruct x as [n|]; [|by left]. unfold px.
    destruct (Z.eqb_spec n 0) as [->|Hn]; [by right; left|].
    intros H. right. right. f_equal. apply number_to_string_off.
    by apply (append_inj_r "px").
  - by intros [->|[->| ->]].
Qed.

(** X18: a toolbar can be flagged visible and yet stand where [hide] puts
    it.  With a container and whole-number coordinates this happens exactly
    when each coordinate is 0 or -9999: 0 is falsy, so [x || '-9999'] gives
    the off-screen offset for it, while [defined(0)] holds. *)
Theorem setPosition_visible_off_screen x y toolbar style :
  container toolbar = Some style →
  isVisible (setPosition x y toolbar) = true
  ∧ container (setPosition x y toolbar) = container (hide toolbar)
  ↔ (x = Some 0 ∨ x = Some (-9999)) ∧ (y = Some 0 ∨ y = Some (-9999)).
Proof.
  intros Hc. unfold hide, setPosition. rewrite Hc. simpl. split.
  - intros [Hvis [= Hx Hy]].
    apply px_off in Hx. apply px_off in Hy.
    destruct x, y; try discriminate Hvis.
    split; [destruct Hx as [?|?]|destruct Hy as [?|?]]; done.
  - intros [Hx Hy].
    assert (px x = "-9999px") as -> by (apply px_off; tauto).
    assert (px y = "-9999px") as -> by (apply px_off; tauto).
    split; [|done]. by destruct Hx as [-> | ->], Hy as [-> | ->].
Qed.

Lemma setPosition_visible_off_screen_witness :
  let toolbar := mkToolbar (Some (mkStyle "10px" "20px")) true in
  isVisible (setPosition (Some 0) (Some 0) toolbar) = true
  ∧ container (setPosition (Some 0) (Some 0) toolbar)
    = container (hide toolbar).
Proof.
  apply (proj2 (setPosition_visible_off_screen (Some 0) (Some 0)
                  (mkToolbar (Some (mkStyle "10px" "20px")) true)
                  (mkStyle "10px" "20px") eq_refl)).
  split; left; reflexivity.
Defined.

End PositionExtras.

Module CapsExtras.
Import MobileCaps.

Lemma split_nonempty c s : split c s ≠ [].
Proof.
  destruct s as [|a s]; simpl; [done|].
  destruct (Ascii.eqb a c); [done|]. by destruct (split c s).
Qed.

Lemma append_cons a s t : String a s +:+ t = String a (s +:+ t).
Proof. done. Qed.

Lemma append_nil_l t : "" +:+ t = t.
Proof. done. Qed.

Lemma has_app c s t : has c (s +:+ t) = has c s || has c t.
Proof.
  induction s as [|a s IH]; [done|].
  rewrite append_cons. simpl. by rewrite IH, orb_assoc.
Qed.

Lemma append_nil_r s : s +:+ "" = s.
Proof. induction s as [|a s IH]; [done|]. by rewrite append_cons, IH. Qed.

(** A piece free of the separator stays in front of the first piece of
    what follows it. *)
Lemma split_app c s t :
  has c s = false →
  split c (s +:+ t)
  = match split c t with
    | piece :: pieces => (s +:+ piece) :: pieces
    | [] => []
    end.
Proof.
  induction s as [|a s IH].
  - intros _. rewrite append_nil_l. destruct (split c t); [done|].
    by rewrite append_nil_l.
  - simpl. intros [Ha Hs]%orb_false_elim.
    rewrite ?append_cons. simpl. rewrite Ha, IH by done.
    pose proof (split_nonempty c t). by destruct (split c t).
Qed.

Lemma split_free c s : has c s = false → split c s = [s].
Proof.
  induction s as [|a s IH]; simpl; [done|].
  intros [Ha Hs]%orb_false_elim. by rewrite Ha, IH.
Qed.

Lemma split_sep c t : split c (String c t) = "" :: split c t.
Proof. simpl. by rewrite Ascii.eqb_refl. Qed.

(** The separator occurs exactly when [split] gives more than one piece. *)
Lemma split_single c s : has c s = false ↔ tail (split c s) = [].
Proof.
  induction s as [|a s IH]; simpl; [done|].
  destruct (Ascii.eqb a c); simpl.
  - split; [done|]. intros H. by destruct (split_nonempty c s).
  - rewrite IH. by destruct (split c s).
Qed.

(** [join] undoes [split]. *)
Lemma concat_split c s : String.concat (String c "") (split c s) = s.
Proof.
  induction s as [|a s IH]; simpl; [done|].
  destruct (Ascii.eqb_spec a c) as [->|Hne].
  - pose proof (split_nonempty c s) as Hne.
    destruct (split c s) as [|piece pieces] eqn:Heq; [done|].
    change (String.concat (String c "") ("" :: piece :: pieces))
      with (String c (String.concat (String c "") (piece :: pieces))).
    by rewrite IH.
  - pose proof (split_nonempty c s) as Hne'.
    destruct (split c s) as [|piece [|piece' pieces]] eqn:Heq; [done|..];
      simpl in *; by rewrite <- IH.
Qed.

Lemma prefix_refl_app s t : String.prefix s (s +:+ t) = true.
Proof.
  induction s as [|a s IH]; [by destruct t|].
  rewrite append_cons. simpl.
  destruct (ascii_dec a a); [done|congruence].
Qed.

Lemma prefix_first a sep b s :
  a ≠ b → String.prefix (String a sep) (String b s) = false.
Proof. intros Hne. simpl. by destruct (ascii_dec a b). Qed.

(** A prefix that reaches into [t] across a character it does not have is
    no prefix. *)
Lemma prefix_across p d c t :
  has c p = false → String.prefix p d = false →
  String.prefix p (d +:+ String c t) = false.
Proof.
  revert d. induction p as [|a p IH]; intros d; simpl.
  - intros _. by destruct d.
  - intros [Ha Hp]%orb_false_elim. destruct d as [|b d].
    + intros _. rewrite append_nil_l. simpl.
      destruct (ascii_dec a c) as [->|_]; [|done].
      by rewrite Ascii.eqb_refl in Ha.
    + rewrite append_cons. simpl.
      destruct (ascii_dec a b); [|done]. by apply IH.
Qed.

Lemma before_app a sep s t :
  has a s = false →
  before (String a sep) (s +:+ t) = s +:+ before (String a sep) t.
Proof.
  induction s as [|b s IH]; [done|].
  intros [Hb Hs]%orb_false_elim.
  change (before (String a sep) (String b s +:+ t))
    with (if String.prefix (String a sep) (String b (s +:+ t)) then ""
          else String b (before (String a sep) (s +:+ t))).
  rewrite prefix_first; [|intros ->; by rewrite Ascii.eqb_refl in Hb].
  by rewrite IH, append_cons.
Qed.

Lemma before_found sep t : before sep (sep +:+ t) = "".
Proof.
  destruct sep as [|a sep].
  - rewrite append_nil_l. by destruct t.
  - change (before (String a sep) (String a sep +:+ t))
      with (if String.prefix (String a sep) (String a sep +:+ t) then ""
            else String a (before (String a sep) (sep +:+ t))).
    by rewrite prefix_refl_app.
Qed.

Lemma before_step sep a s :
  String.prefix sep (String a s) = false →
  before sep (String a s) = String a (before sep s).
Proof. intros H. simpl before. simpl in H. by rewrite H. Qed.

Lemma plain_has s : plain s = true → has "@" s = false ∧ has ":" s = false.
Proof.
  unfold plain. intros [H1 H2]%andb_prop.
  by destruct (has "@" s), (has ":" s).
Qed.

(** X19: [patchMobileCaps] throws exactly when no colon occurs in the
    project name before the first [@browserstack]. *)
Theorem patchMobileCaps_throws name title caps :
  patchMobileCaps name title caps = None
  ↔ has ":" (before "@browserstack" name) = false.
Proof.
  unfold patchMobileCaps. rewrite split_single.
  pose proof (split_nonempty ":" (before "@browserstack" name)) as Hne.
  destruct (split ":" (before "@browserstack" name)) as [|b [|o rest]];
    [done|done|]. simpl. by split.
Qed.

(** X20: for a project name of the form
    [browser@device:os version@browserstack...], whose pieces are free of
    [@] and [:], whose [os] has no space and whose device name does not
    begin with [browserstack], [patchMobileCaps] takes the device name and
    the version, spaces included, from the name, each replaced by its
    fallback when it is empty; it sets the test name to the title and leaves
    the browser name and the build as they are. *)
Theorem patchMobileCaps_reads_name browser device os version rest title caps :
  plain browser = true → plain device = true → plain os = true →
  plain version = true → has " " os = false →
  String.prefix "browserstack" device = false →
  patchMobileCaps
    (browser +:+ "@" +:+ device +:+ ":" +:+ os +:+ " " +:+ version
     +:+ "@browserstack" +:+ rest) title caps
  = Some (mkCaps (or_else version "12.0")
                 (or_else device "Samsung Galaxy S22 Ultra")
                 (browserName caps) "true" title (build caps)).
Proof.
  intros [Hb Hb']%plain_has [Hd Hd']%plain_has [Ho Ho']%plain_has
         [Hv Hv']%plain_has Hsp Hpre.
  unfold patchMobileCaps.
  assert (before "@browserstack"
            (browser +:+ "@" +:+ device +:+ ":" +:+ os +:+ " " +:+ version
             +:+ "@browserstack" +:+ rest)
          = browser +:+ "@" +:+ device +:+ ":" +:+ os +:+ " " +:+ version)
    as ->.
  { rewrite before_app by done. f_equal.
    change ("@" +:+ ?t) with (String "@" t).
    rewrite before_step.
    2:{ change (String.prefix "@browserstack" (String "@" ?t))
          with (String.prefix "browserstack" t).
        by apply prefix_across. }
    f_equal. rewrite before_app by done. f_equal.
    change (":" +:+ ?t) with (String ":" t).
    rewrite before_step by done. f_equal.
    rewrite before_app by done. f_equal.
    change (" " +:+ ?t) with (String " " t).
    rewrite before_step by done. f_equal.
    rewrite before_app by done. rewrite before_found.
    apply append_nil_r. }
  rewrite (split_app ":" browser) by done.
  change ("@" +:+ ?t) with (String "@" t).
  change (" " +:+ version) with (String " " version).
  change (split ":" (String "@" ?t))
    with (match split ":" t with
          | piece :: pieces => String "@" piece :: pieces
          | [] => [String "@" ""]
          end).
  rewrite (split_app ":" device) by done.
  change (":" +:+ ?t) with (String ":" t). rewrite split_sep.
  rewrite (split_free ":" (os +:+ String " " version))
    by (rewrite has_app; simpl; by rewrite Ho', Hv').
  rewrite !append_nil_r.
  rewrite (split_app "@" browser) by done. rewrite split_sep.
  rewrite (split_free "@" device) by done.
  rewrite (split_app " " os) by done. rewrite split_sep.
  pose proof (split_nonempty " " version) as Hne.
  destruct (split " " version) as [|piece pieces] eqn:Heq; [done|].
  cbn [tail lookup list_lookup]. rewrite <- Heq, concat_split.
  reflexivity.
Qed.

Lemma patchMobileCaps_reads_name_witness :
  patchMobileCaps "chrome@Google Pixel 7 Pro:android 13.0 beta@browserstack"
                  "file - title" caps
  = Some (mkCaps "13.0 beta" "Google Pixel 7 Pro" "chrome" "true"
                 "file - title" "playwright-build-1").
Proof.
  apply (patchMobileCaps_reads_name "chrome" "Google Pixel 7 Pro" "android"
           "13.0 beta" "" "file - title" caps); reflexivity.
Defined.

End CapsExtras.
